(** * EVA: block discovery, chunked scanning and the position ledger

    A shallow embedding of the algorithmic core of the ERC-4626 vault
    analyzer: [block-discovery.js] (class [VaultBlockDiscovery]), the copy of
    that class carried by the application controller [app.js] together with
    the controller's [scanByChunksWithTopics], [processTransferEvents] and
    [processRealEventData], and [consolidateBlockRanges] of
    [graph-discovery.js].

    Block numbers, token amounts and millisecond dates are integers ([Z]).
    An [async] method is a state-passing computation over the state of the
    log provider; it may resolve, reject with an error message, or run out of
    fuel (one unit of fuel is spent per loop iteration and per recursive
    call). *)

From Stdlib Require Import ZArith List String Ascii Bool Lia.
From stdpp Require Import gmap strings list sorting.

Local Open Scope Z_scope.

(* ================================================================= *)
(** * Part I: the embedding *)
(* ================================================================= *)

(** ** JavaScript strings *)

(** [haystack.includes(needle)] *)
Definition includes (haystack needle : string) : bool :=
  match String.index 0 needle haystack with
  | Some _ => true
  | None => false
  end.

Definition lower_ascii (c : ascii) : ascii :=
  let n := N_of_ascii c in
  if ((65 <=? n) && (n <=? 90))%N then ascii_of_N (n + 32) else c.

(** [s.toLowerCase()] on ASCII text (addresses are hexadecimal). *)
Fixpoint toLowerCase (s : string) : string :=
  match s with
  | EmptyString => EmptyString
  | String c s' => String (lower_ascii c) (toLowerCase s')
  end.

(** ** Promises over a stateful provider *)

(** What a call into the provider yields. *)
Inductive result (A : Type) : Type :=
| Ok (value : A)
| Err (message : string).
Arguments Ok {A} value.
Arguments Err {A} message.

(** What an [async] method of the program yields. *)
Inductive outcome (A : Type) : Type :=
| Done (value : A)
| Throw (message : string)
| OutOfFuel.
Arguments Done {A} value.
Arguments Throw {A} message.
Arguments OutOfFuel {A}.

Definition M (St A : Type) : Type := St -> outcome A * St.

Definition ret {St A} (a : A) : M St A := fun s => (Done a, s).

Definition throw {St A} (message : string) : M St A := fun s => (Throw message, s).

Definition timeout {St A} : M St A := fun s => (OutOfFuel, s).

Definition bind {St A B} (m : M St A) (k : A -> M St B) : M St B :=
  fun s =>
    match m s with
    | (Done a, s') => k a s'
    | (Throw e, s') => (Throw e, s')
    | (OutOfFuel, s') => (OutOfFuel, s')
    end.

(** [await call]: a rejected provider promise becomes an exception. *)
Definition await {St A} (call : St -> result A * St) : M St A :=
  fun s =>
    match call s with
    | (Ok a, s') => (Done a, s')
    | (Err e, s') => (Throw e, s')
    end.

(** [try { body } catch (error) { handler }] *)
Definition try_catch {St A} (body : M St A) (handler : string -> M St A) : M St A :=
  fun s =>
    match body s with
    | (Throw e, s') => handler e s'
    | other => other
    end.

(** [promise.catch(() => fallback)] *)
Definition catch_with {St A} (call : St -> result A * St) (fallback : A) : M St A :=
  fun s =>
    match call s with
    | (Ok a, s') => (Done a, s')
    | (Err _, s') => (Done fallback, s')
    end.

Notation "'let*' x ':=' m 'in' k" := (bind m (fun x => k))
  (at level 10, x name, m at level 100, k at level 200).

(** ** The log provider *)

Record Filter : Type := mkFilter {
  address : string;
  fromBlock : Z;
  toBlock : Z;
  topics : list (list string)
}.

Record RawLog : Type := mkRawLog {
  blockNumber : Z;
  transactionHash : string;
  logAddress : string;
  logTopics : list string;
  data : string
}.

Record Provider (St : Type) : Type := mkProvider {
  getBlockNumber : St -> result Z * St;
  getLogs : Filter -> St -> result (list RawLog) * St
}.
Arguments getBlockNumber {St} _ _.
Arguments getLogs {St} _ _ _.

(** A provider wrapped so that its state also records every log query. *)
Definition traced {St} (p : Provider St) : Provider (St * list Filter) :=
  {| getBlockNumber := fun '(s, tr) =>
       let '(r, s') := getBlockNumber p s in (r, (s', tr));
     getLogs := fun f '(s, tr) =>
       let '(r, s') := getLogs p f s in (r, (s', tr ++ [f])) |}.

(** Blocks [a .. b], both ends included. *)
Fixpoint blocksFrom (n : nat) (a : Z) : list Z :=
  match n with
  | O => []
  | S n' => a :: blocksFrom n' (a + 1)
  end.

Definition blocksFromTo (a b : Z) : list Z := blocksFrom (Z.to_nat (b - a + 1)) a.

(** A chain on which block [b] carries a watched event exactly when
    [active b]; with [limit = Some w] the provider refuses any query whose
    span [toBlock - fromBlock] is larger than [w]. *)
Definition chainLogs (active : Z -> bool) (f : Filter) : list RawLog :=
  map (fun b => mkRawLog b "" (address f) [] "")
      (List.filter active (blocksFromTo (fromBlock f) (toBlock f))).

Definition chainProvider (active : Z -> bool) (limit : option Z) (head : Z) : Provider unit :=
  {| getBlockNumber := fun s => (Ok head, s);
     getLogs := fun f s =>
       match limit with
       | Some w =>
           if w <? toBlock f - fromBlock f
           then (Err "query exceeds max block range", s)
           else (Ok (chainLogs active f), s)
       | None => (Ok (chainLogs active f), s)
       end |}.

(** A provider that refuses every log query with the given message. *)
Definition rejectingProvider (message : string) : Provider unit :=
  {| getBlockNumber := fun s => (Err message, s);
     getLogs := fun _ s => (Err message, s) |}.

(** ** Shapes of the discovery results *)

Module Boundary.
Record t : Type := mk { start : Z; end_ : Z; totalBlocks : Z }.
End Boundary.

Module Range.
Record t : Type := mk { start : Z; end_ : Z; blocks : Z }.
End Range.

Module AllEvents.
Record t : Type := mk {
  deposits : list RawLog;
  withdraws : list RawLog;
  transfers : list RawLog
}.
End AllEvents.

(** [{ ranges, events }] *)
Record Activity : Type := mkActivity {
  activityRanges : list Range.t;
  activityEvents : AllEvents.t
}.

Record EventTopics : Type := mkEventTopics {
  deposit : string;
  withdraw : string;
  transfer : string
}.

Record VaultBlockDiscovery (St : Type) : Type := mkVaultBlockDiscovery {
  provider : Provider St;
  vaultAddress : string;
  maxBlockRange : Z;
  eventTopics : EventTopics
}.
Arguments provider {St} _.
Arguments vaultAddress {St} _.
Arguments maxBlockRange {St} _.
Arguments eventTopics {St} _.

(** [constructor(provider, vaultAddress)] *)
Definition new_VaultBlockDiscovery {St} (provider : Provider St) (vaultAddress : string)
  : VaultBlockDiscovery St :=
  {| provider := provider;
     vaultAddress := toLowerCase vaultAddress;
     maxBlockRange := 10000;
     eventTopics :=
       {| deposit := "0xdcbc1c05240f31ff3ad067ef1ee35ce4997762752e3a095284754544f4c709d7";
          withdraw := "0xfbde797d201c681b91056529119e0b02407c7bb96a4a2c75c01fc9667232c8db";
          transfer := "0xddf252ad1be2c89b69c2b068fc378daa952ba7f163c4a11628f55a4df523b3ef" |} |}.

(** The filter built by [checkBlockRangeForActivity]. *)
Definition activityFilter {St} (this : VaultBlockDiscovery St) (fromBlock toBlock : Z) : Filter :=
  {| address := vaultAddress this;
     fromBlock := fromBlock;
     toBlock := toBlock;
     topics := [[deposit (eventTopics this); withdraw (eventTopics this);
                 transfer (eventTopics this)]] |}.

(** ** [block-discovery.js] *)

Module BlockDiscovery.
Section Methods.
Context {St : Type} (this : VaultBlockDiscovery St).

Fixpoint checkBlockRangeForActivity (fuel : nat) (fromBlock toBlock : Z) : M St bool :=
  match fuel with
  | O => timeout
  | S fuel' =>
      try_catch
        (let* logs := await (getLogs (provider this) (activityFilter this fromBlock toBlock)) in
         ret (0 <? Z.of_nat (length logs)))
        (fun error =>
           if includes error "query exceeds" then
             let midPoint := (fromBlock + toBlock) / 2 in
             let* firstHalf := checkBlockRangeForActivity fuel' fromBlock midPoint in
             let* secondHalf := checkBlockRangeForActivity fuel' (midPoint + 1) toBlock in
             ret (firstHalf || secondHalf)
           else throw error)
  end.

Fixpoint binarySearchFirstActivity_loop (fuel : nat) (left right result : Z) : M St Z :=
  match fuel with
  | O => timeout
  | S fuel' =>
      if left <=? right then
        let mid := (left + right) / 2 in
        let* hasActivity :=
          checkBlockRangeForActivity fuel' mid (Z.min (mid + maxBlockRange this) right) in
        if hasActivity
        then binarySearchFirstActivity_loop fuel' left (mid - 1) mid
        else binarySearchFirstActivity_loop fuel' (mid + maxBlockRange this + 1) right result
      else ret result
  end.

Definition binarySearchFirstActivity (fuel : nat) (left right : Z) : M St Z :=
  binarySearchFirstActivity_loop fuel left right (-1).

Fixpoint binarySearchLastActivity_loop (fuel : nat) (left right result : Z) : M St Z :=
  match fuel with
  | O => timeout
  | S fuel' =>
      if left <=? right then
        let mid := (left + right) / 2 in
        let* hasActivity :=
          checkBlockRangeForActivity fuel' (Z.max (mid - maxBlockRange this) left) mid in
        if hasActivity
        then binarySearchLastActivity_loop fuel' (mid + 1) right mid
        else binarySearchLastActivity_loop fuel' left (mid - maxBlockRange this - 1) result
      else ret result
  end.

Definition binarySearchLastActivity (fuel : nat) (left right : Z) : M St Z :=
  binarySearchLastActivity_loop fuel left right left.

Definition findActivityBoundaries (fuel : nat) (fromBlock toBlock : Z)
  : M St (list Boundary.t) :=
  let* firstActive := binarySearchFirstActivity fuel fromBlock toBlock in
  if firstActive =? -1 then ret []
  else
    let* lastActive := binarySearchLastActivity fuel firstActive toBlock in
    ret [Boundary.mk firstActive lastActive (lastActive - firstActive + 1)].

Fixpoint subdivideActiveRegion_loop (fuel : nat) (chunkSize i endBlock : Z)
    (ranges : list Range.t) : M St (list Range.t) :=
  match fuel with
  | O => timeout
  | S fuel' =>
      if i <=? endBlock then
        let rangeEnd := Z.min (i + chunkSize - 1) endBlock in
        let* hasActivity := checkBlockRangeForActivity fuel' i rangeEnd in
        subdivideActiveRegion_loop fuel' chunkSize (i + chunkSize) endBlock
          (if hasActivity
           then ranges ++ [Range.mk i rangeEnd (rangeEnd - i + 1)]
           else ranges)
      else ret ranges
  end.

Definition subdivideActiveRegion (fuel : nat) (startBlock endBlock : Z)
  : M St (list Range.t) :=
  subdivideActiveRegion_loop fuel (Z.min (maxBlockRange this) 5000) startBlock endBlock [].

(** [for (const boundary of boundaries) activeRanges.push(...)] *)
Fixpoint subdivideBoundaries (fuel : nat) (boundaries : list Boundary.t)
    (activeRanges : list Range.t) : M St (list Range.t) :=
  match boundaries with
  | [] => ret activeRanges
  | boundary :: rest =>
      let* detailedRanges :=
        subdivideActiveRegion fuel (Boundary.start boundary) (Boundary.end_ boundary) in
      subdivideBoundaries fuel rest (activeRanges ++ detailedRanges)
  end.

(** [toBlock = None] stands for the default ['latest']. *)
Definition discoverActiveBlocks (fuel : nat) (fromBlock : Z) (toBlock : option Z)
  : M St (list Range.t) :=
  let* toBlock :=
    match toBlock with
    | None => await (getBlockNumber (provider this))
    | Some b => ret b
    end in
  try_catch
    (let* boundaries := findActivityBoundaries fuel fromBlock toBlock in
     if (length boundaries =? 0)%nat then ret []
     else subdivideBoundaries fuel boundaries [])
    (fun error => throw error).

(** [getEventsInRange]; a single topic at position 0 is written as the
    one-element list of alternatives, which is the same filter. *)
Definition getEventsInRange (fromBlock toBlock : Z) (topics : list (list string))
  : M St (list RawLog) :=
  await (getLogs (provider this) (mkFilter (vaultAddress this) fromBlock toBlock topics)).

(** The [try] block of [getEventsFromRanges] for one range. *)
Definition fetchRange (range : Range.t) (allEvents : AllEvents.t) : M St AllEvents.t :=
  let* deposits :=
    getEventsInRange (Range.start range) (Range.end_ range) [[deposit (eventTopics this)]] in
  let* withdraws :=
    getEventsInRange (Range.start range) (Range.end_ range) [[withdraw (eventTopics this)]] in
  let* transfers :=
    getEventsInRange (Range.start range) (Range.end_ range) [[transfer (eventTopics this)]] in
  ret (AllEvents.mk (AllEvents.deposits allEvents ++ deposits)
                    (AllEvents.withdraws allEvents ++ withdraws)
                    (AllEvents.transfers allEvents ++ transfers)).

(** [for (const range of ranges)] of [getEventsFromRanges]. *)
Fixpoint getEventsFromRanges_loop (ranges : list Range.t) (allEvents : AllEvents.t)
  : M St AllEvents.t :=
  match ranges with
  | [] => ret allEvents
  | range :: rest =>
      let* allEvents' := try_catch (fetchRange range allEvents) (fun error => ret allEvents) in
      getEventsFromRanges_loop rest allEvents'
  end.

Definition getEventsFromRanges (ranges : list Range.t) : M St AllEvents.t :=
  getEventsFromRanges_loop ranges (AllEvents.mk [] [] []).

End Methods.

(** [discoverVaultActivity]; [None] is [null]. *)
Definition discoverVaultActivity {St} (provider : Provider St) (vaultAddress : string)
    (fuel : nat) : M St (option Activity) :=
  let discovery := new_VaultBlockDiscovery provider vaultAddress in
  let* activeRanges := discoverActiveBlocks discovery fuel 0 None in
  if (0 <? length activeRanges)%nat then
    let* events := getEventsFromRanges discovery activeRanges in
    ret (Some (mkActivity activeRanges events))
  else ret None.

End BlockDiscovery.

(** ** The copy of [VaultBlockDiscovery] in [app.js] *)

Module AppDiscovery.
Section Methods.
Context {St : Type} (this : VaultBlockDiscovery St).

Fixpoint checkBlockRangeForActivity (fuel : nat) (fromBlock toBlock : Z) : M St bool :=
  match fuel with
  | O => timeout
  | S fuel' =>
      try_catch
        (let* logs := await (getLogs (provider this) (activityFilter this fromBlock toBlock)) in
         ret (0 <? Z.of_nat (length logs)))
        (fun error =>
           if includes error "query exceeds" || includes error "max results" then
             let midPoint := (fromBlock + toBlock) / 2 in
             if midPoint =? fromBlock then ret false
             else
               let* firstHalf := checkBlockRangeForActivity fuel' fromBlock midPoint in
               let* secondHalf := checkBlockRangeForActivity fuel' (midPoint + 1) toBlock in
               ret (firstHalf || secondHalf)
           else ret false)
  end.

Fixpoint binarySearchFirstActivity_loop (fuel : nat) (left right result : Z) : M St Z :=
  match fuel with
  | O => timeout
  | S fuel' =>
      if left <=? right then
        let mid := (left + right) / 2 in
        let searchEnd := Z.min (mid + maxBlockRange this) right in
        let* hasActivity := checkBlockRangeForActivity fuel' mid searchEnd in
        if hasActivity
        then binarySearchFirstActivity_loop fuel' left (mid - 1) mid
        else binarySearchFirstActivity_loop fuel' (searchEnd + 1) right result
      else ret result
  end.

Definition binarySearchFirstActivity (fuel : nat) (left right : Z) : M St Z :=
  binarySearchFirstActivity_loop fuel left right (-1).

Fixpoint binarySearchLastActivity_loop (fuel : nat) (left right result : Z) : M St Z :=
  match fuel with
  | O => timeout
  | S fuel' =>
      if left <=? right then
        let mid := (left + right) / 2 in
        let searchStart := Z.max (mid - maxBlockRange this) left in
        let* hasActivity := checkBlockRangeForActivity fuel' searchStart mid in
        if hasActivity
        then binarySearchLastActivity_loop fuel' (mid + 1) right mid
        else binarySearchLastActivity_loop fuel' left (mid - maxBlockRange this - 1) result
      else ret result
  end.

Definition binarySearchLastActivity (fuel : nat) (left right : Z) : M St Z :=
  binarySearchLastActivity_loop fuel left right left.

Definition findActivityBoundaries (fuel : nat) (fromBlock toBlock : Z)
  : M St (list Boundary.t) :=
  let* firstActive := binarySearchFirstActivity fuel fromBlock toBlock in
  if firstActive =? -1 then ret []
  else
    let* lastActive := binarySearchLastActivity fuel firstActive toBlock in
    ret [Boundary.mk firstActive lastActive (lastActive - firstActive + 1)].

Fixpoint subdivideActiveRegion_loop (fuel : nat) (chunkSize i endBlock : Z)
    (ranges : list Range.t) : M St (list Range.t) :=
  match fuel with
  | O => timeout
  | S fuel' =>
      if i <=? endBlock then
        let rangeEnd := Z.min (i + chunkSize - 1) endBlock in
        let* hasActivity := checkBlockRangeForActivity fuel' i rangeEnd in
        subdivideActiveRegion_loop fuel' chunkSize (i + chunkSize) endBlock
          (if hasActivity
           then ranges ++ [Range.mk i rangeEnd (rangeEnd - i + 1)]
           else ranges)
      else ret ranges
  end.

Definition subdivideActiveRegion (fuel : nat) (startBlock endBlock : Z)
  : M St (list Range.t) :=
  subdivideActiveRegion_loop fuel (Z.min (maxBlockRange this) 5000) startBlock endBlock [].

Fixpoint subdivideBoundaries (fuel : nat) (boundaries : list Boundary.t)
    (activeRanges : list Range.t) : M St (list Range.t) :=
  match boundaries with
  | [] => ret activeRanges
  | boundary :: rest =>
      let* detailedRanges :=
        subdivideActiveRegion fuel (Boundary.start boundary) (Boundary.end_ boundary) in
      subdivideBoundaries fuel rest (activeRanges ++ detailedRanges)
  end.

Definition discoverActiveBlocks (fuel : nat) (fromBlock : Z) (toBlock : option Z)
  : M St (list Range.t) :=
  let* toBlock :=
    match toBlock with
    | None => await (getBlockNumber (provider this))
    | Some b => ret b
    end in
  try_catch
    (let* boundaries := findActivityBoundaries fuel fromBlock toBlock in
     if (length boundaries =? 0)%nat then ret []
     else subdivideBoundaries fuel boundaries [])
    (fun _ => ret []).

End Methods.
End AppDiscovery.

(** ** Decoded events *)

(** [parsed.args] for the events of the controller's ABI. *)
Inductive Args : Type :=
| DepositArgs (sender owner : string) (assets shares : Z)
| WithdrawArgs (sender receiver owner : string) (assets shares : Z)
| UserArgs (user : string) (amount shares : Z)
| TransferArgs (from to : string) (value : Z)
| VaultUpdateArgs (totalAssets totalShares : Z).

Record ParsedLog : Type := mkParsedLog { name : string; parsedArgs : Args }.

(** [{ ...log, args }] *)
Record Event : Type := mkEvent { log : RawLog; args : Args }.

(** What the controller uses of [new ethers.Interface(this.erc4626Abi)]:
    the topic hashes of its events ([VaultUpdate] may be missing) and
    [parseLog], which yields nothing for a log it cannot decode. *)
Record Interface : Type := mkInterface {
  depositTopic : string;
  withdrawTopic : string;
  transferTopic : string;
  vaultUpdateTopic : option string;
  parseLog : list string -> string -> option ParsedLog
}.

(** [vaultContract.target || vaultContract.address] reads these two. *)
Record Contract : Type := mkContract { target : string; contractAddress : string }.

(** [Boolean(s)] for a string. *)
Definition truthy (s : string) : bool := negb (String.eqb s "").

Module Scan.
Record t : Type := mk {
  depositEvents : list Event;
  withdrawEvents : list Event;
  transferEvents : list Event
}.
End Scan.

Module Events.
Record t : Type := mk {
  depositEvents : list Event;
  withdrawEvents : list Event
}.
End Events.

Module AddressData.
Record t : Type := mk {
  address : string;
  totalDeposits : Z;
  totalWithdrawals : Z;
  totalShares : Z;
  firstDeposit : Z;
  lastActivity : Z;
  depositCount : Z;
  withdrawalCount : Z
}.
End AddressData.

(** [new Date(blockTime * 1000)], as milliseconds since the epoch. *)
Definition newDate (ms : Z) : Z := ms.

(** ** The controller [VaultTracker] of [app.js] *)

Module VaultTracker.

(** *** [scanByChunksWithTopics] *)
Section Scanner.
Context {St : Type} (provider : Provider St) (iface : Interface).

(** The body of [for (const log of logs)]. *)
Definition classifyLog (acc : Scan.t) (log : RawLog) : Scan.t :=
  match parseLog iface (logTopics log) (data log) with
  | Some parsed =>
      if String.eqb (name parsed) "Deposit" || String.eqb (name parsed) "DepositMade" then
        Scan.mk (Scan.depositEvents acc ++ [mkEvent log (parsedArgs parsed)])
                (Scan.withdrawEvents acc) (Scan.transferEvents acc)
      else if String.eqb (name parsed) "Withdraw"
              || String.eqb (name parsed) "WithdrawalMade" then
        Scan.mk (Scan.depositEvents acc)
                (Scan.withdrawEvents acc ++ [mkEvent log (parsedArgs parsed)])
                (Scan.transferEvents acc)
      else if String.eqb (name parsed) "Transfer" then
        Scan.mk (Scan.depositEvents acc) (Scan.withdrawEvents acc)
                (Scan.transferEvents acc ++ [mkEvent log (parsedArgs parsed)])
      else acc
  | None => acc
  end.

Definition classifyLogs (logs : list RawLog) (acc : Scan.t) : Scan.t :=
  fold_left classifyLog logs acc.

Definition chunkSize : Z := 2000.

Definition topics0 : list string :=
  let topicsOr :=
    List.filter truthy [depositTopic iface; withdrawTopic iface; transferTopic iface] in
  match vaultUpdateTopic iface with
  | Some t => if truthy t then topicsOr ++ [t] else topicsOr
  | None => topicsOr
  end.

Definition scanFilter (address : string) (fromBlock toBlock : Z) : Filter :=
  mkFilter address fromBlock toBlock [topics0].

(** The [try]/[catch] around the chunk query: [Some logs] when the loop
    goes on to decode [logs], [None] when it takes the [continue]. *)
Definition chunkLogs (address : string) (start end_ : Z) : M St (option (list RawLog)) :=
  try_catch
    (let* logs := await (getLogs provider (scanFilter address start end_)) in
     ret (Some logs))
    (fun e =>
       if 500 <? end_ - start then
         let mid := (start + end_) / 2 in
         let* first := catch_with (getLogs provider (scanFilter address start mid)) [] in
         let* second := catch_with (getLogs provider (scanFilter address (mid + 1) end_)) [] in
         ret (Some (first ++ second))
       else ret None).

Fixpoint scanByChunksWithTopics_loop (fuel : nat) (address : string) (start toBlock : Z)
    (acc : Scan.t) : M St Scan.t :=
  match fuel with
  | O => timeout
  | S fuel' =>
      if start <=? toBlock then
        let end_ := Z.min (start + chunkSize - 1) toBlock in
        let* logs := chunkLogs address start end_ in
        match logs with
        | Some logs =>
            scanByChunksWithTopics_loop fuel' address (start + chunkSize) toBlock
              (classifyLogs logs acc)
        | None =>
            scanByChunksWithTopics_loop fuel' address (start + chunkSize) toBlock acc
        end
      else ret acc
  end.

Definition scanByChunksWithTopics (fuel : nat) (vaultContract : Contract)
    (fromBlock toBlock : Z) : M St Scan.t :=
  let address :=
    if truthy (target vaultContract) then target vaultContract
    else contractAddress vaultContract in
  scanByChunksWithTopics_loop fuel address fromBlock toBlock (Scan.mk [] [] []).

End Scanner.

(** *** [processTransferEvents] *)

Definition zeroAddress : string := "0x0000000000000000000000000000000000000000".

(** The callback of [transferEvents.forEach].  An event without [from] and
    [to] arguments fails both tests, as [undefined === zeroAddress] is
    false. *)
Definition processTransferEvent (acc : Events.t) (event : Event) : Events.t :=
  match args event with
  | TransferArgs from to value =>
      if String.eqb from zeroAddress && negb (String.eqb to zeroAddress) then
        Events.mk (Events.depositEvents acc ++ [mkEvent (log event) (DepositArgs to to value value)])
                  (Events.withdrawEvents acc)
      else if negb (String.eqb from zeroAddress) && String.eqb to zeroAddress then
        Events.mk (Events.depositEvents acc)
                  (Events.withdrawEvents acc
                     ++ [mkEvent (log event) (WithdrawArgs from from from value value)])
      else acc
  | _ => acc
  end.

Definition processTransferEvents (transferEvents : list Event) (vaultAddress : string)
  : Events.t :=
  fold_left processTransferEvent transferEvents (Events.mk [] []).

(** *** [getBlockTimestamp] and [processRealEventData] *)

Section Ledger.
Context {St : Type}.
(** [provider.getBlock(n)]: the block's [timestamp], if there is a block
    and it has one. *)
Variable getBlock : Z -> St -> result (option Z) * St.
(** [Date.now()] *)
Variable Date_now : St -> Z.

(** The controller's state: the world and [this.blockTimestampCache]. *)
Definition getBlockTimestamp (blockNumber : Z) : M (St * gmap Z Z) Z :=
  fun '(s, cache) =>
    match cache !! blockNumber with
    | Some ts => (Done ts, (s, cache))
    | None =>
        match getBlock blockNumber s with
        | (Ok blk, s') =>
            let ts :=
              match blk with
              | Some t => if t =? 0 then Date_now s' / 1000 else t
              | None => Date_now s' / 1000
              end in
            (Done ts, (s', <[blockNumber := ts]> cache))
        | (Err e, s') => (Throw e, (s', cache))
        end
    end.

(** [const { owner, assets, shares } = event.args]; reading
    [assets.toString()] of an event that has no [assets] raises. *)
Definition ownerAssetsShares (a : Args) : option (string * Z * Z) :=
  match a with
  | DepositArgs _ owner assets shares => Some (owner, assets, shares)
  | WithdrawArgs _ _ owner assets shares => Some (owner, assets, shares)
  | _ => None
  end.

Definition freshEntry (owner : string) (blockTime : Z) : AddressData.t :=
  AddressData.mk owner 0 0 0 (newDate (blockTime * 1000)) (newDate (blockTime * 1000)) 0 0.

(** [if (!addressData.has(owner)) addressData.set(owner, ...)] followed
    by [addressData.get(owner)]. *)
Definition entryFor (addressData : gmap string AddressData.t) (owner : string)
    (blockTime : Z) : AddressData.t :=
  match addressData !! owner with
  | Some data => data
  | None => freshEntry owner blockTime
  end.

Definition applyDeposit (addressData : gmap string AddressData.t)
    (owner : string) (assets shares blockTime : Z) : gmap string AddressData.t :=
  let data := entryFor addressData owner blockTime in
  let eventDate := newDate (blockTime * 1000) in
  <[owner :=
      AddressData.mk
        (AddressData.address data)
        (AddressData.totalDeposits data + assets)
        (AddressData.totalWithdrawals data)
        (AddressData.totalShares data + shares)
        (if eventDate <? AddressData.firstDeposit data
         then eventDate else AddressData.firstDeposit data)
        (if AddressData.lastActivity data <? eventDate
         then eventDate else AddressData.lastActivity data)
        (AddressData.depositCount data + 1)
        (AddressData.withdrawalCount data)]> addressData.

Definition applyWithdrawal (addressData : gmap string AddressData.t)
    (owner : string) (assets shares blockTime : Z) : gmap string AddressData.t :=
  let data := entryFor addressData owner blockTime in
  let eventDate := newDate (blockTime * 1000) in
  <[owner :=
      AddressData.mk
        (AddressData.address data)
        (AddressData.totalDeposits data)
        (AddressData.totalWithdrawals data + assets)
        (AddressData.totalShares data - shares)
        (AddressData.firstDeposit data)
        (if AddressData.lastActivity data <? eventDate
         then eventDate else AddressData.lastActivity data)
        (AddressData.depositCount data)
        (AddressData.withdrawalCount data + 1)]> addressData.

(** [for (const event of depositEvents)] *)
Fixpoint processDeposits (depositEvents : list Event)
    (addressData : gmap string AddressData.t)
  : M (St * gmap Z Z) (gmap string AddressData.t) :=
  match depositEvents with
  | [] => ret addressData
  | event :: rest =>
      let* blockTime := getBlockTimestamp (blockNumber (log event)) in
      match ownerAssetsShares (args event) with
      | Some (owner, assets, shares) =>
          processDeposits rest (applyDeposit addressData owner assets shares blockTime)
      | None => throw "Cannot read properties of undefined (reading 'toString')"
      end
  end.

(** [for (const event of withdrawEvents)] *)
Fixpoint processWithdrawals (withdrawEvents : list Event)
    (addressData : gmap string AddressData.t)
  : M (St * gmap Z Z) (gmap string AddressData.t) :=
  match withdrawEvents with
  | [] => ret addressData
  | event :: rest =>
      let* blockTime := getBlockTimestamp (blockNumber (log event)) in
      match ownerAssetsShares (args event) with
      | Some (owner, assets, shares) =>
          processWithdrawals rest (applyWithdrawal addressData owner assets shares blockTime)
      | None => throw "Cannot read properties of undefined (reading 'toString')"
      end
  end.

(** [processRealEventData] up to the end of its second loop: the
    [addressData] map it has built by then. *)
Definition processRealEventData (events : Events.t)
  : M (St * gmap Z Z) (gmap string AddressData.t) :=
  if (length (Events.depositEvents events) =? 0)%nat
     && (length (Events.withdrawEvents events) =? 0)%nat
  then throw "No deposit or withdrawal events found for this vault. The vault may be new or inactive."
  else
    let* addressData := processDeposits (Events.depositEvents events) ∅ in
    processWithdrawals (Events.withdrawEvents events) addressData.

(** [data.totalDeposits - data.totalWithdrawals] *)
Definition netAssets (data : AddressData.t) : Z :=
  AddressData.totalDeposits data - AddressData.totalWithdrawals data.

End Ledger.

(** *** [discoverActiveBlocks], [scanInChunks] and [fetchVaultEvents] *)

Section Orchestrator.
Context {St : Type} (provider : Provider St) (iface : Interface).
(** [document.getElementById('vaultAddress').value.trim()] and
    [document.getElementById('blockRange').value] *)
Variable vaultAddressInput : string.
Variable blockRange : string.

(** The controller's [discoverActiveBlocks(vaultAddress)], which runs the
    controller's own copy of [VaultBlockDiscovery]. *)
Definition discoverActiveBlocks (fuel : nat) (vaultAddress : string) : M St (list Range.t) :=
  try_catch
    (let discovery := new_VaultBlockDiscovery provider vaultAddress in
     let* currentBlock := await (getBlockNumber provider) in
     let scanFromBlock := Z.max 0 (currentBlock - 500000) in
     let* activeRanges :=
       AppDiscovery.discoverActiveBlocks discovery fuel scanFromBlock (Some currentBlock) in
     if (0 <? length activeRanges)%nat then ret activeRanges else ret [])
    (fun error => ret []).

Definition eventCount (all : Scan.t) : nat :=
  (length (Scan.depositEvents all) + length (Scan.withdrawEvents all)
   + length (Scan.transferEvents all))%nat.

(** [if (xs.length > 0) all = all.concat(xs)] *)
Definition concatIfAny (all xs : list Event) : list Event :=
  if (0 <? length xs)%nat then all ++ xs else all.

(** [for (const range of rangesToScan)] of [scanInChunks]; a range is read
    through its [start] and [end] only. *)
Fixpoint scanInChunks_loop (fuel : nat) (vaultContract : Contract)
    (rangesToScan : list (Z * Z)) (all : Scan.t) : M St Scan.t :=
  match rangesToScan with
  | [] => ret all
  | (fromBlock, toBlock) :: rest =>
      let* all' :=
        try_catch
          (let* found :=
             scanByChunksWithTopics provider iface fuel vaultContract fromBlock toBlock in
           ret (Scan.mk (concatIfAny (Scan.depositEvents all) (Scan.depositEvents found))
                        (concatIfAny (Scan.withdrawEvents all) (Scan.withdrawEvents found))
                        (concatIfAny (Scan.transferEvents all) (Scan.transferEvents found))))
          (fun chunkError => ret all) in
      if (300 <? eventCount all')%nat then ret all'
      else scanInChunks_loop fuel vaultContract rest all'
  end.

Definition scanInChunks (fuel : nat) (vaultContract : Contract) (currentBlock : Z)
  : M St Events.t :=
  try_catch
    (let vaultAddress :=
       if truthy (target vaultContract) then target vaultContract
       else if truthy (contractAddress vaultContract) then contractAddress vaultContract
       else vaultAddressInput in
     let* discoveredRanges := discoverActiveBlocks fuel vaultAddress in
     let fallbackRange := (Z.max 0 (currentBlock - 5000), currentBlock) in
     let rangesToScan :=
       if (0 <? length discoveredRanges)%nat
       then map (fun r => (Range.start r, Range.end_ r)) discoveredRanges
       else [fallbackRange] in
     let* all := scanInChunks_loop fuel vaultContract rangesToScan (Scan.mk [] [] []) in
     if (0 <? length (Scan.depositEvents all))%nat || (0 <? length (Scan.withdrawEvents all))%nat
     then ret (Events.mk (Scan.depositEvents all) (Scan.withdrawEvents all))
     else if (0 <? length (Scan.transferEvents all))%nat
     then ret (processTransferEvents (Scan.transferEvents all) (contractAddress vaultContract))
     else ret (Events.mk [] []))
    (fun error => ret (Events.mk [] [])).

(** The first block [fetchVaultEvents] scans, for the chosen [blockRange]. *)
Definition fetchFromBlock (currentBlock : Z) : Z :=
  let maxBlockRange := 9000 in
  if String.eqb blockRange "30days" then
    let idealRange := 30 * 24 * 60 * 4 in
    Z.max 0 (currentBlock - Z.min idealRange maxBlockRange)
  else if String.eqb blockRange "90days" then
    let idealRange := 90 * 24 * 60 * 4 in
    Z.max 0 (currentBlock - Z.min idealRange maxBlockRange)
  else Z.max 0 (currentBlock - maxBlockRange).

Definition fetchVaultEvents (fuel : nat) (vaultContract : Contract) : M St Events.t :=
  try_catch
    (let* currentBlock := await (getBlockNumber provider) in
     let fromBlock := fetchFromBlock currentBlock in
     let* chunked :=
       scanByChunksWithTopics provider iface fuel vaultContract fromBlock currentBlock in
     let converted :=
       if (length (Scan.depositEvents chunked) =? 0)%nat
          && (length (Scan.withdrawEvents chunked) =? 0)%nat
          && (0 <? length (Scan.transferEvents chunked))%nat
       then processTransferEvents (Scan.transferEvents chunked) (contractAddress vaultContract)
       else Events.mk (Scan.depositEvents chunked) (Scan.withdrawEvents chunked) in
     if (length (Events.depositEvents converted) =? 0)%nat
        && (length (Events.withdrawEvents converted) =? 0)%nat
     then scanInChunks fuel vaultContract currentBlock
     else ret converted)
    (fun error => ret (Events.mk [] [])).

End Orchestrator.
End VaultTracker.

(** ** [graph-discovery.js] *)

Module GraphDiscovery.

Record BlockRange : Type := mkBlockRange { start : Z; end_ : Z }.

(** The [for] loop of [consolidateBlockRanges] over [blockNumbers[1..]]. *)
Fixpoint consolidateBlockRanges_loop (rest : list Z) (maxGap : Z)
    (ranges : list BlockRange) (rangeStart rangeEnd : Z) : list BlockRange :=
  match rest with
  | [] => ranges ++ [mkBlockRange rangeStart rangeEnd]
  | currentBlock :: rest' =>
      if currentBlock - rangeEnd <=? maxGap
      then consolidateBlockRanges_loop rest' maxGap ranges rangeStart currentBlock
      else consolidateBlockRanges_loop rest' maxGap
             (ranges ++ [mkBlockRange rangeStart rangeEnd]) currentBlock currentBlock
  end.

Definition consolidateBlockRanges (blockNumbers : list Z) (maxGap : Z) : list BlockRange :=
  match blockNumbers with
  | [] => []
  | first :: rest => consolidateBlockRanges_loop rest maxGap [] first first
  end.

(** [maxGap = 100] when the argument is left out. *)
Definition consolidateBlockRanges_default (blockNumbers : list Z) : list BlockRange :=
  consolidateBlockRanges blockNumbers 100.

(** A record of the subgraph; of its fields only [blockNumber] is read. *)
Record GraphEvent : Type := mkGraphEvent { eventId : string; eventBlockNumber : string }.

(** [result.data]: each of the three lists may be missing. *)
Record GraphEvents : Type := mkGraphEvents {
  deposits : option (list GraphEvent);
  withdraws : option (list GraphEvent);
  transfers : option (list GraphEvent)
}.

(** [blockNumbers.add(n)] on a [Set], kept as the list of its members in
    insertion order. *)
Definition setAdd (blockNumbers : list Z) (n : Z) : list Z :=
  if decide (n ∈ blockNumbers) then blockNumbers else blockNumbers ++ [n].

Section Extract.
(** [parseInt] on the [blockNumber] fields, which are numerals. *)
Variable parseInt : string -> Z.

(** [if (events[eventType]) events[eventType].forEach(...)] *)
Definition addBlockNumbers (eventsOfType : option (list GraphEvent)) (blockNumbers : list Z)
  : list Z :=
  match eventsOfType with
  | Some events =>
      fold_left (fun set event => setAdd set (parseInt (eventBlockNumber event)))
                events blockNumbers
  | None => blockNumbers
  end.

(** [Array.from(blockNumbers).sort((a, b) => a - b)]: the ascending
    arrangement of the members. *)
Definition extractBlockNumbers (events : GraphEvents) : list Z :=
  merge_sort Z.le
    (addBlockNumbers (transfers events)
       (addBlockNumbers (withdraws events)
          (addBlockNumbers (deposits events) []))).

Record EulerActivity : Type := mkEulerActivity {
  eulerEvents : GraphEvents;
  eulerBlockNumbers : list Z;
  eulerRanges : list BlockRange
}.

(** [discoverEulerVaultActivity], over the answer of the subgraph to
    [discoverVaultEvents()]; [None] is [null]. *)
Definition discoverEulerVaultActivity {St} (discoverVaultEvents : St -> result GraphEvents * St)
  : M St (option EulerActivity) :=
  try_catch
    (let* events := await discoverVaultEvents in
     let blockNumbers := extractBlockNumbers events in
     let ranges := consolidateBlockRanges_default blockNumbers in
     ret (Some (mkEulerActivity events blockNumbers ranges)))
    (fun error => ret None).

End Extract.
End GraphDiscovery.

(** ** The table pager of [app.js] *)

Module Pager.

(** [array.slice(start, end)] on integers: a negative index counts from the
    end, and both are clamped to the array. *)
Definition slice {A} (array : list A) (start end_ : Z) : list A :=
  let len := Z.of_nat (length array) in
  let k := if start <? 0 then Z.max (len + start) 0 else Z.min start len in
  let final := if end_ <? 0 then Z.max (len + end_) 0 else Z.min end_ len in
  take (Z.to_nat (final - k)) (drop (Z.to_nat k) array).

(** The fields of the controller that the pager reads and writes. *)
Record t (A : Type) : Type := mk {
  filteredData : list A;
  currentPage : Z;
  pageSize : Z
}.
Arguments mk {A} _ _ _.
Arguments filteredData {A} _.
Arguments currentPage {A} _.
Arguments pageSize {A} _.

Section Methods.
Context {A : Type} (this : t A).

(** [Math.ceil(this.filteredData.length / this.pageSize)], for the page
    sizes of the selector, which are positive. *)
Definition totalPages : Z :=
  (Z.of_nat (length (filteredData this)) + pageSize this - 1) / pageSize this.

(** The rows [renderTable] shows: [filteredData.slice(startIndex, endIndex)]. *)
Definition pageData : list A :=
  let startIndex := (currentPage this - 1) * pageSize this in
  let endIndex := Z.min (startIndex + pageSize this) (Z.of_nat (length (filteredData this))) in
  slice (filteredData this) startIndex endIndex.

(** The numbers of the page buttons [updatePagination] creates. *)
Definition pageNumbers : list Z :=
  let maxVisiblePages := 5 in
  let startPage := Z.max 1 (currentPage this - maxVisiblePages / 2) in
  let endPage := Z.min totalPages (startPage + maxVisiblePages - 1) in
  let startPage :=
    if endPage - startPage + 1 <? maxVisiblePages
    then Z.max 1 (endPage - maxVisiblePages + 1)
    else startPage in
  blocksFromTo startPage endPage.

(** [prevPage.disabled] and [nextPage.disabled] *)
Definition prevDisabled : bool := currentPage this =? 1.
Definition nextDisabled : bool := currentPage this =? totalPages.

Definition goToPage (page : Z) : t A := mk (filteredData this) page (pageSize this).

Definition changePage (delta : Z) : t A :=
  let newPage := currentPage this + delta in
  if (1 <=? newPage) && (newPage <=? totalPages) then goToPage newPage else this.

End Methods.
End Pager.

(** ** Vocabulary of the statements *)

(** [refines m m']: [m'] agrees with [m] wherever [m] did not run out of
    fuel. *)
Definition refines {St A} (m m' : M St A) : Prop :=
  forall s, fst (m s) <> OutOfFuel -> m' s = m s.

(** The discovery object over the tracing provider. *)
Definition traceDiscovery {St} (this : VaultBlockDiscovery St)
  : VaultBlockDiscovery (St * list Filter) :=
  {| provider := traced (provider this);
     vaultAddress := vaultAddress this;
     maxBlockRange := maxBlockRange this;
     eventTopics := eventTopics this |}.

(** Scenario A: the chain head is block 1,000,000 and the watched events sit
    in blocks 800,000 to 800,050 only. *)
Definition scenarioA : VaultBlockDiscovery unit :=
  new_VaultBlockDiscovery
    (chainProvider (fun b => (800000 <=? b) && (b <=? 800050)) None 1000000)
    "0x527295f09ff7c411b213b29a0de8c816a669b3fe".

(** A chain of 100,000 blocks whose only watched event is in block 60,000. *)
Definition loneEvent : VaultBlockDiscovery unit :=
  new_VaultBlockDiscovery
    (chainProvider (fun b => b =? 60000) None 100000)
    "0x527295f09ff7c411b213b29a0de8c816a669b3fe".

(** A provider that answers every query with the range error. *)
Definition alwaysTooLarge : VaultBlockDiscovery unit :=
  new_VaultBlockDiscovery
    (rejectingProvider "query exceeds max block range of 10000")
    "0x527295f09ff7c411b213b29a0de8c816a669b3fe".

(** A provider that is unreachable. *)
Definition unreachable : VaultBlockDiscovery unit :=
  new_VaultBlockDiscovery
    (rejectingProvider "network error: failed to fetch")
    "0x527295f09ff7c411b213b29a0de8c816a669b3fe".

(** The logs of a query whose failure is answered by [.catch(() => [])]. *)
Definition orEmpty (r : result (list RawLog)) : list RawLog :=
  match r with
  | Ok logs => logs
  | Err _ => []
  end.

(** Field-wise concatenation of two scan results. *)
Definition scanAppend (a b : Scan.t) : Scan.t :=
  Scan.mk (Scan.depositEvents a ++ Scan.depositEvents b)
          (Scan.withdrawEvents a ++ Scan.withdrawEvents b)
          (Scan.transferEvents a ++ Scan.transferEvents b).

(** A chain that refuses spans above 1,500 blocks, and an interface that
    decodes every log as a [Transfer] of one share. *)
Definition strictChain : Provider unit :=
  chainProvider (fun b => (b =? 5100) || (b =? 6500)) (Some 1500) 10000.

Definition transfersOnly : Interface :=
  {| depositTopic := "0xdcbc1c05240f31ff3ad067ef1ee35ce4997762752e3a095284754544f4c709d7";
     withdrawTopic := "0xfbde797d201c681b91056529119e0b02407c7bb96a4a2c75c01fc9667232c8db";
     transferTopic := "0xddf252ad1be2c89b69c2b068fc378daa952ba7f163c4a11628f55a4df523b3ef";
     vaultUpdateTopic := None;
     parseLog := fun _ _ =>
       Some (mkParsedLog "Transfer"
               (TransferArgs "0x0000000000000000000000000000000000000000"
                             "0x00000000000000000000000000000000000000aa" 1)) |}.

Definition someVault : Contract :=
  mkContract "0x527295f09ff7c411b213b29a0de8c816a669b3fe" "".

(** Field-wise concatenation of two conversion results. *)
Definition eventsAppend (a b : Events.t) : Events.t :=
  Events.mk (Events.depositEvents a ++ Events.depositEvents b)
            (Events.withdrawEvents a ++ Events.withdrawEvents b).

(** A [Transfer] between two addresses neither of which is the zero
    address. *)
Definition isUserTransfer (event : Event) : Prop :=
  exists from to value,
    args event = TransferArgs from to value
    /\ from <> VaultTracker.zeroAddress /\ to <> VaultTracker.zeroAddress.

(** A chain whose block [n] is stamped [12 * n] seconds, and a clock. *)
Definition twelveSeconds (blockNumber : Z) (s : unit) : result (option Z) * unit :=
  (Ok (Some (12 * blockNumber)), s).

Definition stoppedClock (s : unit) : Z := 1700000000000.

Definition aliceAddress : string := "0x00000000000000000000000000000000000a11ce".
Definition bobAddress : string := "0x0000000000000000000000000000000000000b0b".

(** The controller's state before, between and after the two timestamp
    look-ups of blocks 100 and 250. *)
Definition cacheEmpty : unit * gmap Z Z := (tt, ∅).
Definition cache100 : unit * gmap Z Z := (tt, <[100 := 1200]> ∅).
Definition cache100_250 : unit * gmap Z Z := (tt, <[250 := 3000]> (<[100 := 1200]> ∅)).

Definition logAt (n : Z) : RawLog :=
  mkRawLog n "" "0x527295f09ff7c411b213b29a0de8c816a669b3fe" [] "".

(** Clusters of block numbers: [closeBy] relates a block number to the next
    one of its cluster, [farApart] a cluster to the next cluster, and
    [intervalOf] is the interval a cluster spans. *)
Definition closeBy (maxGap : Z) (a b : Z) : Prop := b - a <= maxGap.

Definition farApart (maxGap : Z) (g h : list Z) : Prop :=
  maxGap < List.hd 0 h - List.last g 0.

Definition intervalOf (cluster : list Z) : GraphDiscovery.BlockRange :=
  GraphDiscovery.mkBlockRange (List.hd 0 cluster) (List.last cluster 0).

(** Chunks of a subdivision: [chunkWithin size lo hi r] says that [r] is a
    range of at most [size] blocks inside [lo, hi] whose [blocks] field is
    its length; [before r1 r2] that [r1] ends before [r2] starts. *)
Definition chunkWithin (size lo hi : Z) (r : Range.t) : Prop :=
  lo <= Range.start r
  /\ Range.start r <= Range.end_ r
  /\ Range.end_ r <= hi
  /\ Range.end_ r - Range.start r + 1 <= size
  /\ Range.blocks r = Range.end_ r - Range.start r + 1.

Definition before (r1 r2 : Range.t) : Prop := Range.end_ r1 < Range.start r2.

(** The discovery object of a chain. *)
Definition chainDiscovery (active : Z -> bool) (limit : option Z) (head : Z)
    (vaultAddress : string) : VaultBlockDiscovery unit :=
  new_VaultBlockDiscovery (chainProvider active limit head) vaultAddress.

(** A provider limit, when there is one, admits at least single blocks. *)
Definition admitsSingleBlocks (limit : option Z) : Prop :=
  match limit with
  | Some w => 0 <= w
  | None => True
  end.

(** A provider limit, when there is one, admits queries over two blocks. *)
Definition admitsPairs (limit : option Z) : Prop :=
  match limit with
  | Some w => 1 <= w
  | None => True
  end.

(** A provider that never refuses a log query. *)
Definition reliable {St} (p : Provider St) : Prop :=
  forall f s, exists logs s', getLogs p f s = (Ok logs, s').

(** [converges m s a s']: from state [s], with enough fuel, [m] resolves to
    [a] and leaves the state [s']. *)
Definition converges {St A} (m : nat -> M St A) (s : St) (a : A) (s' : St) : Prop :=
  exists n, forall fuel, (n <= fuel)%nat -> m fuel s = (Done a, s').

(** [neverThrows m]: [m] does not reject, from any state. *)
Definition neverThrows {St A} (m : M St A) : Prop :=
  forall s e s', m s <> (Throw e, s').

(** [queryWithin contract lo hi width q]: the query [q] is for [contract],
    lies inside [lo, hi] and spans fewer than [width] blocks. *)
Definition queryWithin (contract : string) (lo hi width : Z) (q : Filter) : Prop :=
  address q = contract
  /\ lo <= fromBlock q
  /\ fromBlock q <= toBlock q
  /\ toBlock q <= hi
  /\ toBlock q - fromBlock q < width.

(** [vaultContract.target || vaultContract.address] *)
Definition contractTarget (vaultContract : Contract) : string :=
  if truthy (target vaultContract) then target vaultContract
  else contractAddress vaultContract.

(** A provider limit, when there is one, admits the halves of a chunk. *)
Definition admitsHalfChunks (limit : option Z) : Prop :=
  match limit with
  | Some w => 999 <= w
  | None => True
  end.

(** What an entry of the ledger always satisfies under its key [owner]. *)
Definition ledgerEntryOk (owner : string) (data : AddressData.t) : Prop :=
  AddressData.address data = owner
  /\ AddressData.firstDeposit data <= AddressData.lastActivity data
  /\ 0 <= AddressData.depositCount data
  /\ 0 <= AddressData.withdrawalCount data
  /\ 1 <= AddressData.depositCount data + AddressData.withdrawalCount data.

(** The events of [owner] in a list, and what they add up to. *)
Definition ownedBy (owner : string) (event : Event) : bool :=
  match VaultTracker.ownerAssetsShares (args event) with
  | Some (o, _, _) => String.eqb o owner
  | None => false
  end.

Definition assetsOf (event : Event) : Z :=
  match VaultTracker.ownerAssetsShares (args event) with
  | Some (_, assets, _) => assets
  | None => 0
  end.

Definition sharesOf (event : Event) : Z :=
  match VaultTracker.ownerAssetsShares (args event) with
  | Some (_, _, shares) => shares
  | None => 0
  end.

Definition sumZ (l : list Z) : Z := fold_right Z.add 0 l.

Definition assetsFor (owner : string) (events : list Event) : Z :=
  sumZ (map assetsOf (List.filter (ownedBy owner) events)).

Definition sharesFor (owner : string) (events : list Event) : Z :=
  sumZ (map sharesOf (List.filter (ownedBy owner) events)).

Definition countFor (owner : string) (events : list Event) : Z :=
  Z.of_nat (length (List.filter (ownedBy owner) events)).

(** A field of the entry of [owner], 0 when there is no entry. *)
Definition field (f : AddressData.t -> Z) (addressData : gmap string AddressData.t)
    (owner : string) : Z :=
  match addressData !! owner with
  | Some data => f data
  | None => 0
  end.

(** The ledger of the run of Scenario D on the twelve-second chain. *)
Definition aliceLedger : gmap string AddressData.t :=
  {[ aliceAddress :=
       AddressData.mk aliceAddress 100 30 67 (newDate 1200000) (newDate 3000000) 1 1 ]}.

Definition aliceEvents : Events.t :=
  Events.mk [mkEvent (logAt 100) (DepositArgs aliceAddress aliceAddress 100 95)]
            [mkEvent (logAt 250) (WithdrawArgs aliceAddress aliceAddress aliceAddress 30 28)].

(** The records of a subgraph answer, over the lists that are present, and
    the block a record is filed under. *)
Definition recordsOf (events : GraphDiscovery.GraphEvents) : list GraphDiscovery.GraphEvent :=
  default [] (GraphDiscovery.deposits events)
  ++ default [] (GraphDiscovery.withdraws events)
  ++ default [] (GraphDiscovery.transfers events).

Definition blockOf (parseInt : string -> Z) (event : GraphDiscovery.GraphEvent) : Z :=
  parseInt (GraphDiscovery.eventBlockNumber event).

(** [apart maxGap r1 r2]: from the end of [r1] to the start of [r2] there
    are more than [maxGap] blocks. *)
Definition apart (maxGap : Z) (r1 r2 : GraphDiscovery.BlockRange) : Prop :=
  maxGap < GraphDiscovery.start r2 - GraphDiscovery.end_ r1.

(** The events of two batches of ranges put together, and no events. *)
Definition allEventsAppend (a b : AllEvents.t) : AllEvents.t :=
  AllEvents.mk (AllEvents.deposits a ++ AllEvents.deposits b)
               (AllEvents.withdraws a ++ AllEvents.withdraws b)
               (AllEvents.transfers a ++ AllEvents.transfers b).

Definition noEvents : AllEvents.t := AllEvents.mk [] [] [].

(** The query of [getEventsInRange] for one topic over a range. *)
Definition rangeFilter {St} (this : VaultBlockDiscovery St) (range : Range.t)
    (topic : string) : Filter :=
  mkFilter (vaultAddress this) (Range.start range) (Range.end_ range) [[topic]].

(** A range of a chain that holds an active block. *)
Definition holdsActivity (active : Z -> bool) (r : Range.t) : Prop :=
  exists b, Range.start r <= b <= Range.end_ r /\ active b = true.

(** Shares minted to, and burned from, [owner] by a list of [Transfer]
    events. *)
Definition mintTo (owner : string) (event : Event) : bool :=
  match args event with
  | TransferArgs from to _ =>
      String.eqb from VaultTracker.zeroAddress
      && negb (String.eqb to VaultTracker.zeroAddress)
      && String.eqb to owner
  | _ => false
  end.

Definition burnFrom (owner : string) (event : Event) : bool :=
  match args event with
  | TransferArgs from to _ =>
      negb (String.eqb from VaultTracker.zeroAddress)
      && String.eqb to VaultTracker.zeroAddress
      && String.eqb from owner
  | _ => false
  end.

Definition transferValue (event : Event) : Z :=
  match args event with
  | TransferArgs _ _ value => value
  | _ => 0
  end.

Definition mintedTo (owner : string) (transferEvents : list Event) : Z :=
  sumZ (map transferValue (List.filter (mintTo owner) transferEvents)).

Definition burnedFrom (owner : string) (transferEvents : list Event) : Z :=
  sumZ (map transferValue (List.filter (burnFrom owner) transferEvents)).

(** Scenario C: a mint to Alice, a transfer from Alice to Bob, a burn by
    Bob; and the ledger it gives on the twelve-second chain. *)
Definition scenarioCTransfers : list Event :=
  [mkEvent (logAt 10) (TransferArgs VaultTracker.zeroAddress aliceAddress 100);
   mkEvent (logAt 11) (TransferArgs aliceAddress bobAddress 60);
   mkEvent (logAt 12) (TransferArgs bobAddress VaultTracker.zeroAddress 60)].

Definition scenarioCLedger : gmap string AddressData.t :=
  {[ aliceAddress :=
       AddressData.mk aliceAddress 100 0 100 (newDate 120000) (newDate 120000) 1 0;
     bobAddress :=
       AddressData.mk bobAddress 0 60 (-60) (newDate 144000) (newDate 144000) 0 1 ]}.

Definition cache10_12 : unit * gmap Z Z := (tt, <[12 := 144]> (<[10 := 120]> ∅)).

(** [provider.getBlock] and [Date.now] over a state that also records the
    blocks asked for, and the record left by a run. *)
Definition tracedBlocks {St} (getBlock : Z -> St -> result (option Z) * St)
  : Z -> St * list Z -> result (option Z) * (St * list Z) :=
  fun blockNumber '(s, asked) =>
    let '(r, s') := getBlock blockNumber s in (r, (s', asked ++ [blockNumber])).

Definition tracedClock {St} (Date_now : St -> Z) : St * list Z -> Z :=
  fun '(s, _) => Date_now s.

Definition askedBlocks {St A} (run : outcome A * ((St * list Z) * gmap Z Z)) : list Z :=
  snd (fst (snd run)).

(** The blocks of the events of a ledger run. *)
Definition eventBlocks (events : Events.t) : list Z :=
  map (fun event => blockNumber (log event))
      (Events.depositEvents events ++ Events.withdrawEvents events).

(** During a ledger run over [tracedBlocks]: every block asked for so far
    is among [allowed], was asked for once, and is in the cache
    ([askedOnce]); after a failed call the cache may lag behind
    ([askedAtMostOnce]). *)
Definition askedOnce {St} (allowed : list Z) (st : (St * list Z) * gmap Z Z) : Prop :=
  NoDup (snd (fst st))
  /\ (forall b, b ∈ snd (fst st) -> In b allowed)
  /\ (forall b, b ∈ snd (fst st) -> is_Some (snd st !! b)).

Definition askedAtMostOnce {St} (allowed : list Z) (st : (St * list Z) * gmap Z Z) : Prop :=
  NoDup (snd (fst st)) /\ (forall b, b ∈ snd (fst st) -> In b allowed).

(** All the logs of a set of events. *)
Definition allLogs (events : AllEvents.t) : list RawLog :=
  AllEvents.deposits events ++ AllEvents.withdraws events ++ AllEvents.transfers events.

(** The pager shows one of its pages. *)
Definition onAPage {A} (pager : Pager.t A) : Prop :=
  1 <= Pager.currentPage pager <= Pager.totalPages pager.

(** A pager over a table of seven rows, three to a page, on page 2. *)
Definition sevenNumbers : list Z := [1; 2; 3; 4; 5; 6; 7].

Definition sevenRows : Pager.t Z := Pager.mk sevenNumbers 2 3.

(** The decoded events of a list of logs, as the specification has them:
    [decodedAs iface names logs] are the logs that the ABI decodes under one
    of [names], each with its arguments and in the order of [logs]; the
    scanner files [Deposit] and [DepositMade] as deposits, [Withdraw] and
    [WithdrawalMade] as withdrawals and [Transfer] as transfers, and keeps
    nothing else. *)
Definition decodedAs (iface : Interface) (names : list string) (logs : list RawLog)
  : list Event :=
  flat_map
    (fun log =>
       match parseLog iface (logTopics log) (data log) with
       | Some parsed =>
           if existsb (String.eqb (name parsed)) names
           then [mkEvent log (parsedArgs parsed)]
           else []
       | None => []
       end)
    logs.

Definition decodedEvents (iface : Interface) (logs : list RawLog) : Scan.t :=
  Scan.mk (decodedAs iface ["Deposit"; "DepositMade"] logs)
          (decodedAs iface ["Withdraw"; "WithdrawalMade"] logs)
          (decodedAs iface ["Transfer"] logs).

(** Five logs of the vault: a deposit, a vault update, a log of an unknown
    event, a withdrawal and a transfer; a chain that carries them and
    refuses spans above 1,500 blocks; and an interface that decodes a log
    by its first topic. *)
Definition vaultUpdateHash : string := "0x0000000000000000000000000000000000000000000000000000000000005a17".

Definition depositLog : RawLog :=
  mkRawLog 5100 "0xd1" (target someVault) [depositTopic transfersOnly] "".
Definition vaultUpdateLog : RawLog :=
  mkRawLog 5200 "0xf2" (target someVault) [vaultUpdateHash] "".
Definition unknownLog : RawLog :=
  mkRawLog 5300 "0xe3" (target someVault) ["0x00"] "".
Definition withdrawLog : RawLog :=
  mkRawLog 6100 "0xc4" (target someVault) [withdrawTopic transfersOnly] "".
Definition transferLog : RawLog :=
  mkRawLog 6500 "0xb5" (target someVault) [transferTopic transfersOnly] "".

Definition mixedLogs : list RawLog :=
  [depositLog; vaultUpdateLog; unknownLog; withdrawLog; transferLog].

Definition mixedChain : Provider unit :=
  {| getBlockNumber := fun s => (Ok 10000, s);
     getLogs := fun f s =>
       if 1500 <? toBlock f - fromBlock f
       then (Err "query exceeds max block range", s)
       else (Ok (List.filter
                   (fun log => (fromBlock f <=? blockNumber log)
                               && (blockNumber log <=? toBlock f))
                   mixedLogs), s) |}.

Definition byTopic : Interface :=
  {| depositTopic := depositTopic transfersOnly;
     withdrawTopic := withdrawTopic transfersOnly;
     transferTopic := transferTopic transfersOnly;
     vaultUpdateTopic := Some vaultUpdateHash;
     parseLog := fun topics _ =>
       match topics with
       | topic :: _ =>
           if String.eqb topic (depositTopic transfersOnly) then
             Some (mkParsedLog "Deposit" (DepositArgs aliceAddress aliceAddress 100 95))
           else if String.eqb topic (withdrawTopic transfersOnly) then
             Some (mkParsedLog "Withdraw"
                     (WithdrawArgs aliceAddress aliceAddress aliceAddress 30 28))
           else if String.eqb topic (transferTopic transfersOnly) then
             Some (mkParsedLog "Transfer" (TransferArgs aliceAddress bobAddress 5))
           else if String.eqb topic vaultUpdateHash then
             Some (mkParsedLog "VaultUpdate" (VaultUpdateArgs 1000 950))
           else None
       | [] => None
       end |}.

(** The share every log decodes to under [transfersOnly]. *)
Definition oneShare : Args :=
  TransferArgs "0x0000000000000000000000000000000000000000"
               "0x00000000000000000000000000000000000000aa" 1.

(** A chain with watched events in the blocks 12345 and 15000 only. *)
Definition twoBursts (b : Z) : bool := (b =? 12345) || (b =? 15000).

(** The log the chain fixtures report for block [n] of the vault ["0xVAULT"]. *)
Definition chainLogAt (n : Z) : RawLog := mkRawLog n "" "0xvault" [] "".

(* ================================================================= *)
(** * Part II: properties *)
(* ================================================================= *)

(** ** Fuel

    Every method is monotone in its fuel: a result obtained with some fuel
    is the result for any larger fuel. *)

Lemma refines_refl {St A} (m : M St A) : refines m m.
Proof. intros s _. reflexivity. Qed.

Lemma refines_trans {St A} (m1 m2 m3 : M St A) :
  refines m1 m2 -> refines m2 m3 -> refines m1 m3.
Proof.
  intros H12 H23 s Hs.
  rewrite <- (H12 s Hs). apply H23. rewrite (H12 s Hs). exact Hs.
Qed.

Lemma refines_timeout {St A} (m : M St A) : refines timeout m.
Proof. intros s Hs. exfalso. apply Hs. reflexivity. Qed.

Lemma refines_bind {St A B} (m m' : M St A) (k k' : A -> M St B) :
  refines m m' -> (forall a, refines (k a) (k' a)) -> refines (bind m k) (bind m' k').
Proof.
  intros Hm Hk s Hs. unfold bind in *.
  destruct (m s) as [[a| e |] s1] eqn:E; simpl in Hs.
  - rewrite (Hm s) by (rewrite E; discriminate). rewrite E.
    apply Hk. exact Hs.
  - rewrite (Hm s) by (rewrite E; discriminate). rewrite E. reflexivity.
  - exfalso. apply Hs. reflexivity.
Qed.

Lemma refines_try_catch {St A} (body : M St A) (h h' : string -> M St A) :
  (forall e, refines (h e) (h' e)) -> refines (try_catch body h) (try_catch body h').
Proof.
  intros Hh s Hs. unfold try_catch in *.
  destruct (body s) as [[a| e |] s1]; try reflexivity.
  apply Hh. exact Hs.
Qed.

Lemma refines_le {St A} (f : nat -> M St A) :
  (forall n, refines (f n) (f (S n))) ->
  forall n m, (n <= m)%nat -> refines (f n) (f m).
Proof.
  intros Hstep n m Hle. induction Hle as [| m Hle IH].
  - apply refines_refl.
  - eapply refines_trans; [exact IH | apply Hstep].
Qed.

(** A result computed with [n] units of fuel stands for every [n + k]. *)
Lemma refines_run {St A} (f : nat -> M St A) (n : nat) (s s' : St) (a : outcome A) :
  (forall n, refines (f n) (f (S n))) ->
  f n s = (a, s') -> a <> OutOfFuel ->
  forall m, (n <= m)%nat -> f m s = (a, s').
Proof.
  intros Hstep Hrun Ha m Hle.
  rewrite <- Hrun. apply (refines_le f Hstep n m Hle).
  rewrite Hrun. exact Ha.
Qed.

Module BlockDiscoveryFacts.
Import BlockDiscovery.
Section Facts.
Context {St : Type} (this : VaultBlockDiscovery St).

Lemma checkBlockRangeForActivity_step fuel fromBlock toBlock :
  refines (checkBlockRangeForActivity this fuel fromBlock toBlock)
          (checkBlockRangeForActivity this (S fuel) fromBlock toBlock).
Proof.
  revert fromBlock toBlock.
  induction fuel as [| fuel IH]; intros fromBlock toBlock.
  - apply refines_timeout.
  - change (checkBlockRangeForActivity this (S (S fuel)) fromBlock toBlock)
      with (try_catch
        (let* logs := await (getLogs (provider this) (activityFilter this fromBlock toBlock)) in
         ret (0 <? Z.of_nat (length logs)))
        (fun error =>
           if includes error "query exceeds" then
             let midPoint := (fromBlock + toBlock) / 2 in
             let* firstHalf := checkBlockRangeForActivity this (S fuel) fromBlock midPoint in
             let* secondHalf :=
               checkBlockRangeForActivity this (S fuel) (midPoint + 1) toBlock in
             ret (firstHalf || secondHalf)
           else throw error)).
    cbn [checkBlockRangeForActivity].
    apply refines_try_catch. intros e.
    destruct (includes e "query exceeds"); [| apply refines_refl].
    apply refines_bind; [apply IH |]. intros a.
    apply refines_bind; [apply IH |]. intros b. apply refines_refl.
Qed.

Lemma checkBlockRangeForActivity_mono fuel fuel' fromBlock toBlock :
  (fuel <= fuel')%nat ->
  refines (checkBlockRangeForActivity this fuel fromBlock toBlock)
          (checkBlockRangeForActivity this fuel' fromBlock toBlock).
Proof.
  apply (refines_le (fun n => checkBlockRangeForActivity this n fromBlock toBlock)).
  intros n. apply checkBlockRangeForActivity_step.
Qed.

Lemma binarySearchFirstActivity_loop_step fuel left right result :
  refines (binarySearchFirstActivity_loop this fuel left right result)
          (binarySearchFirstActivity_loop this (S fuel) left right result).
Proof.
  revert left right result.
  induction fuel as [| fuel IH]; intros left right result.
  - apply refines_timeout.
  - change (binarySearchFirstActivity_loop this (S (S fuel)) left right result)
      with (if left <=? right then
        let mid := (left + right) / 2 in
        let* hasActivity :=
          checkBlockRangeForActivity this (S fuel) mid (Z.min (mid + maxBlockRange this) right) in
        if hasActivity
        then binarySearchFirstActivity_loop this (S fuel) left (mid - 1) mid
        else binarySearchFirstActivity_loop this (S fuel) (mid + maxBlockRange this + 1) right result
      else ret result).
    cbn [binarySearchFirstActivity_loop].
    destruct (left <=? right); [| apply refines_refl].
    apply refines_bind; [apply checkBlockRangeForActivity_step |].
    intros [|]; apply IH.
Qed.

Lemma binarySearchLastActivity_loop_step fuel left right result :
  refines (binarySearchLastActivity_loop this fuel left right result)
          (binarySearchLastActivity_loop this (S fuel) left right result).
Proof.
  revert left right result.
  induction fuel as [| fuel IH]; intros left right result.
  - apply refines_timeout.
  - change (binarySearchLastActivity_loop this (S (S fuel)) left right result)
      with (if left <=? right then
        let mid := (left + right) / 2 in
        let* hasActivity :=
          checkBlockRangeForActivity this (S fuel) (Z.max (mid - maxBlockRange this) left) mid in
        if hasActivity
        then binarySearchLastActivity_loop this (S fuel) (mid + 1) right mid
        else binarySearchLastActivity_loop this (S fuel) left (mid - maxBlockRange this - 1) result
      else ret result).
    cbn [binarySearchLastActivity_loop].
    destruct (left <=? right); [| apply refines_refl].
    apply refines_bind; [apply checkBlockRangeForActivity_step |].
    intros [|]; apply IH.
Qed.

Lemma findActivityBoundaries_step fuel fromBlock toBlock :
  refines (findActivityBoundaries this fuel fromBlock toBlock)
          (findActivityBoundaries this (S fuel) fromBlock toBlock).
Proof.
  unfold findActivityBoundaries, binarySearchFirstActivity, binarySearchLastActivity.
  apply refines_bind; [apply binarySearchFirstActivity_loop_step |].
  intros firstActive. destruct (firstActive =? -1); [apply refines_refl |].
  apply refines_bind; [apply binarySearchLastActivity_loop_step |].
  intros lastActive. apply refines_refl.
Qed.

Lemma subdivideActiveRegion_loop_step fuel chunkSize i endBlock ranges :
  refines (subdivideActiveRegion_loop this fuel chunkSize i endBlock ranges)
          (subdivideActiveRegion_loop this (S fuel) chunkSize i endBlock ranges).
Proof.
  revert i ranges.
  induction fuel as [| fuel IH]; intros i ranges.
  - apply refines_timeout.
  - change (subdivideActiveRegion_loop this (S (S fuel)) chunkSize i endBlock ranges)
      with (if i <=? endBlock then
        let rangeEnd := Z.min (i + chunkSize - 1) endBlock in
        let* hasActivity := checkBlockRangeForActivity this (S fuel) i rangeEnd in
        subdivideActiveRegion_loop this (S fuel) chunkSize (i + chunkSize) endBlock
          (if hasActivity
           then ranges ++ [Range.mk i rangeEnd (rangeEnd - i + 1)]
           else ranges)
      else ret ranges).
    cbn [subdivideActiveRegion_loop].
    destruct (i <=? endBlock); [| apply refines_refl].
    apply refines_bind; [apply checkBlockRangeForActivity_step |].
    intros hasActivity. apply IH.
Qed.

Lemma subdivideActiveRegion_step fuel startBlock endBlock :
  refines (subdivideActiveRegion this fuel startBlock endBlock)
          (subdivideActiveRegion this (S fuel) startBlock endBlock).
Proof. apply subdivideActiveRegion_loop_step. Qed.

Lemma subdivideBoundaries_step fuel boundaries activeRanges :
  refines (subdivideBoundaries this fuel boundaries activeRanges)
          (subdivideBoundaries this (S fuel) boundaries activeRanges).
Proof.
  revert activeRanges.
  induction boundaries as [| boundary rest IH]; intros activeRanges.
  - apply refines_refl.
  - cbn [subdivideBoundaries].
    apply refines_bind; [apply subdivideActiveRegion_step |].
    intros detailedRanges. apply IH.
Qed.

Lemma discoverActiveBlocks_step fuel fromBlock toBlock :
  refines (discoverActiveBlocks this fuel fromBlock toBlock)
          (discoverActiveBlocks this (S fuel) fromBlock toBlock).
Proof.
  unfold discoverActiveBlocks.
  apply refines_bind; [apply refines_refl |]. intros latest.
  intros s Hs. unfold try_catch in *.
  assert (Hb : refines
    (let* boundaries := findActivityBoundaries this fuel fromBlock latest in
     if (length boundaries =? 0)%nat then ret [] else subdivideBoundaries this fuel boundaries [])
    (let* boundaries := findActivityBoundaries this (S fuel) fromBlock latest in
     if (length boundaries =? 0)%nat then ret []
     else subdivideBoundaries this (S fuel) boundaries [])).
  { apply refines_bind; [apply findActivityBoundaries_step |].
    intros boundaries. destruct (length boundaries =? 0)%nat;
      [apply refines_refl | apply subdivideBoundaries_step]. }
  specialize (Hb s). cbv beta in Hb.
  destruct ((let* boundaries := findActivityBoundaries this fuel fromBlock latest in
     if (length boundaries =? 0)%nat then ret [] else subdivideBoundaries this fuel boundaries []) s)
    as [[a | e |] s1] eqn:E.
  - rewrite Hb by discriminate. reflexivity.
  - rewrite Hb by discriminate. reflexivity.
  - exfalso. apply Hs. reflexivity.
Qed.

End Facts.
End BlockDiscoveryFacts.

(** ** The boundary search on concrete chains *)

Module BoundarySearch.
Import BlockDiscovery BlockDiscoveryFacts.

(** C1 (Scenario A).  With events in blocks 800,000 to 800,050 only and the
    head at 1,000,000, [findActivityBoundaries] over [0, 1000000] resolves to
    the empty list for every sufficient fuel, and so does
    [discoverActiveBlocks]: the search never probes a window that meets the
    active blocks, although the provider does report them when asked.  The
    subdivision of the pair [800000, 800050], had it been found, is the single
    chunk [800000, 800050] of 51 blocks. *)
Theorem scenarioA_boundaries_not_found :
  forall fuel : nat,
    findActivityBoundaries scenarioA (7 + fuel) 0 1000000 tt = (Done [], tt)
    /\ discoverActiveBlocks scenarioA (7 + fuel) 0 None tt = (Done [], tt)
    /\ checkBlockRangeForActivity scenarioA (1 + fuel) 800000 800050 tt = (Done true, tt)
    /\ subdivideActiveRegion scenarioA (2 + fuel) 800000 800050 tt
       = (Done [Range.mk 800000 800050 51], tt).
Proof.
  intros fuel. split; [| split; [| split]].
  - apply (refines_run (fun n => findActivityBoundaries scenarioA n 0 1000000) 7);
      [intros n; apply findActivityBoundaries_step | vm_compute; reflexivity
      | discriminate | lia].
  - apply (refines_run (fun n => discoverActiveBlocks scenarioA n 0 None) 7);
      [intros n; apply discoverActiveBlocks_step | vm_compute; reflexivity
      | discriminate | lia].
  - apply (refines_run (fun n => checkBlockRangeForActivity scenarioA n 800000 800050) 1);
      [intros n; apply checkBlockRangeForActivity_step | vm_compute; reflexivity
      | discriminate | lia].
  - apply (refines_run (fun n => subdivideActiveRegion scenarioA n 800000 800050) 2);
      [intros n; apply subdivideActiveRegion_step | vm_compute; reflexivity
      | discriminate | lia].
Qed.

(** C2.  On a chain of 100,000 blocks whose only event is in block 60,000,
    [findActivityBoundaries] over [0, 100000] resolves to the single boundary
    [50000, 50000]: block 60,000 lies outside it and carries a watched
    event. *)
Theorem boundaries_leave_active_block_outside :
  forall fuel : nat,
    findActivityBoundaries loneEvent (4 + fuel) 0 100000 tt
      = (Done [Boundary.mk 50000 50000 1], tt)
    /\ checkBlockRangeForActivity loneEvent (1 + fuel) 60000 60000 tt = (Done true, tt)
    /\ 50000 < 60000 <= 100000.
Proof.
  intros fuel. split; [| split; [| lia]].
  - apply (refines_run (fun n => findActivityBoundaries loneEvent n 0 100000) 4);
      [intros n; apply findActivityBoundaries_step | vm_compute; reflexivity
      | discriminate | lia].
  - apply (refines_run (fun n => checkBlockRangeForActivity loneEvent n 60000 60000) 1);
      [intros n; apply checkBlockRangeForActivity_step | vm_compute; reflexivity
      | discriminate | lia].
Qed.

(** What the search does guarantee, whatever the provider: a value it
    returns is its initial candidate or lies within the span searched. *)
Lemma binarySearchFirstActivity_loop_within {St} (this : VaultBlockDiscovery St) (fuel : nat) :
  0 <= maxBlockRange this ->
  forall (left right result found : Z) (s s' : St),
    binarySearchFirstActivity_loop this fuel left right result s = (Done found, s') ->
    found = result \/ left <= found <= right.
Proof.
  intros Hwidth. induction fuel as [| fuel IH]; intros left right result found s s' Hrun;
    [discriminate |].
  cbn [binarySearchFirstActivity_loop] in Hrun.
  destruct (Z.leb_spec left right) as [Hle | Hgt];
    [| injection Hrun as <- _; left; reflexivity].
  unfold bind at 1 in Hrun.
  destruct (checkBlockRangeForActivity this fuel _ _ s) as [[[|] | e |] s1];
    try discriminate Hrun; apply IH in Hrun;
    assert (left <= (left + right) / 2 <= right) by (Z.div_mod_to_equations; lia); lia.
Qed.

Lemma binarySearchLastActivity_loop_within {St} (this : VaultBlockDiscovery St) (fuel : nat) :
  0 <= maxBlockRange this ->
  forall (left right result found : Z) (s s' : St),
    binarySearchLastActivity_loop this fuel left right result s = (Done found, s') ->
    found = result \/ left <= found <= right.
Proof.
  intros Hwidth. induction fuel as [| fuel IH]; intros left right result found s s' Hrun;
    [discriminate |].
  cbn [binarySearchLastActivity_loop] in Hrun.
  destruct (Z.leb_spec left right) as [Hle | Hgt];
    [| injection Hrun as <- _; left; reflexivity].
  unfold bind at 1 in Hrun.
  destruct (checkBlockRangeForActivity this fuel _ _ s) as [[[|] | e |] s1];
    try discriminate Hrun; apply IH in Hrun;
    assert (left <= (left + right) / 2 <= right) by (Z.div_mod_to_equations; lia); lia.
Qed.

(** The part of C2 that the code keeps: over a span [fromBlock, toBlock] of
    non-negative blocks the search reports nothing, or one boundary
    [first, last] with [fromBlock <= first <= last <= toBlock]. *)
Lemma findActivityBoundaries_within_span {St} (this : VaultBlockDiscovery St) (fuel : nat)
    (fromBlock toBlock : Z) (boundaries : list Boundary.t) (s s' : St) :
  0 <= maxBlockRange this ->
  0 <= fromBlock <= toBlock ->
  findActivityBoundaries this fuel fromBlock toBlock s = (Done boundaries, s') ->
  boundaries = []
  \/ exists first last,
       boundaries = [Boundary.mk first last (last - first + 1)]
       /\ fromBlock <= first /\ first <= last /\ last <= toBlock.
Proof.
  intros Hwidth Hspan Hrun. unfold findActivityBoundaries, bind at 1 in Hrun.
  destruct (binarySearchFirstActivity this fuel fromBlock toBlock s)
    as [[first | e |] s1] eqn:Hfirst; try discriminate Hrun.
  destruct (Z.eqb_spec first (-1)) as [-> | Hfound];
    [injection Hrun as <- _; left; reflexivity |].
  unfold bind in Hrun.
  destruct (binarySearchLastActivity this fuel first toBlock s1)
    as [[last | e |] s2] eqn:Hlast; try discriminate Hrun.
  injection Hrun as <- _. right. exists first, last.
  apply binarySearchFirstActivity_loop_within in Hfirst; [| exact Hwidth].
  apply binarySearchLastActivity_loop_within in Hlast; [| exact Hwidth].
  split; [reflexivity |]. lia.
Qed.

(** The controller's copy of the search behaves the same on both chains. *)
Example app_copy_scenarioA :
  AppDiscovery.findActivityBoundaries scenarioA 7 0 1000000 tt = (Done [], tt).
Proof. vm_compute. reflexivity. Qed.

Example app_copy_loneEvent :
  AppDiscovery.findActivityBoundaries loneEvent 4 0 100000 tt
    = (Done [Boundary.mk 50000 50000 1], tt).
Proof. vm_compute. reflexivity. Qed.

End BoundarySearch.

(** ** The range probe under provider errors *)

Module RangeProbe.
Import BlockDiscovery BlockDiscoveryFacts.

Lemma alwaysTooLarge_never_returns (fuel : nat) (fromBlock toBlock : Z) :
  checkBlockRangeForActivity alwaysTooLarge fuel fromBlock toBlock tt = (OutOfFuel, tt).
Proof.
  revert fromBlock toBlock. induction fuel as [| fuel IH]; intros fromBlock toBlock.
  - reflexivity.
  - cbn [checkBlockRangeForActivity]. unfold try_catch, bind at 1, await.
    cbn [alwaysTooLarge new_VaultBlockDiscovery provider rejectingProvider getLogs].
    change (includes "query exceeds max block range of 10000" "query exceeds") with true.
    cbv iota. unfold bind at 1. rewrite IH. reflexivity.
Qed.

(** C3.  Against a provider that answers every query with the range error,
    probing the single block [b, b] never returns: whatever the fuel, the
    recursion is still running when the fuel is spent.  The midpoint of
    [b, b] is [b], so the first recursive call probes [b, b] again. *)
Theorem single_block_range_error_recurses_forever :
  forall (fuel : nat) (b : Z),
    checkBlockRangeForActivity alwaysTooLarge fuel b b tt = (OutOfFuel, tt)
    /\ (b + b) / 2 = b.
Proof.
  intros fuel b. split.
  - apply alwaysTooLarge_never_returns.
  - replace (b + b) with (b * 2) by lia. apply Z.div_mul. discriminate.
Qed.

(** The controller's copy stops at a single block, and answers "no
    activity" instead of passing the error on. *)
Lemma app_copy_single_block_range_error (fuel : nat) (b : Z) :
  AppDiscovery.checkBlockRangeForActivity alwaysTooLarge (S fuel) b b tt = (Done false, tt).
Proof.
  cbn [AppDiscovery.checkBlockRangeForActivity]. unfold try_catch, bind at 1, await.
  cbn [alwaysTooLarge new_VaultBlockDiscovery provider rejectingProvider getLogs].
  change (includes "query exceeds max block range of 10000" "query exceeds") with true.
  cbn [orb]. cbv iota.
  replace ((b + b) / 2) with b
    by (replace (b + b) with (b * 2) by lia; symmetry; apply Z.div_mul; discriminate).
  rewrite Z.eqb_refl. reflexivity.
Qed.

(** A response that is not the recognised range error ends the probe at
    once, whatever the provider: a success is counted, an error is thrown
    on unchanged, and the provider is left in the state of that one query. *)
Lemma checkBlockRangeForActivity_first_response {St} (this : VaultBlockDiscovery St)
    (fuel : nat) (fromBlock toBlock : Z) (s s1 : St) (response : result (list RawLog)) :
  getLogs (provider this) (activityFilter this fromBlock toBlock) s = (response, s1) ->
  (forall e, response = Err e -> includes e "query exceeds" = false) ->
  checkBlockRangeForActivity this (S fuel) fromBlock toBlock s
  = (match response with
     | Ok logs => Done (0 <? Z.of_nat (length logs))
     | Err e => Throw e
     end, s1).
Proof.
  intros Hq Hother.
  cbn [checkBlockRangeForActivity]. unfold try_catch, bind at 1, await, ret.
  rewrite Hq. destruct response as [logs | e]; [reflexivity |].
  rewrite (Hother e eq_refl). reflexivity.
Qed.

(** The recognised range error does split the interval at its midpoint. *)
Lemma range_error_splits_at_midpoint {St} (this : VaultBlockDiscovery St)
    (fuel : nat) (fromBlock toBlock : Z) (s s1 : St) (e : string) :
  getLogs (provider this) (activityFilter this fromBlock toBlock) s = (Err e, s1) ->
  includes e "query exceeds" = true ->
  checkBlockRangeForActivity this (S fuel) fromBlock toBlock s
  = (let* firstHalf :=
       checkBlockRangeForActivity this fuel fromBlock ((fromBlock + toBlock) / 2) in
     let* secondHalf :=
       checkBlockRangeForActivity this fuel ((fromBlock + toBlock) / 2 + 1) toBlock in
     ret (firstHalf || secondHalf)) s1.
Proof.
  intros Hq Hrange.
  cbn [checkBlockRangeForActivity]. unfold try_catch, bind at 1, await.
  rewrite Hq. rewrite Hrange. reflexivity.
Qed.

(** The controller's copy does not rethrow: any other error is answered
    "no activity". *)
Lemma app_copy_swallows_other_errors {St} (this : VaultBlockDiscovery St)
    (fuel : nat) (fromBlock toBlock : Z) (s s1 : St) (e : string) :
  getLogs (provider this) (activityFilter this fromBlock toBlock) s = (Err e, s1) ->
  includes e "query exceeds" = false ->
  includes e "max results" = false ->
  AppDiscovery.checkBlockRangeForActivity this (S fuel) fromBlock toBlock s = (Done false, s1).
Proof.
  intros Hq H1 H2.
  cbn [AppDiscovery.checkBlockRangeForActivity]. unfold try_catch, bind at 1, await.
  rewrite Hq, H1, H2. reflexivity.
Qed.

(** C4, as amended.  When the first answer of the provider is not an error
    whose message contains "query exceeds" (it is a success, or any other
    failure such as a network error), [checkBlockRangeForActivity] of
    [block-discovery.js] issues that one query and no other: the trace grows
    by exactly the filter of the whole interval, a failure is rethrown with
    its message unchanged, and nothing is split or retried.  The controller's
    copy, when the failure is not one that mentions "max results" either,
    issues that one query and no other as well, but does not rethrow: it
    answers "no activity".  Hence only the recognised errors can lead to a
    split, and only [block-discovery.js] passes the other errors on. *)
Theorem other_errors_end_the_probe_without_splitting :
  forall (St : Type) (this : VaultBlockDiscovery St) (fuel : nat) (fromBlock toBlock : Z)
         (s s1 : St) (tr : list Filter) (response : result (list RawLog)),
    getLogs (provider this) (activityFilter this fromBlock toBlock) s = (response, s1) ->
    (forall e, response = Err e -> includes e "query exceeds" = false) ->
    checkBlockRangeForActivity (traceDiscovery this) (S fuel) fromBlock toBlock (s, tr)
    = (match response with
       | Ok logs => Done (0 <? Z.of_nat (length logs))
       | Err e => Throw e
       end, (s1, tr ++ [activityFilter this fromBlock toBlock]))
    /\ ((forall e, response = Err e -> includes e "max results" = false) ->
        AppDiscovery.checkBlockRangeForActivity (traceDiscovery this) (S fuel)
          fromBlock toBlock (s, tr)
        = (match response with
           | Ok logs => Done (0 <? Z.of_nat (length logs))
           | Err e => Done false
           end, (s1, tr ++ [activityFilter this fromBlock toBlock]))).
Proof.
  intros St this fuel fromBlock toBlock s s1 tr response Hq Hother.
  assert (Htraced : getLogs (provider (traceDiscovery this))
                      (activityFilter (traceDiscovery this) fromBlock toBlock) (s, tr)
                    = (response, (s1, tr ++ [activityFilter this fromBlock toBlock]))).
  { change (activityFilter (traceDiscovery this) fromBlock toBlock)
      with (activityFilter this fromBlock toBlock).
    cbn [traceDiscovery provider traced getLogs]. rewrite Hq. reflexivity. }
  split.
  - apply (checkBlockRangeForActivity_first_response (traceDiscovery this));
      [exact Htraced | exact Hother].
  - intros Hresults. destruct response as [logs | e].
    + cbn [AppDiscovery.checkBlockRangeForActivity]. unfold try_catch, bind at 1, await, ret.
      rewrite Htraced. reflexivity.
    + apply (app_copy_swallows_other_errors (traceDiscovery this) fuel fromBlock toBlock
               (s, tr) _ e Htraced (Hother e eq_refl) (Hresults e eq_refl)).
Qed.

Lemma other_errors_end_the_probe_witness :
  checkBlockRangeForActivity (traceDiscovery unreachable) 1 5000 6999 (tt, [])
  = (Throw "network error: failed to fetch", (tt, [activityFilter unreachable 5000 6999]))
  /\ AppDiscovery.checkBlockRangeForActivity (traceDiscovery unreachable) 1 5000 6999 (tt, [])
     = (Done false, (tt, [activityFilter unreachable 5000 6999])).
Proof.
  destruct (other_errors_end_the_probe_without_splitting unit unreachable 0 5000 6999 tt tt []
              (Err "network error: failed to fetch") eq_refl
              ltac:(intros e He; injection He as <-; reflexivity)) as [Hblock Happ].
  split; [exact Hblock |].
  apply Happ. intros e He. injection He as <-. reflexivity.
Defined.

(** C4, as stated, fails on the controller's copy: a network failure of the
    one query is not passed on to the caller, the probe answers "no
    activity". *)
Lemma app_copy_does_not_propagate_network_error :
  AppDiscovery.checkBlockRangeForActivity unreachable 1 5000 6999 tt = (Done false, tt)
  /\ AppDiscovery.checkBlockRangeForActivity unreachable 1 5000 6999 tt
     <> (Throw "network error: failed to fetch", tt).
Proof. split; [vm_compute; reflexivity | vm_compute; discriminate]. Qed.

End RangeProbe.

(** ** The chunked scanner *)

Module ChunkedScan.
Import VaultTracker.

Section Classify.
Context (iface : Interface).

Lemma classifyLog_scanAppend (acc : Scan.t) (log : RawLog) :
  classifyLog iface acc log = scanAppend acc (classifyLog iface (Scan.mk [] [] []) log).
Proof.
  unfold classifyLog, scanAppend. destruct acc as [ds ws ts].
  destruct (parseLog iface (logTopics log) (data log)) as [parsed |]; cbn.
  - destruct (String.eqb (name parsed) "Deposit" || String.eqb (name parsed) "DepositMade");
      [cbn; rewrite !app_nil_r; reflexivity |].
    destruct (String.eqb (name parsed) "Withdraw" || String.eqb (name parsed) "WithdrawalMade");
      [cbn; rewrite !app_nil_r; reflexivity |].
    destruct (String.eqb (name parsed) "Transfer"); cbn; rewrite !app_nil_r; reflexivity.
  - rewrite !app_nil_r. reflexivity.
Qed.

Lemma scanAppend_assoc (a b c : Scan.t) :
  scanAppend (scanAppend a b) c = scanAppend a (scanAppend b c).
Proof. unfold scanAppend. cbn. rewrite <- !app_assoc. reflexivity. Qed.

Lemma scanAppend_empty_r (a : Scan.t) : scanAppend a (Scan.mk [] [] []) = a.
Proof. destruct a. unfold scanAppend. cbn. rewrite !app_nil_r. reflexivity. Qed.

Lemma classifyLogs_scanAppend (logs : list RawLog) (acc : Scan.t) :
  classifyLogs iface logs acc = scanAppend acc (classifyLogs iface logs (Scan.mk [] [] [])).
Proof.
  unfold classifyLogs. revert acc.
  induction logs as [| log logs IH]; intros acc; cbn [fold_left].
  - symmetry. apply scanAppend_empty_r.
  - rewrite IH. rewrite (IH (classifyLog iface _ log)).
    rewrite (classifyLog_scanAppend acc). apply scanAppend_assoc.
Qed.

(** Decoding a concatenation is decoding each part and joining the
    results. *)
Lemma classifyLogs_app (first second : list RawLog) (acc : Scan.t) :
  classifyLogs iface (first ++ second) acc
  = scanAppend (classifyLogs iface first acc) (classifyLogs iface second (Scan.mk [] [] [])).
Proof.
  unfold classifyLogs. rewrite fold_left_app.
  apply (classifyLogs_scanAppend second).
Qed.

(** The loop body files a log exactly as the specification's decoding
    does. *)
Lemma classifyLog_decoded (log : RawLog) :
  classifyLog iface (Scan.mk [] [] []) log = decodedEvents iface [log].
Proof.
  unfold classifyLog, decodedEvents, decodedAs. cbn [flat_map existsb].
  destruct (parseLog iface (logTopics log) (data log)) as [parsed |]; [| reflexivity].
  destruct (String.eqb_spec (name parsed) "Deposit") as [H | _];
    [rewrite H; reflexivity |].
  destruct (String.eqb_spec (name parsed) "DepositMade") as [H | _];
    [rewrite H; reflexivity |].
  destruct (String.eqb_spec (name parsed) "Withdraw") as [H | _];
    [rewrite H; reflexivity |].
  destruct (String.eqb_spec (name parsed) "WithdrawalMade") as [H | _];
    [rewrite H; reflexivity |].
  destruct (String.eqb_spec (name parsed) "Transfer") as [H | _]; reflexivity.
Qed.

Lemma decodedEvents_app (first second : list RawLog) :
  decodedEvents iface (first ++ second)
  = scanAppend (decodedEvents iface first) (decodedEvents iface second).
Proof.
  unfold decodedEvents, decodedAs, scanAppend.
  cbn [Scan.depositEvents Scan.withdrawEvents Scan.transferEvents].
  rewrite !flat_map_app. reflexivity.
Qed.

Lemma classifyLogs_decoded (logs : list RawLog) (acc : Scan.t) :
  classifyLogs iface logs acc = scanAppend acc (decodedEvents iface logs).
Proof.
  rewrite classifyLogs_scanAppend. f_equal.
  induction logs as [| log logs IH]; [reflexivity |].
  change (classifyLogs iface (log :: logs) (Scan.mk [] [] []))
    with (classifyLogs iface logs (classifyLog iface (Scan.mk [] [] []) log)).
  rewrite classifyLogs_scanAppend, IH, classifyLog_decoded.
  symmetry. apply (decodedEvents_app [log] logs).
Qed.

Lemma scanAppend_empty_l (a : Scan.t) : scanAppend (Scan.mk [] [] []) a = a.
Proof. destruct a. reflexivity. Qed.
End Classify.

(** What the chunk query yields once the whole chunk has been refused and
    the chunk is wider than 500 blocks: both halves are queried, each
    failure is replaced by no logs. *)
Lemma chunkLogs_split {St} (p : Provider St) (iface : Interface) (address : string)
    (start end_ : Z) (s s1 s2 s3 : St) (e : string) (r1 r2 : result (list RawLog)) :
  500 < end_ - start ->
  getLogs p (scanFilter iface address start end_) s = (Err e, s1) ->
  getLogs p (scanFilter iface address start ((start + end_) / 2)) s1 = (r1, s2) ->
  getLogs p (scanFilter iface address ((start + end_) / 2 + 1) end_) s2 = (r2, s3) ->
  chunkLogs p iface address start end_ s = (Done (Some (orEmpty r1 ++ orEmpty r2)), s3).
Proof.
  intros Hwide H0 H1 H2.
  unfold chunkLogs, try_catch, bind at 1, await. rewrite H0.
  destruct (Z.ltb_spec 500 (end_ - start)) as [_ | Hle]; [| lia].
  unfold bind, catch_with, ret. rewrite H1.
  destruct r1 as [first | e1]; rewrite H2; destruct r2 as [second | e2]; reflexivity.
Qed.

Lemma traced_getLogs {St} (p : Provider St) (f : Filter) (s s' : St)
    (tr : list Filter) (r : result (list RawLog)) :
  getLogs p f s = (r, s') -> getLogs (traced p) f (s, tr) = (r, (s', tr ++ [f])).
Proof. intros H. cbn [traced getLogs]. rewrite H. reflexivity. Qed.

(** C7.  Let the query for the chunk [5000, 6999] fail (with the range
    error or any other), and let [r1] and [r2] be the provider's answers for
    [5000, 5999] and [6000, 6999].  Then the scanner issues exactly these
    three queries for the chunk; the events it adds are the decoded events of
    the logs of the two halves ([Deposit], [DepositMade], [Withdraw],
    [WithdrawalMade] and [Transfer] logs with their arguments, in order), a
    failed half counting for no logs; the scan goes on with the chunk that
    starts at 7000; and a scan of exactly [5000, 6999] resolves to the
    decoded events of the first half followed by those of the second. *)
Theorem failed_chunk_is_split_once_at_midpoint :
  forall (St : Type) (p : Provider St) (iface : Interface) (vaultContract : Contract)
         (fuel : nat) (toBlock : Z) (acc : Scan.t)
         (s s1 s2 s3 : St) (tr : list Filter) (e : string) (r1 r2 : result (list RawLog)),
    let address :=
      if truthy (target vaultContract) then target vaultContract
      else contractAddress vaultContract in
    let query := scanFilter iface address in
    6999 <= toBlock ->
    getLogs p (query 5000 6999) s = (Err e, s1) ->
    getLogs p (query 5000 5999) s1 = (r1, s2) ->
    getLogs p (query 6000 6999) s2 = (r2, s3) ->
    scanByChunksWithTopics_loop (traced p) iface (S fuel) address 5000 toBlock acc (s, tr)
    = scanByChunksWithTopics_loop (traced p) iface fuel address 7000 toBlock
        (scanAppend acc (decodedEvents iface (orEmpty r1 ++ orEmpty r2)))
        (s3, tr ++ [query 5000 6999; query 5000 5999; query 6000 6999])
    /\ scanByChunksWithTopics (traced p) iface (S (S fuel)) vaultContract 5000 6999 (s, tr)
       = (Done (scanAppend (decodedEvents iface (orEmpty r1))
                           (decodedEvents iface (orEmpty r2))),
          (s3, tr ++ [query 5000 6999; query 5000 5999; query 6000 6999])).
Proof.
  intros St p iface vaultContract fuel toBlock acc s s1 s2 s3 tr e r1 r2
         address query Hto H0 H1 H2.
  assert (Hchunk : forall tb, 6999 <= tb ->
            chunkLogs (traced p) iface address 5000 (Z.min (5000 + chunkSize - 1) tb) (s, tr)
            = (Done (Some (orEmpty r1 ++ orEmpty r2)),
               (s3, tr ++ [query 5000 6999; query 5000 5999; query 6000 6999]))).
  { intros tb Htb.
    replace (Z.min (5000 + chunkSize - 1) tb) with 6999 by (unfold chunkSize; lia).
    replace (tr ++ [query 5000 6999; query 5000 5999; query 6000 6999])
      with (((tr ++ [query 5000 6999]) ++ [query 5000 5999]) ++ [query 6000 6999])
      by (rewrite <- !app_assoc; reflexivity).
    apply (chunkLogs_split (traced p) iface address 5000 6999
             (s, tr) (s1, tr ++ [query 5000 6999])
             (s2, (tr ++ [query 5000 6999]) ++ [query 5000 5999]) _ e r1 r2).
    - lia.
    - apply traced_getLogs. exact H0.
    - change ((5000 + 6999) / 2) with 5999. apply traced_getLogs. exact H1.
    - change ((5000 + 6999) / 2 + 1) with 6000. apply traced_getLogs. exact H2. }
  split.
  - cbn [scanByChunksWithTopics_loop].
    destruct (Z.leb_spec 5000 toBlock) as [_ | Hlt]; [| lia].
    unfold bind at 1. rewrite (Hchunk toBlock Hto). rewrite classifyLogs_decoded. reflexivity.
  - unfold scanByChunksWithTopics. fold address.
    cbn [scanByChunksWithTopics_loop].
    change (5000 <=? 6999) with true. cbv iota.
    unfold bind at 1. rewrite (Hchunk 6999) by lia.
    change (5000 + chunkSize <=? 6999) with false. cbv iota.
    unfold ret. rewrite classifyLogs_decoded, scanAppend_empty_l, decodedEvents_app.
    reflexivity.
Qed.

(** On the chain of the five logs the refused chunk gives the deposit of
    the first half and the withdrawal and the transfer of the second; the
    vault update and the unknown log are dropped. *)
Lemma failed_chunk_witness :
  scanByChunksWithTopics (traced mixedChain) byTopic 2 someVault 5000 6999 (tt, [])
  = (Done (Scan.mk
             [mkEvent depositLog (DepositArgs aliceAddress aliceAddress 100 95)]
             [mkEvent withdrawLog (WithdrawArgs aliceAddress aliceAddress aliceAddress 30 28)]
             [mkEvent transferLog (TransferArgs aliceAddress bobAddress 5)]),
     (tt, [scanFilter byTopic (target someVault) 5000 6999;
           scanFilter byTopic (target someVault) 5000 5999;
           scanFilter byTopic (target someVault) 6000 6999])).
Proof.
  apply (proj2 (failed_chunk_is_split_once_at_midpoint unit mixedChain byTopic someVault
                  0 6999 (Scan.mk [] [] []) tt tt tt tt []
                  "query exceeds max block range"
                  (Ok [depositLog; vaultUpdateLog; unknownLog])
                  (Ok [withdrawLog; transferLog])
                  ltac:(lia) eq_refl eq_refl eq_refl)).
Defined.

End ChunkedScan.

(** ** Transfer inference *)

Module TransferInference.
Import VaultTracker.

Lemma processTransferEvent_user (acc : Events.t) (event : Event) :
  isUserTransfer event -> processTransferEvent acc event = acc.
Proof.
  intros (from & to & value & Hargs & Hfrom & Hto).
  unfold processTransferEvent. rewrite Hargs.
  apply String.eqb_neq in Hfrom. apply String.eqb_neq in Hto.
  rewrite Hfrom, Hto. reflexivity.
Qed.

Lemma fold_processTransferEvent_users (transferEvents : list Event) (acc : Events.t) :
  Forall isUserTransfer transferEvents ->
  fold_left processTransferEvent transferEvents acc = acc.
Proof.
  intros Hall. revert acc.
  induction Hall as [| event rest Hevent _ IH]; intros acc; cbn [fold_left].
  - reflexivity.
  - rewrite (processTransferEvent_user acc event Hevent). apply IH.
Qed.

(** C6 (Scenario C).  For non-zero addresses [X] and [Y], the transfers
    zero→X of 100, X→Y of 40 and Y→zero of 60 are converted into exactly one
    deposit, for [X] with assets = shares = 100, and exactly one withdrawal,
    for [Y] with assets = shares = 60; the X→Y transfer leaves the result as
    it was. *)
Theorem scenarioC_mint_and_burn_only :
  forall (X Y vaultAddress : string) (l1 l2 l3 : RawLog),
    X <> zeroAddress -> Y <> zeroAddress ->
    processTransferEvents
      [mkEvent l1 (TransferArgs zeroAddress X 100);
       mkEvent l2 (TransferArgs X Y 40);
       mkEvent l3 (TransferArgs Y zeroAddress 60)] vaultAddress
    = Events.mk [mkEvent l1 (DepositArgs X X 100 100)]
                [mkEvent l3 (WithdrawArgs Y Y Y 60 60)]
    /\ forall acc, processTransferEvent acc (mkEvent l2 (TransferArgs X Y 40)) = acc.
Proof.
  intros X Y vaultAddress l1 l2 l3 HX HY.
  apply String.eqb_neq in HX. apply String.eqb_neq in HY.
  split.
  - unfold processTransferEvents. cbn [fold_left processTransferEvent args log].
    rewrite (String.eqb_refl zeroAddress), !HX, !HY. reflexivity.
  - intros acc. unfold processTransferEvent. cbn [args].
    rewrite HX, HY. reflexivity.
Qed.

Lemma scenarioC_witness :
  processTransferEvents
    [mkEvent (logAt 10) (TransferArgs zeroAddress aliceAddress 100);
     mkEvent (logAt 11) (TransferArgs aliceAddress bobAddress 40);
     mkEvent (logAt 12) (TransferArgs bobAddress zeroAddress 60)] ""
  = Events.mk [mkEvent (logAt 10) (DepositArgs aliceAddress aliceAddress 100 100)]
              [mkEvent (logAt 12) (WithdrawArgs bobAddress bobAddress bobAddress 60 60)].
Proof.
  apply (proj1 (scenarioC_mint_and_burn_only aliceAddress bobAddress "" (logAt 10) (logAt 11)
                  (logAt 12) ltac:(discriminate) ltac:(discriminate))).
Defined.

Lemma processTransferEvent_eventsAppend (acc : Events.t) (event : Event) :
  processTransferEvent acc event
  = eventsAppend acc (processTransferEvent (Events.mk [] []) event).
Proof.
  unfold processTransferEvent, eventsAppend. destruct acc as [ds ws].
  destruct (args event) as [| | | from to value |]; cbn; rewrite ?app_nil_r; try reflexivity.
  destruct (String.eqb from zeroAddress && negb (String.eqb to zeroAddress));
    [cbn; rewrite app_nil_r; reflexivity |].
  destruct (negb (String.eqb from zeroAddress) && String.eqb to zeroAddress);
    cbn; rewrite ?app_nil_r; reflexivity.
Qed.

(** Each transfer contributes on its own: the deposits (withdrawals) of a
    run are the deposits (withdrawals) of its transfers, in order. *)
Lemma fold_processTransferEvent_flat_map (transferEvents : list Event) (acc : Events.t) :
  fold_left processTransferEvent transferEvents acc
  = eventsAppend acc
      (Events.mk
         (flat_map (fun e => Events.depositEvents (processTransferEvent (Events.mk [] []) e))
                   transferEvents)
         (flat_map (fun e => Events.withdrawEvents (processTransferEvent (Events.mk [] []) e))
                   transferEvents)).
Proof.
  revert acc. induction transferEvents as [| event rest IH]; intros acc; cbn [fold_left flat_map].
  - destruct acc. unfold eventsAppend. cbn. rewrite !app_nil_r. reflexivity.
  - rewrite IH. rewrite (processTransferEvent_eventsAppend acc event).
    unfold eventsAppend. cbn. rewrite <- !app_assoc. reflexivity.
Qed.

(** C9.  The result of [processTransferEvents] depends on the transfers
    only: the [vaultAddress] argument is not read and there is no state, so
    two runs over the same transfers give the same deposits and withdrawals;
    listing the same transfers in another order gives the same deposits and
    the same withdrawals up to their order; and when every transfer is
    between two non-zero addresses, both lists are empty. *)
Theorem processTransferEvents_is_a_function_of_the_transfers :
  forall (transferEvents : list Event),
    (forall vaultAddress vaultAddress',
        processTransferEvents transferEvents vaultAddress
        = processTransferEvents transferEvents vaultAddress')
    /\ (Forall isUserTransfer transferEvents ->
        forall vaultAddress,
          processTransferEvents transferEvents vaultAddress = Events.mk [] [])
    /\ (forall transferEvents' vaultAddress,
          Permutation transferEvents transferEvents' ->
          Permutation
            (Events.depositEvents (processTransferEvents transferEvents vaultAddress))
            (Events.depositEvents (processTransferEvents transferEvents' vaultAddress))
          /\ Permutation
               (Events.withdrawEvents (processTransferEvents transferEvents vaultAddress))
               (Events.withdrawEvents (processTransferEvents transferEvents' vaultAddress))).
Proof.
  intros transferEvents. split; [| split].
  - intros vaultAddress vaultAddress'. reflexivity.
  - intros Hall vaultAddress. unfold processTransferEvents.
    apply fold_processTransferEvent_users. exact Hall.
  - intros transferEvents' vaultAddress Hperm. unfold processTransferEvents.
    rewrite !fold_processTransferEvent_flat_map. cbn.
    split; apply Permutation_flat_map; exact Hperm.
Qed.

Lemma aliceToBob_isUserTransfer (n value : Z) :
  isUserTransfer (mkEvent (logAt n) (TransferArgs aliceAddress bobAddress value)).
Proof.
  exists aliceAddress, bobAddress, value.
  split; [reflexivity | split; discriminate].
Defined.

Lemma user_transfers_witness :
  processTransferEvents
    [mkEvent (logAt 10) (TransferArgs aliceAddress bobAddress 40);
     mkEvent (logAt 11) (TransferArgs aliceAddress bobAddress 2)] ""
  = Events.mk [] [].
Proof.
  apply (proj1 (proj2 (processTransferEvents_is_a_function_of_the_transfers _))).
  repeat constructor; apply aliceToBob_isUserTransfer.
Defined.

End TransferInference.

(** ** The position ledger *)

Module PositionLedger.
Import VaultTracker.

Section Withdrawals.
Context (addressData : gmap string AddressData.t)
        (owner : string) (assets shares blockTime : Z).

(** A withdrawal leaves the deposit side of every entry alone. *)
Lemma applyWithdrawal_keeps_deposit_side (a : string) (data : AddressData.t) :
  addressData !! a = Some data ->
  exists data',
    applyWithdrawal addressData owner assets shares blockTime !! a = Some data'
    /\ AddressData.firstDeposit data' = AddressData.firstDeposit data
    /\ AddressData.totalDeposits data' = AddressData.totalDeposits data
    /\ AddressData.depositCount data' = AddressData.depositCount data.
Proof.
  intros Ha. unfold applyWithdrawal, entryFor.
  destruct (decide (owner = a)) as [-> | Hne].
  - rewrite Ha. rewrite lookup_insert_eq. eexists. split; [reflexivity |]. cbn. auto.
  - rewrite lookup_insert_ne by exact Hne. exists data. auto.
Qed.

(** The entry a withdrawal creates has no deposits. *)
Lemma applyWithdrawal_new_entry :
  addressData !! owner = None ->
  exists data',
    applyWithdrawal addressData owner assets shares blockTime !! owner = Some data'
    /\ AddressData.firstDeposit data' = newDate (blockTime * 1000)
    /\ AddressData.totalDeposits data' = 0
    /\ AddressData.depositCount data' = 0.
Proof.
  intros Ha. unfold applyWithdrawal, entryFor. rewrite Ha.
  rewrite lookup_insert_eq. eexists. split; [reflexivity |]. cbn. auto.
Qed.
End Withdrawals.

(** C5 (Scenario D).  A deposit of 100 for [X] stamped [T1] followed by a
    withdrawal of 30 for [X] stamped [T2], with [T1 < T2], turns the empty
    ledger into the single entry for [X] with total deposits 100, total
    withdrawals 30, first deposit at [T1], last activity at [T2], one
    deposit and one withdrawal; its net position is 70.  On any ledger, a
    withdrawal keeps the first-deposit date, the total deposits and the
    deposit count of every entry it finds. *)
Theorem scenarioD_deposit_then_withdrawal :
  forall (St : Type) (getBlock : Z -> St -> result (option Z) * St) (Date_now : St -> Z)
         (X : string) (T1 T2 : Z) (deposited withdrawn : Event)
         (sender sender' receiver : string) (sharesIn sharesOut : Z)
         (st0 st1 st2 : St * gmap Z Z),
    T1 < T2 ->
    args deposited = DepositArgs sender X 100 sharesIn ->
    args withdrawn = WithdrawArgs sender' receiver X 30 sharesOut ->
    getBlockTimestamp getBlock Date_now (blockNumber (log deposited)) st0 = (Done T1, st1) ->
    getBlockTimestamp getBlock Date_now (blockNumber (log withdrawn)) st1 = (Done T2, st2) ->
    let position :=
      AddressData.mk X 100 30 (sharesIn - sharesOut)
        (newDate (T1 * 1000)) (newDate (T2 * 1000)) 1 1 in
    processRealEventData getBlock Date_now (Events.mk [deposited] [withdrawn]) st0
    = (Done {[ X := position ]}, st2)
    /\ netAssets position = 70
    /\ forall (addressData : gmap string AddressData.t) (owner : string)
              (assets shares blockTime : Z) (a : string) (data : AddressData.t),
         addressData !! a = Some data ->
         exists data',
           applyWithdrawal addressData owner assets shares blockTime !! a = Some data'
           /\ AddressData.firstDeposit data <= AddressData.firstDeposit data'
           /\ AddressData.totalDeposits data' = AddressData.totalDeposits data
           /\ AddressData.depositCount data' = AddressData.depositCount data.
Proof.
  intros St getBlock Date_now X T1 T2 deposited withdrawn sender sender' receiver
         sharesIn sharesOut st0 st1 st2 Hlt Hdep Hwd Ht1 Ht2 position.
  split; [| split].
  - unfold processRealEventData. cbn [Events.depositEvents Events.withdrawEvents length].
    cbn [Nat.eqb andb].
    cbn [processDeposits processWithdrawals]. unfold bind at 1. unfold bind at 1.
    rewrite Ht1. rewrite Hdep. cbn [ownerAssetsShares]. unfold ret at 1.
    unfold bind. rewrite Ht2. rewrite Hwd. cbn [ownerAssetsShares]. unfold ret.
    f_equal. f_equal.
    unfold applyWithdrawal, applyDeposit, entryFor.
    rewrite lookup_empty. rewrite lookup_insert_eq. rewrite insert_insert_eq.
    cbn. unfold newDate.
    rewrite Z.ltb_irrefl.
    destruct (Z.ltb_spec (T1 * 1000) (T2 * 1000)) as [_ | Hge]; [| lia].
    rewrite insert_empty. reflexivity.
  - reflexivity.
  - intros addressData owner assets shares blockTime a data Ha.
    destruct (applyWithdrawal_keeps_deposit_side addressData owner assets shares blockTime
                a data Ha) as (data' & Hlook & Hfirst & Htotal & Hcount).
    exists data'. rewrite Hfirst. split; [exact Hlook |]. split; [lia |]. auto.
Qed.

Lemma scenarioD_witness :
  processRealEventData twelveSeconds stoppedClock
    (Events.mk [mkEvent (logAt 100) (DepositArgs aliceAddress aliceAddress 100 95)]
               [mkEvent (logAt 250) (WithdrawArgs aliceAddress aliceAddress aliceAddress 30 28)])
    cacheEmpty
  = (Done {[ aliceAddress :=
               AddressData.mk aliceAddress 100 30 (95 - 28)
                 (newDate (1200 * 1000)) (newDate (3000 * 1000)) 1 1 ]},
     cache100_250).
Proof.
  apply (proj1 (scenarioD_deposit_then_withdrawal unit twelveSeconds stoppedClock
                  aliceAddress 1200 3000
                  (mkEvent (logAt 100) (DepositArgs aliceAddress aliceAddress 100 95))
                  (mkEvent (logAt 250) (WithdrawArgs aliceAddress aliceAddress aliceAddress 30 28))
                  aliceAddress aliceAddress aliceAddress 95 28
                  cacheEmpty cache100 cache100_250
                  ltac:(lia) eq_refl eq_refl
                  ltac:(vm_compute; reflexivity) ltac:(vm_compute; reflexivity))).
Defined.

End PositionLedger.

(** ** Consolidation of block numbers into ranges *)

Module Consolidation.
Import GraphDiscovery.

Lemma hd_app_nonempty (cur ext : list Z) : cur <> [] -> List.hd 0 (cur ++ ext) = List.hd 0 cur.
Proof. destruct cur; [congruence | reflexivity]. Qed.

Lemma closeBy_snoc (maxGap : Z) (cur : list Z) (c : Z) :
  cur <> [] -> Sorted (closeBy maxGap) cur -> c - List.last cur 0 <= maxGap ->
  Sorted (closeBy maxGap) (cur ++ [c]).
Proof.
  intros Hne Hsorted Hgap.
  destruct (exists_last Hne) as (pre & e & ->).
  rewrite last_last in Hgap.
  apply Sorted_snoc; [exact Hsorted |].
  constructor. exact Hgap.
Qed.

(** The loop, started on a current cluster [cur], extends [cur] by some
    [ext] and then cuts the remaining numbers into further clusters. *)
Lemma consolidateBlockRanges_loop_clusters (maxGap : Z) (rest : list Z) :
  forall (cur : list Z) (ranges : list BlockRange),
    cur <> [] -> Sorted (closeBy maxGap) cur ->
    exists (ext : list Z) (groups : list (list Z)),
      concat ((cur ++ ext) :: groups) = cur ++ rest
      /\ consolidateBlockRanges_loop rest maxGap ranges (List.hd 0 cur) (List.last cur 0)
         = ranges ++ map intervalOf ((cur ++ ext) :: groups)
      /\ Forall (fun g => g <> []) groups
      /\ Forall (Sorted (closeBy maxGap)) ((cur ++ ext) :: groups)
      /\ Sorted (farApart maxGap) ((cur ++ ext) :: groups).
Proof.
  induction rest as [| c rest IH]; intros cur ranges Hne Hsorted.
  - exists [], []. rewrite !app_nil_r. cbn. rewrite app_nil_r.
    repeat split; auto.
  - cbn [consolidateBlockRanges_loop].
    destruct (Z.leb_spec (c - List.last cur 0) maxGap) as [Hclose | Hfar].
    + destruct (IH (cur ++ [c]) ranges) as (ext & groups & Hcat & Hloop & Hnes & Hin & Hout).
      { destruct cur; discriminate. }
      { apply closeBy_snoc; assumption. }
      rewrite hd_app_nonempty in Hloop by exact Hne. rewrite last_last in Hloop.
      rewrite <- !app_assoc in *. cbn [app] in *.
      exists (c :: ext), groups. auto.
    + destruct (IH [c] (ranges ++ [mkBlockRange (List.hd 0 cur) (List.last cur 0)]))
        as (ext & groups & Hcat & Hloop & Hnes & Hin & Hout).
      { discriminate. }
      { repeat constructor. }
      cbn [List.hd List.last] in Hloop.
      exists [], (([c] ++ ext) :: groups). rewrite app_nil_r.
      split; [| split; [| split; [| split]]].
      * cbn [concat] in *. rewrite Hcat. reflexivity.
      * rewrite Hloop. rewrite <- app_assoc. reflexivity.
      * constructor; [discriminate | exact Hnes].
      * constructor; [exact Hsorted | exact Hin].
      * constructor; [exact Hout |]. constructor. unfold farApart. cbn. lia.
Qed.

Lemma sorted_cluster_bounds (g : list Z) :
  StronglySorted Z.le g -> forall b, In b g -> List.hd 0 g <= b <= List.last g 0.
Proof.
  induction 1 as [| a g Hg IH Hall]; intros b Hb; [destruct Hb |].
  rewrite Forall_forall in Hall. cbn [List.hd].
  destruct g as [| a' g'].
  - destruct Hb as [<- | []]. cbn. lia.
  - change (List.last (a :: a' :: g') 0) with (List.last (a' :: g') 0).
    assert (Ha' : a <= a') by (apply Hall; apply list_elem_of_In; left; reflexivity).
    destruct (IH a' (or_introl eq_refl)) as [_ Hlast].
    destruct Hb as [<- | Hb].
    + lia.
    + destruct (IH b Hb) as [_ Hb_last]. split; [| exact Hb_last].
      apply Hall. apply list_elem_of_In. exact Hb.
Qed.

Lemma sorted_concat_clusters (clusters : list (list Z)) (g : list Z) :
  StronglySorted Z.le (concat clusters) -> In g clusters -> StronglySorted Z.le g.
Proof.
  intros Hsorted Hg. destruct (in_split _ _ Hg) as (before & after & ->).
  rewrite concat_app in Hsorted. cbn [concat] in Hsorted.
  apply StronglySorted_app_1_r in Hsorted. apply StronglySorted_app_1_l in Hsorted.
  exact Hsorted.
Qed.

(** C8.  For an ascending list of block numbers and any [maxGap],
    [consolidateBlockRanges] cuts the list into consecutive non-empty
    clusters and returns the interval from the first to the last number of
    each: inside a cluster every number is within [maxGap] of the next,
    from the last number of a cluster to the first of the next the gap
    exceeds [maxGap], every input number lies in a returned interval, and
    the empty list gives no interval. *)
Theorem consolidateBlockRanges_clusters_the_input :
  forall (blockNumbers : list Z) (maxGap : Z),
    Sorted Z.le blockNumbers ->
    (exists clusters : list (list Z),
        concat clusters = blockNumbers
        /\ Forall (fun g => g <> []) clusters
        /\ consolidateBlockRanges blockNumbers maxGap = map intervalOf clusters
        /\ Forall (Sorted (closeBy maxGap)) clusters
        /\ Sorted (farApart maxGap) clusters)
    /\ (forall b, In b blockNumbers ->
          exists r, In r (consolidateBlockRanges blockNumbers maxGap)
                    /\ start r <= b <= end_ r)
    /\ consolidateBlockRanges [] maxGap = [].
Proof.
  intros blockNumbers maxGap Hasc.
  assert (Hclusters : exists clusters : list (list Z),
        concat clusters = blockNumbers
        /\ Forall (fun g => g <> []) clusters
        /\ consolidateBlockRanges blockNumbers maxGap = map intervalOf clusters
        /\ Forall (Sorted (closeBy maxGap)) clusters
        /\ Sorted (farApart maxGap) clusters).
  { destruct blockNumbers as [| first rest].
    - exists []. cbn. repeat split; constructor.
    - destruct (consolidateBlockRanges_loop_clusters maxGap rest [first] [])
        as (ext & groups & Hcat & Hloop & Hnes & Hin & Hout).
      { discriminate. }
      { repeat constructor. }
      exists (([first] ++ ext) :: groups).
      split; [exact Hcat |]. split; [constructor; [discriminate | exact Hnes] |].
      split; [exact Hloop |]. split; assumption. }
  split; [exact Hclusters |]. split; [| reflexivity].
  destruct Hclusters as (clusters & Hcat & _ & Hresult & _ & _).
  intros b Hb. rewrite Hresult. rewrite <- Hcat in Hb.
  apply in_concat in Hb. destruct Hb as (g & Hg & Hbg).
  exists (intervalOf g). split; [apply in_map; exact Hg |].
  apply sorted_cluster_bounds; [| exact Hbg].
  apply (sorted_concat_clusters clusters); [| exact Hg].
  rewrite Hcat. apply Sorted.Sorted_StronglySorted; [| exact Hasc].
  intros x y z. apply Z.le_trans.
Qed.

Lemma consolidateBlockRanges_witness :
  (exists clusters : list (list Z),
      concat clusters = [10; 50; 120; 400; 450]
      /\ Forall (fun g => g <> []) clusters
      /\ consolidateBlockRanges [10; 50; 120; 400; 450] 100 = map intervalOf clusters
      /\ Forall (Sorted (closeBy 100)) clusters
      /\ Sorted (farApart 100) clusters)
  /\ (forall b, In b [10; 50; 120; 400; 450] ->
        exists r, In r (consolidateBlockRanges [10; 50; 120; 400; 450] 100)
                  /\ start r <= b <= end_ r)
  /\ consolidateBlockRanges [] 100 = [].
Proof.
  apply (consolidateBlockRanges_clusters_the_input [10; 50; 120; 400; 450] 100).
  repeat constructor; lia.
Defined.

Example consolidateBlockRanges_example :
  consolidateBlockRanges_default [10; 50; 120; 400; 450]
  = [mkBlockRange 10 120; mkBlockRange 400 450].
Proof. reflexivity. Qed.

End Consolidation.

(** ** Subdivision of an active region *)

Module Subdivision.

(** The shape of what the loop adds, for either copy of the loop: the
    script reads the loop's equation only. *)
Ltac loop_shape IH Hpos Hrun :=
  match type of Hrun with
  | context [if ?i <=? ?endBlock then _ else _] =>
      destruct (Z.leb_spec i endBlock) as [Hin | Hout]
  end;
  [ unfold bind at 1 in Hrun;
    match type of Hrun with
    | context [match ?probe with _ => _ end] =>
        destruct probe as [[[|] | e |] s1] eqn:Hprobe; try discriminate Hrun
    end;
    (apply IH in Hrun; [| exact Hpos]);
    destruct Hrun as (added & Hresult & Hall & Hsorted);
    [ eexists (_ :: added); split;
      [ rewrite Hresult, <- app_assoc; reflexivity
      | split;
        [ constructor;
          [ unfold chunkWithin; cbn [Range.start Range.end_ Range.blocks]; lia
          | eapply Forall_impl; [exact Hall |];
            intros r (Hlo & Hrest); unfold chunkWithin; split; [lia | exact Hrest] ]
        | constructor;
          [ exact Hsorted
          | eapply Forall_impl; [exact Hall |];
            intros r (Hlo & _); unfold before; cbn [Range.end_]; lia ] ] ]
    | exists added; split;
      [ exact Hresult
      | split;
        [ eapply Forall_impl; [exact Hall |];
          intros r (Hlo & Hrest); unfold chunkWithin; split; [lia | exact Hrest]
        | exact Hsorted ] ] ]
  | injection Hrun as <- <-; exists []; rewrite app_nil_r;
    split; [reflexivity | split; constructor] ].

Section AnyProvider.
Context {St : Type} (this : VaultBlockDiscovery St).

Lemma subdivideActiveRegion_loop_shape (fuel : nat) (chunkSize endBlock : Z) :
  forall (i : Z) (ranges result : list Range.t) (s s' : St),
    0 < chunkSize ->
    BlockDiscovery.subdivideActiveRegion_loop this fuel chunkSize i endBlock ranges s
    = (Done result, s') ->
    exists added,
      result = ranges ++ added
      /\ Forall (chunkWithin chunkSize i endBlock) added
      /\ StronglySorted before added.
Proof.
  induction fuel as [| fuel IH]; intros i ranges result s s' Hpos Hrun; [discriminate |].
  cbn [BlockDiscovery.subdivideActiveRegion_loop] in Hrun.
  loop_shape IH Hpos Hrun.
Qed.

Lemma app_copy_subdivideActiveRegion_loop_shape (fuel : nat) (chunkSize endBlock : Z) :
  forall (i : Z) (ranges result : list Range.t) (s s' : St),
    0 < chunkSize ->
    AppDiscovery.subdivideActiveRegion_loop this fuel chunkSize i endBlock ranges s
    = (Done result, s') ->
    exists added,
      result = ranges ++ added
      /\ Forall (chunkWithin chunkSize i endBlock) added
      /\ StronglySorted before added.
Proof.
  induction fuel as [| fuel IH]; intros i ranges result s s' Hpos Hrun; [discriminate |].
  cbn [AppDiscovery.subdivideActiveRegion_loop] in Hrun.
  loop_shape IH Hpos Hrun.
Qed.

(** Whatever the provider answers, a subdivision that returns has returned
    disjoint ascending chunks of [startBlock, endBlock]. *)
Lemma subdivideActiveRegion_shape (fuel : nat) (startBlock endBlock : Z)
    (ranges : list Range.t) (s s' : St) :
  0 < maxBlockRange this ->
  BlockDiscovery.subdivideActiveRegion this fuel startBlock endBlock s = (Done ranges, s') ->
  Forall (chunkWithin 5000 startBlock endBlock) ranges /\ StronglySorted before ranges.
Proof.
  intros Hpos Hrun. unfold BlockDiscovery.subdivideActiveRegion in Hrun.
  apply subdivideActiveRegion_loop_shape in Hrun; [| lia].
  destruct Hrun as (added & -> & Hall & Hsorted). cbn [app].
  split; [| exact Hsorted].
  eapply Forall_impl; [exact Hall |].
  intros r (H1 & H2 & H3 & H4 & H5). unfold chunkWithin. repeat split; try assumption. lia.
Qed.

Lemma app_copy_subdivideActiveRegion_shape (fuel : nat) (startBlock endBlock : Z)
    (ranges : list Range.t) (s s' : St) :
  0 < maxBlockRange this ->
  AppDiscovery.subdivideActiveRegion this fuel startBlock endBlock s = (Done ranges, s') ->
  Forall (chunkWithin 5000 startBlock endBlock) ranges /\ StronglySorted before ranges.
Proof.
  intros Hpos Hrun. unfold AppDiscovery.subdivideActiveRegion in Hrun.
  apply app_copy_subdivideActiveRegion_loop_shape in Hrun; [| lia].
  destruct Hrun as (added & -> & Hall & Hsorted). cbn [app].
  split; [| exact Hsorted].
  eapply Forall_impl; [exact Hall |].
  intros r (H1 & H2 & H3 & H4 & H5). unfold chunkWithin. repeat split; try assumption. lia.
Qed.

End AnyProvider.
End Subdivision.

(** ** The probe and the subdivision on a chain *)

Module OnChain.

(** One unfolding of each probe. *)
Lemma checkBlockRangeForActivity_unfold {St} (this : VaultBlockDiscovery St)
    (fuel : nat) (fromBlock toBlock : Z) :
  BlockDiscovery.checkBlockRangeForActivity this (S fuel) fromBlock toBlock
  = try_catch
      (let* logs := await (getLogs (provider this) (activityFilter this fromBlock toBlock)) in
       ret (0 <? Z.of_nat (length logs)))
      (fun error =>
         if includes error "query exceeds" then
           let midPoint := (fromBlock + toBlock) / 2 in
           let* firstHalf :=
             BlockDiscovery.checkBlockRangeForActivity this fuel fromBlock midPoint in
           let* secondHalf :=
             BlockDiscovery.checkBlockRangeForActivity this fuel (midPoint + 1) toBlock in
           ret (firstHalf || secondHalf)
         else throw error).
Proof. reflexivity. Qed.

Lemma app_copy_checkBlockRangeForActivity_unfold {St} (this : VaultBlockDiscovery St)
    (fuel : nat) (fromBlock toBlock : Z) :
  AppDiscovery.checkBlockRangeForActivity this (S fuel) fromBlock toBlock
  = try_catch
      (let* logs := await (getLogs (provider this) (activityFilter this fromBlock toBlock)) in
       ret (0 <? Z.of_nat (length logs)))
      (fun error =>
         if includes error "query exceeds" || includes error "max results" then
           let midPoint := (fromBlock + toBlock) / 2 in
           if midPoint =? fromBlock then ret false
           else
             let* firstHalf :=
               AppDiscovery.checkBlockRangeForActivity this fuel fromBlock midPoint in
             let* secondHalf :=
               AppDiscovery.checkBlockRangeForActivity this fuel (midPoint + 1) toBlock in
             ret (firstHalf || secondHalf)
         else ret false).
Proof. reflexivity. Qed.

Lemma subdivideActiveRegion_loop_unfold {St} (this : VaultBlockDiscovery St)
    (fuel : nat) (chunkSize i endBlock : Z) (ranges : list Range.t) :
  BlockDiscovery.subdivideActiveRegion_loop this (S fuel) chunkSize i endBlock ranges
  = if i <=? endBlock then
      let rangeEnd := Z.min (i + chunkSize - 1) endBlock in
      let* hasActivity := BlockDiscovery.checkBlockRangeForActivity this fuel i rangeEnd in
      BlockDiscovery.subdivideActiveRegion_loop this fuel chunkSize (i + chunkSize) endBlock
        (if hasActivity
         then ranges ++ [Range.mk i rangeEnd (rangeEnd - i + 1)]
         else ranges)
    else ret ranges.
Proof. reflexivity. Qed.

Lemma app_copy_subdivideActiveRegion_loop_unfold {St} (this : VaultBlockDiscovery St)
    (fuel : nat) (chunkSize i endBlock : Z) (ranges : list Range.t) :
  AppDiscovery.subdivideActiveRegion_loop this (S fuel) chunkSize i endBlock ranges
  = if i <=? endBlock then
      let rangeEnd := Z.min (i + chunkSize - 1) endBlock in
      let* hasActivity := AppDiscovery.checkBlockRangeForActivity this fuel i rangeEnd in
      AppDiscovery.subdivideActiveRegion_loop this fuel chunkSize (i + chunkSize) endBlock
        (if hasActivity
         then ranges ++ [Range.mk i rangeEnd (rangeEnd - i + 1)]
         else ranges)
    else ret ranges.
Proof. reflexivity. Qed.

Lemma app_copy_checkBlockRangeForActivity_step {St} (this : VaultBlockDiscovery St)
    (fuel : nat) (fromBlock toBlock : Z) :
  refines (AppDiscovery.checkBlockRangeForActivity this fuel fromBlock toBlock)
          (AppDiscovery.checkBlockRangeForActivity this (S fuel) fromBlock toBlock).
Proof.
  revert fromBlock toBlock.
  induction fuel as [| fuel IH]; intros fromBlock toBlock.
  - apply refines_timeout.
  - rewrite (app_copy_checkBlockRangeForActivity_unfold this (S fuel)).
    rewrite (app_copy_checkBlockRangeForActivity_unfold this fuel).
    apply refines_try_catch. intros e.
    destruct (includes e "query exceeds" || includes e "max results"); [| apply refines_refl].
    cbv zeta. destruct ((fromBlock + toBlock) / 2 =? fromBlock); [apply refines_refl |].
    apply refines_bind; [apply IH |]. intros a.
    apply refines_bind; [apply IH |]. intros b. apply refines_refl.
Qed.

Lemma app_copy_subdivideActiveRegion_loop_step {St} (this : VaultBlockDiscovery St)
    (fuel : nat) (chunkSize i endBlock : Z) (ranges : list Range.t) :
  refines (AppDiscovery.subdivideActiveRegion_loop this fuel chunkSize i endBlock ranges)
          (AppDiscovery.subdivideActiveRegion_loop this (S fuel) chunkSize i endBlock ranges).
Proof.
  revert i ranges.
  induction fuel as [| fuel IH]; intros i ranges.
  - apply refines_timeout.
  - rewrite (app_copy_subdivideActiveRegion_loop_unfold this (S fuel)).
    rewrite (app_copy_subdivideActiveRegion_loop_unfold this fuel).
    destruct (i <=? endBlock); [| apply refines_refl].
    apply refines_bind; [apply app_copy_checkBlockRangeForActivity_step |].
    intros hasActivity. apply IH.
Qed.

Section Chain.
Context (active : Z -> bool) (limit : option Z) (head : Z) (vaultAddress : string).

Local Abbreviation this := (chainDiscovery active limit head vaultAddress).

Hypothesis limit_ok : admitsSingleBlocks limit.

(** What the chain answers to the probe's query. *)
Lemma chain_answer (fromBlock toBlock : Z) :
  getLogs (provider this) (activityFilter this fromBlock toBlock) tt
  = match limit with
    | Some w =>
        if w <? toBlock - fromBlock
        then (Err "query exceeds max block range", tt)
        else (Ok (chainLogs active (activityFilter this fromBlock toBlock)), tt)
    | None => (Ok (chainLogs active (activityFilter this fromBlock toBlock)), tt)
    end.
Proof. reflexivity. Qed.

Lemma midpoint_halves (fromBlock toBlock : Z) (k : nat) :
  0 < toBlock - fromBlock <= Z.of_nat (S k) ->
  (fromBlock + toBlock) / 2 - fromBlock <= Z.of_nat k
  /\ toBlock - ((fromBlock + toBlock) / 2 + 1) <= Z.of_nat k.
Proof. intros H. Z.div_mod_to_equations. lia. Qed.

(** The probe of [block-discovery.js] returns on a chain: [k + 1] units of
    fuel are enough for a span of at most [k] blocks. *)
Lemma checkBlockRangeForActivity_returns (k : nat) :
  forall fromBlock toBlock,
    toBlock - fromBlock <= Z.of_nat k ->
    exists hasActivity,
      BlockDiscovery.checkBlockRangeForActivity this (S k) fromBlock toBlock tt
      = (Done hasActivity, tt).
Proof.
  induction k as [| k IH]; intros fromBlock toBlock Hspan;
    rewrite checkBlockRangeForActivity_unfold;
    unfold try_catch, bind at 1, await; rewrite chain_answer;
    (destruct limit as [w |]; [| eexists; reflexivity]);
    (destruct (Z.ltb_spec w (toBlock - fromBlock)) as [Hwide | Hfits]; [| eexists; reflexivity]);
    cbn in limit_ok.
  - lia.
  - change (includes "query exceeds max block range" "query exceeds") with true. cbv iota.
    destruct (midpoint_halves fromBlock toBlock k ltac:(lia)) as [Hleft Hright].
    destruct (IH fromBlock ((fromBlock + toBlock) / 2) Hleft) as [firstHalf Hfirst].
    destruct (IH ((fromBlock + toBlock) / 2 + 1) toBlock Hright) as [secondHalf Hsecond].
    unfold bind. rewrite Hfirst, Hsecond. eexists. reflexivity.
Qed.

(** So does the probe of the controller's copy. *)
Lemma app_copy_checkBlockRangeForActivity_returns (k : nat) :
  forall fromBlock toBlock,
    toBlock - fromBlock <= Z.of_nat k ->
    exists hasActivity,
      AppDiscovery.checkBlockRangeForActivity this (S k) fromBlock toBlock tt
      = (Done hasActivity, tt).
Proof.
  induction k as [| k IH]; intros fromBlock toBlock Hspan;
    rewrite app_copy_checkBlockRangeForActivity_unfold;
    unfold try_catch, bind at 1, await; rewrite chain_answer;
    (destruct limit as [w |]; [| eexists; reflexivity]);
    (destruct (Z.ltb_spec w (toBlock - fromBlock)) as [Hwide | Hfits]; [| eexists; reflexivity]);
    cbn in limit_ok.
  - lia.
  - change (includes "query exceeds max block range" "query exceeds") with true.
    cbn [orb]. cbv iota.
    destruct ((fromBlock + toBlock) / 2 =? fromBlock); [eexists; reflexivity |].
    destruct (midpoint_halves fromBlock toBlock k ltac:(lia)) as [Hleft Hright].
    destruct (IH fromBlock ((fromBlock + toBlock) / 2) Hleft) as [firstHalf Hfirst].
    destruct (IH ((fromBlock + toBlock) / 2 + 1) toBlock Hright) as [secondHalf Hsecond].
    unfold bind. rewrite Hfirst, Hsecond. eexists. reflexivity.
Qed.

Lemma chainLogs_some (f : Filter) :
  (0 <? Z.of_nat (length (chainLogs active f)))
  = existsb active (blocksFromTo (fromBlock f) (toBlock f)).
Proof.
  unfold chainLogs. rewrite length_map.
  induction (blocksFromTo (fromBlock f) (toBlock f)) as [| b l IH]; [reflexivity |].
  cbn [List.filter existsb]. destruct (active b); [| exact IH].
  cbn [length orb]. apply Z.ltb_lt. lia.
Qed.

Lemma blocksFrom_app (n m : nat) (a : Z) :
  blocksFrom (n + m) a = blocksFrom n a ++ blocksFrom m (a + Z.of_nat n).
Proof.
  revert a. induction n as [| n IH]; intros a.
  - cbn. f_equal. lia.
  - cbn [Nat.add blocksFrom app]. rewrite IH. do 3 f_equal. lia.
Qed.

Lemma blocksFromTo_split (a m b : Z) :
  a <= m + 1 -> m <= b ->
  blocksFromTo a b = blocksFromTo a m ++ blocksFromTo (m + 1) b.
Proof.
  intros Ham Hmb. unfold blocksFromTo.
  replace (Z.to_nat (b - a + 1)) with (Z.to_nat (m - a + 1) + Z.to_nat (b - (m + 1) + 1))%nat
    by lia.
  rewrite blocksFrom_app. do 2 f_equal. lia.
Qed.

(** The probe of [block-discovery.js] is exact on a chain: it answers
    whether some block of the interval carries a watched event. *)
Lemma checkBlockRangeForActivity_exact (k : nat) :
  forall fromBlock toBlock,
    toBlock - fromBlock <= Z.of_nat k ->
    BlockDiscovery.checkBlockRangeForActivity this (S k) fromBlock toBlock tt
    = (Done (existsb active (blocksFromTo fromBlock toBlock)), tt).
Proof.
  induction k as [| k IH]; intros fromBlock toBlock Hspan;
    rewrite checkBlockRangeForActivity_unfold;
    unfold try_catch, bind at 1, await; rewrite chain_answer;
    (destruct limit as [w |]; [| unfold ret; rewrite chainLogs_some; reflexivity]);
    (destruct (Z.ltb_spec w (toBlock - fromBlock)) as [Hwide | Hfits];
       [| unfold ret; rewrite chainLogs_some; reflexivity]);
    cbn in limit_ok.
  - lia.
  - change (includes "query exceeds max block range" "query exceeds") with true. cbv iota.
    destruct (midpoint_halves fromBlock toBlock k ltac:(lia)) as [Hleft Hright].
    unfold bind. rewrite (IH _ _ Hleft), (IH _ _ Hright). unfold ret.
    rewrite (blocksFromTo_split fromBlock ((fromBlock + toBlock) / 2) toBlock)
      by (Z.div_mod_to_equations; lia).
    rewrite existsb_app. reflexivity.
Qed.

(** The loop returns on a chain: past the fuel of one probe, one unit per
    remaining block is more than enough. *)
Lemma subdivideActiveRegion_loop_returns (chunkSize endBlock : Z) (n : nat) :
  0 < chunkSize ->
  forall (i : Z) (ranges : list Range.t),
    endBlock - i + 1 <= Z.of_nat n ->
    exists result,
      BlockDiscovery.subdivideActiveRegion_loop this (S (Z.to_nat chunkSize + n))
        chunkSize i endBlock ranges tt
      = (Done result, tt).
Proof.
  intros Hpos. induction n as [| n IH]; intros i ranges Hn;
    rewrite subdivideActiveRegion_loop_unfold;
    (destruct (Z.leb_spec i endBlock) as [Hin | Hout]; [| eexists; reflexivity]).
  - lia.
  - cbv zeta. unfold bind.
    destruct (checkBlockRangeForActivity_returns (Z.to_nat chunkSize)
                i (Z.min (i + chunkSize - 1) endBlock) ltac:(lia)) as [hasActivity Hprobe].
    rewrite (refines_run
               (fun m => BlockDiscovery.checkBlockRangeForActivity this m i
                           (Z.min (i + chunkSize - 1) endBlock))
               (S (Z.to_nat chunkSize)) tt tt (Done hasActivity)
               (fun m => BlockDiscoveryFacts.checkBlockRangeForActivity_step this m _ _)
               Hprobe ltac:(discriminate) (Z.to_nat chunkSize + S n)%nat ltac:(lia)).
    rewrite Nat.add_succ_r. apply IH. lia.
Qed.

Lemma app_copy_subdivideActiveRegion_loop_returns (chunkSize endBlock : Z) (n : nat) :
  0 < chunkSize ->
  forall (i : Z) (ranges : list Range.t),
    endBlock - i + 1 <= Z.of_nat n ->
    exists result,
      AppDiscovery.subdivideActiveRegion_loop this (S (Z.to_nat chunkSize + n))
        chunkSize i endBlock ranges tt
      = (Done result, tt).
Proof.
  intros Hpos. induction n as [| n IH]; intros i ranges Hn;
    rewrite app_copy_subdivideActiveRegion_loop_unfold;
    (destruct (Z.leb_spec i endBlock) as [Hin | Hout]; [| eexists; reflexivity]).
  - lia.
  - cbv zeta. unfold bind.
    destruct (app_copy_checkBlockRangeForActivity_returns (Z.to_nat chunkSize)
                i (Z.min (i + chunkSize - 1) endBlock) ltac:(lia)) as [hasActivity Hprobe].
    rewrite (refines_run
               (fun m => AppDiscovery.checkBlockRangeForActivity this m i
                           (Z.min (i + chunkSize - 1) endBlock))
               (S (Z.to_nat chunkSize)) tt tt (Done hasActivity)
               (fun m => app_copy_checkBlockRangeForActivity_step this m _ _)
               Hprobe ltac:(discriminate) (Z.to_nat chunkSize + S n)%nat ltac:(lia)).
    rewrite Nat.add_succ_r. apply IH. lia.
Qed.

End Chain.

(** C10.  On a chain given by any activity predicate (whose provider, if it
    limits the span of a query, admits single blocks),
    [subdivideActiveRegion] returns, and the ranges it returns are listed
    in ascending order, each ending before the next starts; each lies
    within [startBlock, endBlock], has at most 5000 blocks, and records its
    length [end - start + 1] in [blocks].  The same holds of the
    controller's copy. *)
Theorem subdivideActiveRegion_ranges_disjoint_ascending_bounded :
  forall (active : Z -> bool) (limit : option Z) (head : Z) (vaultAddress : string)
         (startBlock endBlock : Z),
    admitsSingleBlocks limit ->
    startBlock <= endBlock ->
    let this := new_VaultBlockDiscovery (chainProvider active limit head) vaultAddress in
    (exists (fuel : nat) (ranges : list Range.t),
        (forall fuel', (fuel <= fuel')%nat ->
           BlockDiscovery.subdivideActiveRegion this fuel' startBlock endBlock tt
           = (Done ranges, tt))
        /\ StronglySorted before ranges
        /\ Forall (chunkWithin 5000 startBlock endBlock) ranges)
    /\ (exists (fuel : nat) (ranges : list Range.t),
        (forall fuel', (fuel <= fuel')%nat ->
           AppDiscovery.subdivideActiveRegion this fuel' startBlock endBlock tt
           = (Done ranges, tt))
        /\ StronglySorted before ranges
        /\ Forall (chunkWithin 5000 startBlock endBlock) ranges).
Proof.
  intros active limit head vaultAddress startBlock endBlock Hlimit _ this.
  split.
  - destruct (subdivideActiveRegion_loop_returns active limit head vaultAddress Hlimit
                5000 endBlock (Z.to_nat (endBlock - startBlock + 1)) ltac:(lia)
                startBlock [] ltac:(lia)) as [ranges Hrun].
    exists (S (Z.to_nat 5000 + Z.to_nat (endBlock - startBlock + 1))), ranges.
    destruct (Subdivision.subdivideActiveRegion_shape this _ startBlock endBlock ranges tt tt
                ltac:(reflexivity) Hrun) as [Hall Hsorted].
    split; [| split; assumption].
    intros fuel' Hfuel.
    apply (refines_run (fun m => BlockDiscovery.subdivideActiveRegion this m startBlock endBlock)
             (S (Z.to_nat 5000 + Z.to_nat (endBlock - startBlock + 1))));
      [intros m; apply BlockDiscoveryFacts.subdivideActiveRegion_step
      | exact Hrun | discriminate | exact Hfuel].
  - destruct (app_copy_subdivideActiveRegion_loop_returns active limit head vaultAddress Hlimit
                5000 endBlock (Z.to_nat (endBlock - startBlock + 1)) ltac:(lia)
                startBlock [] ltac:(lia)) as [ranges Hrun].
    exists (S (Z.to_nat 5000 + Z.to_nat (endBlock - startBlock + 1))), ranges.
    destruct (Subdivision.app_copy_subdivideActiveRegion_shape this _ startBlock endBlock
                ranges tt tt ltac:(reflexivity) Hrun) as [Hall Hsorted].
    split; [| split; assumption].
    intros fuel' Hfuel.
    apply (refines_run (fun m => AppDiscovery.subdivideActiveRegion this m startBlock endBlock)
             (S (Z.to_nat 5000 + Z.to_nat (endBlock - startBlock + 1))));
      [intros m; apply app_copy_subdivideActiveRegion_loop_step
      | exact Hrun | discriminate | exact Hfuel].
Qed.

Lemma subdivideActiveRegion_witness :
  let this :=
    new_VaultBlockDiscovery (chainProvider (fun b => b =? 7000) (Some 1000) 20000) "0xVAULT" in
  (exists (fuel : nat) (ranges : list Range.t),
      (forall fuel', (fuel <= fuel')%nat ->
         BlockDiscovery.subdivideActiveRegion this fuel' 0 12000 tt = (Done ranges, tt))
      /\ StronglySorted before ranges
      /\ Forall (chunkWithin 5000 0 12000) ranges)
  /\ (exists (fuel : nat) (ranges : list Range.t),
      (forall fuel', (fuel <= fuel')%nat ->
         AppDiscovery.subdivideActiveRegion this fuel' 0 12000 tt = (Done ranges, tt))
      /\ StronglySorted before ranges
      /\ Forall (chunkWithin 5000 0 12000) ranges).
Proof.
  apply (subdivideActiveRegion_ranges_disjoint_ascending_bounded
           (fun b => b =? 7000) (Some 1000) 20000 "0xVAULT" 0 12000).
  - cbn. lia.
  - lia.
Defined.

Example subdivideActiveRegion_example :
  BlockDiscovery.subdivideActiveRegion
    (new_VaultBlockDiscovery (chainProvider (fun b => b =? 7000) (Some 1000) 20000) "0xVAULT")
    20 0 12000 tt
  = (Done [Range.mk 5000 9999 5000], tt).
Proof. vm_compute. reflexivity. Qed.

End OnChain.

(* ================================================================= *)
(** * Part III: the rest of the code *)
(* ================================================================= *)

(** ** Convergence *)

Lemma converges_ret {St A} (a : A) (s : St) : converges (fun _ => ret a) s a s.
Proof. exists 0%nat. intros fuel _. reflexivity. Qed.

Lemma converges_bind {St A B} (m : nat -> M St A) (k : nat -> A -> M St B)
    (s s1 s2 : St) (a : A) (b : B) :
  converges m s a s1 -> converges (fun fuel => k fuel a) s1 b s2 ->
  converges (fun fuel => bind (m fuel) (k fuel)) s b s2.
Proof.
  intros [n Hm] [n' Hk]. exists (Nat.max n n'). intros fuel Hfuel.
  unfold bind. rewrite Hm by lia. apply Hk. lia.
Qed.

Lemma converges_S {St A} (m : nat -> M St A) (s s' : St) (a : A) :
  converges (fun fuel => m (S fuel)) s a s' -> converges m s a s'.
Proof.
  intros [n Hm]. exists (S n). intros [| fuel] Hfuel; [lia |]. apply Hm. lia.
Qed.

Lemma converges_unique {St A} (m : nat -> M St A) (s s1 s2 : St) (a1 a2 : A) :
  converges m s a1 s1 -> converges m s a2 s2 -> a1 = a2 /\ s1 = s2.
Proof.
  intros [n1 H1] [n2 H2].
  specialize (H1 (Nat.max n1 n2) ltac:(lia)). specialize (H2 (Nat.max n1 n2) ltac:(lia)).
  rewrite H1 in H2. injection H2 as -> ->. split; reflexivity.
Qed.

(** ** The controller's copy of the discovery always returns *)

Module AppTotality.
Import AppDiscovery.

Section AnyProvider.
Context {St : Type} (this : VaultBlockDiscovery St).

(** The probe never rejects: every error of the provider is answered. *)
Lemma app_probe_neverThrows (fuel : nat) :
  forall fromBlock toBlock, neverThrows (checkBlockRangeForActivity this fuel fromBlock toBlock).
Proof.
  induction fuel as [| fuel IH]; intros fromBlock toBlock s e s'; [discriminate |].
  rewrite OnChain.app_copy_checkBlockRangeForActivity_unfold. unfold try_catch, bind at 1, await.
  destruct (getLogs (provider this) (activityFilter this fromBlock toBlock) s)
    as [[logs | message] s1]; [discriminate |].
  destruct (includes message "query exceeds" || includes message "max results");
    [| discriminate].
  cbv zeta. destruct ((fromBlock + toBlock) / 2 =? fromBlock); [discriminate |].
  unfold bind.
  destruct (checkBlockRangeForActivity this fuel fromBlock ((fromBlock + toBlock) / 2) s1)
    as [[firstHalf | e1 |] s2] eqn:H1; [| exfalso; exact (IH _ _ _ _ _ H1) | discriminate].
  destruct (checkBlockRangeForActivity this fuel ((fromBlock + toBlock) / 2 + 1) toBlock s2)
    as [[secondHalf | e2 |] s3] eqn:H2; [discriminate | exfalso; exact (IH _ _ _ _ _ H2)
                                        | discriminate].
Qed.

(** On an interval whose ends are in order, [k + 1] units of fuel are
    enough for a span of at most [k] blocks, whatever the provider does. *)
Lemma app_probe_returns (k : nat) :
  forall fromBlock toBlock s,
    fromBlock <= toBlock -> toBlock - fromBlock <= Z.of_nat k ->
    exists hasActivity s',
      forall fuel, (S k <= fuel)%nat ->
        checkBlockRangeForActivity this fuel fromBlock toBlock s = (Done hasActivity, s').
Proof.
  induction k as [| k IH]; intros fromBlock toBlock s Horder Hspan.
  - assert (Hmid : ((fromBlock + toBlock) / 2 =? fromBlock) = true)
      by (apply Z.eqb_eq; Z.div_mod_to_equations; lia).
    destruct (getLogs (provider this) (activityFilter this fromBlock toBlock) s)
      as [[logs | message] s1] eqn:Hq.
    + exists (0 <? Z.of_nat (length logs)), s1. intros [| fuel] Hfuel; [lia |].
      rewrite OnChain.app_copy_checkBlockRangeForActivity_unfold. unfold try_catch, bind at 1, await.
      rewrite Hq. reflexivity.
    + exists false, s1. intros [| fuel] Hfuel; [lia |].
      rewrite OnChain.app_copy_checkBlockRangeForActivity_unfold. unfold try_catch, bind at 1, await.
      rewrite Hq. cbv zeta. rewrite Hmid.
      destruct (includes message "query exceeds" || includes message "max results");
        reflexivity.
  - destruct (getLogs (provider this) (activityFilter this fromBlock toBlock) s)
      as [[logs | message] s1] eqn:Hq.
    + exists (0 <? Z.of_nat (length logs)), s1. intros [| fuel] Hfuel; [lia |].
      rewrite OnChain.app_copy_checkBlockRangeForActivity_unfold. unfold try_catch, bind at 1, await.
      rewrite Hq. reflexivity.
    + destruct (includes message "query exceeds" || includes message "max results") eqn:Hrange.
      * destruct (Z.eqb_spec ((fromBlock + toBlock) / 2) fromBlock) as [Hmid | Hmid].
        -- exists false, s1. intros [| fuel] Hfuel; [lia |].
           rewrite OnChain.app_copy_checkBlockRangeForActivity_unfold. unfold try_catch, bind at 1, await.
           rewrite Hq, Hrange. cbv zeta. rewrite Hmid, Z.eqb_refl. reflexivity.
        -- assert (Hhalves : fromBlock <= (fromBlock + toBlock) / 2
                             /\ (fromBlock + toBlock) / 2 - fromBlock <= Z.of_nat k
                             /\ (fromBlock + toBlock) / 2 + 1 <= toBlock
                             /\ toBlock - ((fromBlock + toBlock) / 2 + 1) <= Z.of_nat k)
             by (Z.div_mod_to_equations; lia).
           destruct Hhalves as (Ho1 & Hs1 & Ho2 & Hs2).
           destruct (IH fromBlock ((fromBlock + toBlock) / 2) s1 Ho1 Hs1)
             as (firstHalf & s2 & Hfirst).
           destruct (IH ((fromBlock + toBlock) / 2 + 1) toBlock s2 Ho2 Hs2)
             as (secondHalf & s3 & Hsecond).
           exists (firstHalf || secondHalf), s3. intros [| fuel] Hfuel; [lia |].
           rewrite OnChain.app_copy_checkBlockRangeForActivity_unfold. unfold try_catch, bind at 1, await.
           rewrite Hq, Hrange. cbv zeta.
           destruct (Z.eqb_spec ((fromBlock + toBlock) / 2) fromBlock) as [Heq | _];
             [contradiction |].
           unfold bind. rewrite Hfirst by lia. rewrite Hsecond by lia. reflexivity.
      * exists false, s1. intros [| fuel] Hfuel; [lia |].
        rewrite OnChain.app_copy_checkBlockRangeForActivity_unfold. unfold try_catch, bind at 1, await.
        rewrite Hq, Hrange. reflexivity.
Qed.

End AnyProvider.

(** X1.  The controller's copy of [checkBlockRangeForActivity] never
    rejects, and on an interval [fromBlock <= toBlock] it returns whatever
    the provider answers, within [toBlock - fromBlock + 1] units of fuel:
    the guard on the midpoint stops the splitting. *)
Theorem app_copy_probe_always_returns :
  forall (St : Type) (this : VaultBlockDiscovery St) (fromBlock toBlock : Z) (s : St),
    fromBlock <= toBlock ->
    (exists hasActivity s',
        forall fuel, (S (Z.to_nat (toBlock - fromBlock)) <= fuel)%nat ->
          checkBlockRangeForActivity this fuel fromBlock toBlock s = (Done hasActivity, s'))
    /\ forall fuel e s',
         checkBlockRangeForActivity this fuel fromBlock toBlock s <> (Throw e, s').
Proof.
  intros St this fromBlock toBlock s Horder. split.
  - apply app_probe_returns; [exact Horder | lia].
  - intros fuel e s'. apply app_probe_neverThrows.
Qed.

Lemma app_copy_probe_witness :
  (exists hasActivity s',
      forall fuel, (S (Z.to_nat (6999 - 5000)) <= fuel)%nat ->
        checkBlockRangeForActivity alwaysTooLarge fuel 5000 6999 tt = (Done hasActivity, s'))
  /\ forall fuel e s',
       checkBlockRangeForActivity alwaysTooLarge fuel 5000 6999 tt <> (Throw e, s').
Proof.
  apply (app_copy_probe_always_returns unit alwaysTooLarge 5000 6999 tt). lia.
Defined.

End AppTotality.

Lemma converges_try_catch {St A} (m : nat -> M St A) (h : nat -> string -> M St A)
    (s s' : St) (a : A) :
  converges m s a s' -> converges (fun fuel => try_catch (m fuel) (h fuel)) s a s'.
Proof.
  intros [n Hm]. exists n. intros fuel Hfuel. unfold try_catch. rewrite Hm by exact Hfuel.
  reflexivity.
Qed.

Lemma converges_ext {St A} (m m' : nat -> M St A) (s s' : St) (a : A) :
  (forall fuel, m' fuel s = m fuel s) -> converges m s a s' -> converges m' s a s'.
Proof.
  intros Hext [n Hm]. exists n. intros fuel Hfuel. rewrite Hext. apply Hm. exact Hfuel.
Qed.

Module AppLoops.
Import AppDiscovery.

Section AnyProvider.
Context {St : Type} (this : VaultBlockDiscovery St).
Hypothesis width_ok : 0 <= maxBlockRange this.

Lemma app_probe_converges (fromBlock toBlock : Z) (s : St) :
  fromBlock <= toBlock ->
  exists hasActivity s',
    converges (fun fuel => checkBlockRangeForActivity this fuel fromBlock toBlock)
              s hasActivity s'.
Proof.
  intros Horder.
  destruct (AppTotality.app_probe_returns this (Z.to_nat (toBlock - fromBlock))
              fromBlock toBlock s Horder ltac:(lia)) as (h & s' & Hrun).
  exists h, s', (S (Z.to_nat (toBlock - fromBlock))). exact Hrun.
Qed.

Lemma app_first_loop_converges (n : nat) :
  forall (left right result : Z) (s : St),
    right - left + 1 <= Z.of_nat n ->
    exists found s',
      converges (fun fuel => binarySearchFirstActivity_loop this fuel left right result)
                s found s'.
Proof.
  induction n as [| n IH]; intros left right result s Hspan;
    destruct (Z.leb_spec left right) as [Hle | Hgt]; try lia.
  - exists result, s, 1%nat. intros [| fuel] Hfuel; [lia |].
    cbn [binarySearchFirstActivity_loop].
    destruct (Z.leb_spec left right); [lia | reflexivity].
  - assert (Hmid : left <= (left + right) / 2 <= right) by (Z.div_mod_to_equations; lia).
    destruct (app_probe_converges ((left + right) / 2)
                (Z.min ((left + right) / 2 + maxBlockRange this) right) s ltac:(lia))
      as (hasActivity & s1 & n1 & Hprobe).
    destruct hasActivity.
    + destruct (IH left ((left + right) / 2 - 1) ((left + right) / 2) s1 ltac:(lia))
        as (found & s' & n2 & Hrec).
      exists found, s', (S (Nat.max n1 n2)). intros [| fuel] Hfuel; [lia |].
      cbn [binarySearchFirstActivity_loop].
      destruct (Z.leb_spec left right); [| lia].
      cbv zeta. unfold bind. rewrite Hprobe by lia. apply Hrec. lia.
    + destruct (IH (Z.min ((left + right) / 2 + maxBlockRange this) right + 1) right result s1
                  ltac:(lia)) as (found & s' & n2 & Hrec).
      exists found, s', (S (Nat.max n1 n2)). intros [| fuel] Hfuel; [lia |].
      cbn [binarySearchFirstActivity_loop].
      destruct (Z.leb_spec left right); [| lia].
      cbv zeta. unfold bind. rewrite Hprobe by lia. apply Hrec. lia.
  - exists result, s, 1%nat. intros [| fuel] Hfuel; [lia |].
    cbn [binarySearchFirstActivity_loop].
    destruct (Z.leb_spec left right); [lia | reflexivity].
Qed.

Lemma app_last_loop_converges (n : nat) :
  forall (left right result : Z) (s : St),
    right - left + 1 <= Z.of_nat n ->
    exists found s',
      converges (fun fuel => binarySearchLastActivity_loop this fuel left right result)
                s found s'.
Proof.
  induction n as [| n IH]; intros left right result s Hspan;
    destruct (Z.leb_spec left right) as [Hle | Hgt]; try lia.
  - exists result, s, 1%nat. intros [| fuel] Hfuel; [lia |].
    cbn [binarySearchLastActivity_loop].
    destruct (Z.leb_spec left right); [lia | reflexivity].
  - assert (Hmid : left <= (left + right) / 2 <= right) by (Z.div_mod_to_equations; lia).
    destruct (app_probe_converges (Z.max ((left + right) / 2 - maxBlockRange this) left)
                ((left + right) / 2) s ltac:(lia))
      as (hasActivity & s1 & n1 & Hprobe).
    destruct hasActivity.
    + destruct (IH ((left + right) / 2 + 1) right ((left + right) / 2) s1 ltac:(lia))
        as (found & s' & n2 & Hrec).
      exists found, s', (S (Nat.max n1 n2)). intros [| fuel] Hfuel; [lia |].
      cbn [binarySearchLastActivity_loop].
      destruct (Z.leb_spec left right); [| lia].
      cbv zeta. unfold bind. rewrite Hprobe by lia. apply Hrec. lia.
    + destruct (IH left ((left + right) / 2 - maxBlockRange this - 1) result s1 ltac:(lia))
        as (found & s' & n2 & Hrec).
      exists found, s', (S (Nat.max n1 n2)). intros [| fuel] Hfuel; [lia |].
      cbn [binarySearchLastActivity_loop].
      destruct (Z.leb_spec left right); [| lia].
      cbv zeta. unfold bind. rewrite Hprobe by lia. apply Hrec. lia.
  - exists result, s, 1%nat. intros [| fuel] Hfuel; [lia |].
    cbn [binarySearchLastActivity_loop].
    destruct (Z.leb_spec left right); [lia | reflexivity].
Qed.

Lemma app_findActivityBoundaries_converges (fromBlock toBlock : Z) (s : St) :
  exists boundaries s',
    converges (fun fuel => findActivityBoundaries this fuel fromBlock toBlock) s boundaries s'.
Proof.
  destruct (app_first_loop_converges (Z.to_nat (toBlock - fromBlock + 1))
              fromBlock toBlock (-1) s ltac:(lia)) as (firstActive & s1 & Hfirst).
  destruct (Z.eqb_spec firstActive (-1)) as [Hnone | Hsome].
  - exists [], s1. unfold findActivityBoundaries.
    eapply (converges_bind _ (fun fuel firstActive => if firstActive =? -1 then ret [] else _));
      [exact Hfirst |].
    cbv beta. rewrite Hnone. apply converges_ret.
  - destruct (app_last_loop_converges (Z.to_nat (toBlock - firstActive + 1))
                firstActive toBlock firstActive s1 ltac:(lia)) as (lastActive & s2 & Hlast).
    exists [Boundary.mk firstActive lastActive (lastActive - firstActive + 1)], s2.
    unfold findActivityBoundaries.
    eapply (converges_bind _ (fun fuel firstActive =>
              if firstActive =? -1 then ret []
              else let* lastActive := binarySearchLastActivity this fuel firstActive toBlock in
                   ret [Boundary.mk firstActive lastActive (lastActive - firstActive + 1)]));
      [exact Hfirst |].
    cbv beta. destruct (Z.eqb_spec firstActive (-1)); [contradiction |].
    eapply (converges_bind _ (fun fuel lastActive =>
              ret [Boundary.mk firstActive lastActive (lastActive - firstActive + 1)]));
      [exact Hlast | apply converges_ret].
Qed.

Lemma app_subdivide_loop_converges (chunkSize endBlock : Z) (n : nat) :
  0 < chunkSize ->
  forall (i : Z) (ranges : list Range.t) (s : St),
    endBlock - i + 1 <= Z.of_nat n ->
    exists result s',
      converges (fun fuel => subdivideActiveRegion_loop this fuel chunkSize i endBlock ranges)
                s result s'.
Proof.
  intros Hpos. induction n as [| n IH]; intros i ranges s Hspan;
    destruct (Z.leb_spec i endBlock) as [Hle | Hgt]; try lia.
  - exists ranges, s, 1%nat. intros [| fuel] Hfuel; [lia |].
    cbn [subdivideActiveRegion_loop]. destruct (Z.leb_spec i endBlock); [lia | reflexivity].
  - destruct (app_probe_converges i (Z.min (i + chunkSize - 1) endBlock) s ltac:(lia))
      as (hasActivity & s1 & n1 & Hprobe).
    destruct (IH (i + chunkSize)
                (if hasActivity
                 then ranges ++ [Range.mk i (Z.min (i + chunkSize - 1) endBlock)
                                   (Z.min (i + chunkSize - 1) endBlock - i + 1)]
                 else ranges) s1 ltac:(lia)) as (result & s' & n2 & Hrec).
    exists result, s', (S (Nat.max n1 n2)). intros [| fuel] Hfuel; [lia |].
    cbn [subdivideActiveRegion_loop]. destruct (Z.leb_spec i endBlock); [| lia].
    cbv zeta. unfold bind. rewrite Hprobe by lia. apply Hrec. lia.
  - exists ranges, s, 1%nat. intros [| fuel] Hfuel; [lia |].
    cbn [subdivideActiveRegion_loop]. destruct (Z.leb_spec i endBlock); [lia | reflexivity].
Qed.

Lemma app_subdivideBoundaries_converges (width_pos : 0 < maxBlockRange this)
    (boundaries : list Boundary.t) :
  forall (activeRanges : list Range.t) (s : St),
    exists result s',
      converges (fun fuel => subdivideBoundaries this fuel boundaries activeRanges) s result s'.
Proof.
  induction boundaries as [| boundary rest IH]; intros activeRanges s.
  - exists activeRanges, s. apply converges_ret.
  - destruct (app_subdivide_loop_converges (Z.min (maxBlockRange this) 5000)
                (Boundary.end_ boundary)
                (Z.to_nat (Boundary.end_ boundary - Boundary.start boundary + 1))
                ltac:(lia) (Boundary.start boundary) [] s ltac:(lia))
      as (detailed & s1 & Hsub).
    destruct (IH (activeRanges ++ detailed) s1) as (result & s' & Hrec).
    exists result, s'. cbn [subdivideBoundaries].
    eapply (converges_bind _ (fun fuel detailedRanges =>
              subdivideBoundaries this fuel rest (activeRanges ++ detailedRanges)));
      [exact Hsub | exact Hrec].
Qed.

Lemma app_discoverActiveBlocks_converges (width_pos : 0 < maxBlockRange this)
    (fromBlock toBlock : Z) (s : St) :
  exists ranges s',
    converges (fun fuel => discoverActiveBlocks this fuel fromBlock (Some toBlock)) s ranges s'.
Proof.
  destruct (app_findActivityBoundaries_converges fromBlock toBlock s)
    as (boundaries & s1 & Hfind).
  destruct (app_subdivideBoundaries_converges width_pos boundaries [] s1)
    as (subdivided & s2 & Hsub).
  exists (if (length boundaries =? 0)%nat then [] else subdivided),
         (if (length boundaries =? 0)%nat then s1 else s2).
  unfold discoverActiveBlocks.
  eapply (converges_ext (fun fuel => try_catch
            (let* boundaries := findActivityBoundaries this fuel fromBlock toBlock in
             if (length boundaries =? 0)%nat then ret []
             else subdivideBoundaries this fuel boundaries [])
            (fun _ : string => ret []))); [intros fuel; reflexivity |].
  apply converges_try_catch.
  eapply (converges_bind _ (fun fuel boundaries =>
            if (length boundaries =? 0)%nat then ret []
            else subdivideBoundaries this fuel boundaries [])); [exact Hfind |].
  cbv beta. destruct (length boundaries =? 0)%nat; [apply converges_ret | exact Hsub].
Qed.

End AnyProvider.
End AppLoops.

(** ** The chunked scanner on any provider *)

Module ScanTotality.
Import VaultTracker.

Section AnyProvider.
Context {St : Type} (p : Provider St) (iface : Interface).

Lemma chunkLogs_returns (address : string) (start end_ : Z) (s : St) :
  exists logs s', chunkLogs p iface address start end_ s = (Done logs, s').
Proof.
  unfold chunkLogs, try_catch, bind at 1, await.
  destruct (getLogs p (scanFilter iface address start end_) s) as [[logs | e] s1];
    [eexists; eexists; reflexivity |].
  destruct (500 <? end_ - start); [| eexists; eexists; reflexivity].
  cbv zeta. unfold bind, catch_with.
  destruct (getLogs p (scanFilter iface address start ((start + end_) / 2)) s1)
    as [[first | e1] s2];
    destruct (getLogs p (scanFilter iface address ((start + end_) / 2 + 1) end_) s2)
      as [[second | e2] s3]; eexists; eexists; reflexivity.
Qed.

Lemma scan_loop_converges (address : string) (toBlock : Z) (n : nat) :
  forall (start : Z) (acc : Scan.t) (s : St),
    toBlock - start + 1 <= Z.of_nat n * chunkSize ->
    exists result s',
      forall fuel, (S n <= fuel)%nat ->
        scanByChunksWithTopics_loop p iface fuel address start toBlock acc s
        = (Done result, s').
Proof.
  unfold chunkSize.
  induction n as [| n IH]; intros start acc s Hspan;
    destruct (Z.leb_spec start toBlock) as [Hle | Hgt]; try lia.
  - exists acc, s. intros [| fuel] Hfuel; [lia |].
    cbn [scanByChunksWithTopics_loop]. destruct (Z.leb_spec start toBlock); [lia | reflexivity].
  - destruct (chunkLogs_returns address start (Z.min (start + chunkSize - 1) toBlock) s)
      as (logs & s1 & Hchunk).
    destruct (IH (start + chunkSize)
                (match logs with Some logs => classifyLogs iface logs acc | None => acc end)
                s1 ltac:(unfold chunkSize; lia)) as (result & s' & Hrec).
    exists result, s'. intros [| fuel] Hfuel; [lia |].
    cbn [scanByChunksWithTopics_loop]. destruct (Z.leb_spec start toBlock); [| lia].
    cbv zeta. unfold bind. rewrite Hchunk.
    destruct logs; apply Hrec; lia.
  - exists acc, s. intros [| fuel] Hfuel; [lia |].
    cbn [scanByChunksWithTopics_loop]. destruct (Z.leb_spec start toBlock); [lia | reflexivity].
Qed.

(** The scan returns on every provider, within one unit of fuel per chunk
    and one more. *)
Lemma scanByChunksWithTopics_converges (vaultContract : Contract) (fromBlock toBlock : Z)
    (s : St) :
  exists result s',
    forall fuel, (S (Z.to_nat ((toBlock - fromBlock) / 2000 + 1)) <= fuel)%nat ->
      scanByChunksWithTopics p iface fuel vaultContract fromBlock toBlock s = (Done result, s').
Proof.
  unfold scanByChunksWithTopics.
  apply scan_loop_converges. unfold chunkSize.
  destruct (Z.le_gt_cases fromBlock toBlock) as [Hle | Hgt].
  - rewrite Z2Nat.id by (Z.div_mod_to_equations; lia). Z.div_mod_to_equations. lia.
  - lia.
Qed.

End AnyProvider.

Section Traced.
Context {St : Type} (p : Provider St) (iface : Interface).

Lemma chunkLogs_queries (address : string) (start end_ : Z) (s s' : St)
    (tr tr' : list Filter) (r : outcome (option (list RawLog))) :
  start <= end_ ->
  chunkLogs (traced p) iface address start end_ (s, tr) = (r, (s', tr')) ->
  exists queries,
    tr' = tr ++ queries
    /\ Forall (queryWithin address start end_ (end_ - start + 1)) queries.
Proof.
  intros Horder Hrun.
  assert (Hwhole : queryWithin address start end_ (end_ - start + 1)
                     (scanFilter iface address start end_))
    by (unfold queryWithin, scanFilter; cbn; split; [reflexivity | lia]).
  unfold chunkLogs, try_catch, bind at 1, await in Hrun.
  cbn [traced getLogs] in Hrun.
  destruct (getLogs p (scanFilter iface address start end_) s) as [[logs | e] s1].
  - injection Hrun as _ <- <-. exists [scanFilter iface address start end_].
    split; [reflexivity | constructor; [exact Hwhole | constructor]].
  - destruct (Z.ltb_spec 500 (end_ - start)) as [Hwide | Hnarrow].
    + cbv zeta in Hrun. unfold bind, catch_with in Hrun. cbn [traced getLogs] in Hrun.
      assert (Hmid : start <= (start + end_) / 2 /\ (start + end_) / 2 + 1 <= end_)
        by (Z.div_mod_to_equations; lia).
      destruct (getLogs p (scanFilter iface address start ((start + end_) / 2)) s1)
        as [[first | e1] s2];
        destruct (getLogs p (scanFilter iface address ((start + end_) / 2 + 1) end_) s2)
          as [[second | e2] s3];
        injection Hrun as _ <- <-;
        exists [scanFilter iface address start end_;
                scanFilter iface address start ((start + end_) / 2);
                scanFilter iface address ((start + end_) / 2 + 1) end_];
        (split; [rewrite <- !app_assoc; reflexivity |]);
        repeat (constructor; [unfold queryWithin, scanFilter; cbn; split; [reflexivity | lia] |]);
        constructor.
    + injection Hrun as _ <- <-. exists [scanFilter iface address start end_].
      split; [reflexivity | constructor; [exact Hwhole | constructor]].
Qed.

Lemma scan_loop_queries (address : string) (toBlock lo : Z) (fuel : nat) :
  forall (start : Z) (acc : Scan.t) (s s' : St) (tr tr' : list Filter) (r : outcome Scan.t),
    lo <= start ->
    scanByChunksWithTopics_loop (traced p) iface fuel address start toBlock acc (s, tr)
    = (r, (s', tr')) ->
    exists queries,
      tr' = tr ++ queries /\ Forall (queryWithin address lo toBlock chunkSize) queries.
Proof.
  induction fuel as [| fuel IH]; intros start acc s s' tr tr' r Hlo Hrun.
  - injection Hrun as _ <- <-. exists []. rewrite app_nil_r. split; [reflexivity | constructor].
  - cbn [scanByChunksWithTopics_loop] in Hrun.
    destruct (Z.leb_spec start toBlock) as [Hle | Hgt].
    + cbv zeta in Hrun. unfold bind at 1 in Hrun.
      destruct (chunkLogs (traced p) iface address start
                  (Z.min (start + chunkSize - 1) toBlock) (s, tr))
        as [chunk [s1 tr1]] eqn:Hchunk.
      apply chunkLogs_queries in Hchunk; [| unfold chunkSize; lia].
      destruct Hchunk as (qs1 & -> & Hqs1).
      assert (Hqs1' : Forall (queryWithin address lo toBlock chunkSize) qs1).
      { eapply Forall_impl; [exact Hqs1 |]. unfold queryWithin, chunkSize.
        intros q (Ha & H1 & H2 & H3 & H4). repeat split; try assumption; lia. }
      destruct chunk as [[logs |] | e |].
      * apply IH in Hrun; [| unfold chunkSize; lia].
        destruct Hrun as (qs2 & -> & Hqs2). exists (qs1 ++ qs2).
        split; [rewrite app_assoc; reflexivity | apply Forall_app; split; assumption].
      * apply IH in Hrun; [| unfold chunkSize; lia].
        destruct Hrun as (qs2 & -> & Hqs2). exists (qs1 ++ qs2).
        split; [rewrite app_assoc; reflexivity | apply Forall_app; split; assumption].
      * injection Hrun as _ <- <-. exists qs1. split; [reflexivity | exact Hqs1'].
      * injection Hrun as _ <- <-. exists qs1. split; [reflexivity | exact Hqs1'].
    + injection Hrun as _ <- <-. exists []. rewrite app_nil_r.
      split; [reflexivity | constructor].
Qed.

End Traced.

(** X2.  [scanByChunksWithTopics] returns on every provider, with one unit
    of fuel per chunk of 2000 blocks and one more, and never rejects; every
    query it issues is for the contract's address, lies inside
    [fromBlock, toBlock] and spans fewer than 2000 blocks. *)
Theorem scanByChunksWithTopics_total_and_bounded :
  forall (St : Type) (p : Provider St) (iface : Interface) (vaultContract : Contract)
         (fromBlock toBlock : Z) (s : St) (tr : list Filter),
  exists (result : Scan.t) (s' : St) (queries : list Filter),
    (forall fuel, (S (Z.to_nat ((toBlock - fromBlock) / 2000 + 1)) <= fuel)%nat ->
       scanByChunksWithTopics (traced p) iface fuel vaultContract fromBlock toBlock (s, tr)
       = (Done result, (s', tr ++ queries)))
    /\ Forall (queryWithin (contractTarget vaultContract) fromBlock toBlock 2000) queries.
Proof.
  intros St p iface vaultContract fromBlock toBlock s tr.
  destruct (scanByChunksWithTopics_converges (traced p) iface vaultContract fromBlock toBlock
              (s, tr)) as (result & [s' tr'] & Hrun).
  pose proof (Hrun _ (Nat.le_refl _)) as Hone.
  unfold scanByChunksWithTopics in Hone.
  apply scan_loop_queries with (lo := fromBlock) in Hone; [| lia].
  destruct Hone as (queries & -> & Hqueries).
  exists result, s', queries. split; [exact Hrun | exact Hqueries].
Qed.

End ScanTotality.

(** ** The orchestration of [app.js] *)

Module Orchestration.
Import VaultTracker.

Section AnyProvider.
Context {St : Type} (p : Provider St) (iface : Interface).
Context (vaultAddressInput blockRange : string).

Lemma controller_discoverActiveBlocks_converges (vaultAddress : string) (s : St) :
  exists ranges s',
    converges (fun fuel => discoverActiveBlocks p fuel vaultAddress) s ranges s'.
Proof.
  unfold discoverActiveBlocks.
  destruct (getBlockNumber p s) as [[currentBlock | e] s1] eqn:Hhead.
  - destruct (AppLoops.app_discoverActiveBlocks_converges
                (new_VaultBlockDiscovery p vaultAddress) ltac:(cbn; lia) ltac:(cbn; lia)
                (Z.max 0 (currentBlock - 500000)) currentBlock s1)
      as (activeRanges & s2 & n & Hrun).
    exists (if (0 <? length activeRanges)%nat then activeRanges else []), s2, n.
    intros fuel Hfuel. unfold try_catch, bind at 1, await. rewrite Hhead.
    cbv zeta. unfold bind. rewrite Hrun by exact Hfuel.
    destruct (0 <? length activeRanges)%nat; reflexivity.
  - exists [], s1, 0%nat. intros fuel _. unfold try_catch, bind at 1, await. rewrite Hhead.
    reflexivity.
Qed.

Lemma scanInChunks_loop_converges (vaultContract : Contract) (rangesToScan : list (Z * Z)) :
  forall (all : Scan.t) (s : St),
    exists result s',
      converges (fun fuel => scanInChunks_loop p iface fuel vaultContract rangesToScan all)
                s result s'.
Proof.
  induction rangesToScan as [| [fromBlock toBlock] rest IH]; intros all s.
  - exists all, s. apply converges_ret.
  - destruct (ScanTotality.scanByChunksWithTopics_converges p iface vaultContract
                fromBlock toBlock s) as (found & s1 & Hscan).
    set (all' := Scan.mk (concatIfAny (Scan.depositEvents all) (Scan.depositEvents found))
                         (concatIfAny (Scan.withdrawEvents all) (Scan.withdrawEvents found))
                         (concatIfAny (Scan.transferEvents all) (Scan.transferEvents found))).
    destruct (IH all' s1) as (result & s' & n & Hrec).
    exists (if (300 <? eventCount all')%nat then all' else result),
           (if (300 <? eventCount all')%nat then s1 else s'),
           (Nat.max n (S (Z.to_nat ((toBlock - fromBlock) / 2000 + 1)))).
    intros fuel Hfuel. cbn [scanInChunks_loop].
    unfold bind at 1, try_catch, bind at 1. rewrite Hscan by lia.
    unfold ret at 1. fold all'.
    destruct (300 <? eventCount all')%nat; [reflexivity |]. apply Hrec. lia.
Qed.

Lemma scanInChunks_converges (vaultContract : Contract) (currentBlock : Z) (s : St) :
  exists events s',
    converges (fun fuel => scanInChunks p iface vaultAddressInput fuel vaultContract currentBlock)
              s events s'.
Proof.
  unfold scanInChunks. cbv zeta.
  set (vaultAddress :=
         if truthy (target vaultContract) then target vaultContract
         else if truthy (contractAddress vaultContract) then contractAddress vaultContract
         else vaultAddressInput).
  destruct (controller_discoverActiveBlocks_converges vaultAddress s)
    as (discovered & s1 & n1 & Hdiscover).
  set (rangesToScan :=
         if (0 <? length discovered)%nat
         then map (fun r => (Range.start r, Range.end_ r)) discovered
         else [(Z.max 0 (currentBlock - 5000), currentBlock)]).
  destruct (scanInChunks_loop_converges vaultContract rangesToScan (Scan.mk [] [] []) s1)
    as (all & s2 & n2 & Hloop).
  eexists. exists s2, (Nat.max n1 n2). intros fuel Hfuel.
  unfold try_catch, bind at 1. rewrite Hdiscover by lia.
  fold rangesToScan. unfold bind. rewrite Hloop by lia.
  destruct ((0 <? length (Scan.depositEvents all))%nat
            || (0 <? length (Scan.withdrawEvents all))%nat) eqn:Hcanonical.
  - instantiate (1 :=
      if (0 <? length (Scan.depositEvents all))%nat
         || (0 <? length (Scan.withdrawEvents all))%nat
      then Events.mk (Scan.depositEvents all) (Scan.withdrawEvents all)
      else if (0 <? length (Scan.transferEvents all))%nat
      then processTransferEvents (Scan.transferEvents all) (contractAddress vaultContract)
      else Events.mk [] []).
    rewrite Hcanonical. reflexivity.
  - rewrite Hcanonical.
    destruct (0 <? length (Scan.transferEvents all))%nat; reflexivity.
Qed.

Lemma fetchVaultEvents_converges (vaultContract : Contract) (s : St) :
  exists events s',
    converges
      (fun fuel => fetchVaultEvents p iface vaultAddressInput blockRange fuel vaultContract)
      s events s'.
Proof.
  unfold fetchVaultEvents.
  destruct (getBlockNumber p s) as [[currentBlock | e] s1] eqn:Hhead.
  - destruct (ScanTotality.scanByChunksWithTopics_converges p iface vaultContract
                (fetchFromBlock blockRange currentBlock) currentBlock s1)
      as (chunked & s2 & Hscan).
    set (converted :=
           if (length (Scan.depositEvents chunked) =? 0)%nat
              && (length (Scan.withdrawEvents chunked) =? 0)%nat
              && (0 <? length (Scan.transferEvents chunked))%nat
           then processTransferEvents (Scan.transferEvents chunked)
                  (contractAddress vaultContract)
           else Events.mk (Scan.depositEvents chunked) (Scan.withdrawEvents chunked)).
    destruct (scanInChunks_converges vaultContract currentBlock s2)
      as (fallback & s3 & n3 & Hfallback).
    exists (if (length (Events.depositEvents converted) =? 0)%nat
               && (length (Events.withdrawEvents converted) =? 0)%nat
            then fallback else converted),
           (if (length (Events.depositEvents converted) =? 0)%nat
               && (length (Events.withdrawEvents converted) =? 0)%nat
            then s3 else s2),
           (Nat.max n3 (S (Z.to_nat ((currentBlock - fetchFromBlock blockRange currentBlock)
                                       / 2000 + 1)))).
    intros fuel Hfuel. unfold try_catch at 1, bind at 1, await. rewrite Hhead.
    cbv zeta. unfold bind at 1. rewrite Hscan by lia. fold converted.
    destruct ((length (Events.depositEvents converted) =? 0)%nat
              && (length (Events.withdrawEvents converted) =? 0)%nat).
    + rewrite Hfallback by lia. reflexivity.
    + reflexivity.
  - exists (Events.mk [] []), s1, 0%nat. intros fuel _.
    unfold try_catch at 1, bind at 1, await. rewrite Hhead. reflexivity.
Qed.

End AnyProvider.

(** X3.  [fetchVaultEvents] always resolves: whatever the provider
    answers (errors of any kind, at any call, in any state), there is an
    amount of fuel from which on the call returns a pair of event lists; it
    neither rejects nor runs on for ever.  The same holds of the
    [scanInChunks] it falls back on. *)
Theorem fetchVaultEvents_always_resolves :
  forall (St : Type) (p : Provider St) (iface : Interface)
         (vaultAddressInput blockRange : string) (vaultContract : Contract) (s : St),
    (exists (events : Events.t) (s' : St) (enough : nat),
        forall fuel, (enough <= fuel)%nat ->
          fetchVaultEvents p iface vaultAddressInput blockRange fuel vaultContract s
          = (Done events, s'))
    /\ forall currentBlock,
         exists (events : Events.t) (s' : St) (enough : nat),
           forall fuel, (enough <= fuel)%nat ->
             scanInChunks p iface vaultAddressInput fuel vaultContract currentBlock s
             = (Done events, s').
Proof.
  intros St p iface vaultAddressInput blockRange vaultContract s. split.
  - apply fetchVaultEvents_converges.
  - intros currentBlock. apply scanInChunks_converges.
Qed.

(** X4.  The choice of [blockRange] has no effect: for "30days", "90days"
    and any other value, [fetchVaultEvents] starts at
    [max(0, currentBlock - 9000)] (30 days are 172,800 blocks, capped at
    9000), so it does the same whatever is chosen, and its first scan covers
    at most 9001 blocks. *)
Theorem fetchVaultEvents_ignores_blockRange :
  forall (St : Type) (p : Provider St) (iface : Interface)
         (vaultAddressInput blockRange blockRange' : string) (vaultContract : Contract)
         (fuel : nat) (currentBlock : Z) (s : St),
    fetchFromBlock blockRange currentBlock = Z.max 0 (currentBlock - 9000)
    /\ fetchVaultEvents p iface vaultAddressInput blockRange fuel vaultContract s
       = fetchVaultEvents p iface vaultAddressInput blockRange' fuel vaultContract s.
Proof.
  intros St p iface vaultAddressInput blockRange blockRange' vaultContract fuel currentBlock s.
  assert (Hfrom : forall br cb, fetchFromBlock br cb = Z.max 0 (cb - 9000)).
  { intros br cb. unfold fetchFromBlock. cbv zeta.
    destruct (String.eqb br "30days"); [reflexivity |].
    destruct (String.eqb br "90days"); reflexivity. }
  split; [apply Hfrom |].
  cbv beta delta [fetchVaultEvents try_catch bind].
  destruct (await (getBlockNumber p) s) as [[currentBlock' | e |] s1]; try reflexivity.
  cbv zeta. rewrite !Hfrom. reflexivity.
Qed.

End Orchestration.

(** ** The chunked scanner on a chain *)

Module ScanOnChain.
Import VaultTracker.

Lemma chain_getLogs (active : Z -> bool) (limit : option Z) (head : Z) (iface : Interface)
    (contract : string) (a b : Z) :
  getLogs (chainProvider active limit head) (scanFilter iface contract a b) tt
  = match limit with
    | Some w =>
        if w <? b - a
        then (Err "query exceeds max block range", tt)
        else (Ok (chainLogs active (scanFilter iface contract a b)), tt)
    | None => (Ok (chainLogs active (scanFilter iface contract a b)), tt)
    end.
Proof. reflexivity. Qed.

Section Chain.
Context (active : Z -> bool) (limit : option Z) (head : Z) (iface : Interface).
Hypothesis limit_ok : admitsHalfChunks limit.

Local Abbreviation chain := (chainProvider active limit head).

Lemma chainLogs_split (contract : string) (a m b : Z) :
  a <= m + 1 -> m <= b ->
  chainLogs active (scanFilter iface contract a b)
  = chainLogs active (scanFilter iface contract a m)
    ++ chainLogs active (scanFilter iface contract (m + 1) b).
Proof.
  intros Ham Hmb. unfold chainLogs, scanFilter. cbn [fromBlock toBlock address].
  rewrite (OnChain.blocksFromTo_split a m b Ham Hmb).
  rewrite List.filter_app, map_app. reflexivity.
Qed.

Lemma chainLogs_empty (contract : string) (a b : Z) :
  b < a -> chainLogs active (scanFilter iface contract a b) = [].
Proof.
  intros Hlt. unfold chainLogs, scanFilter, blocksFromTo. cbn [fromBlock toBlock].
  replace (Z.to_nat (b - a + 1)) with 0%nat by lia. reflexivity.
Qed.

(** A chunk of at most 2000 blocks is read in full, at once or by its two
    halves. *)
Lemma chunkLogs_complete (contract : string) (start end_ : Z) :
  start <= end_ -> end_ - start <= 1999 ->
  chunkLogs chain iface contract start end_ tt
  = (Done (Some (chainLogs active (scanFilter iface contract start end_))), tt).
Proof.
  intros Horder Hspan. unfold chunkLogs, try_catch, bind at 1, await.
  rewrite chain_getLogs. destruct limit as [w |]; [| reflexivity].
  cbn in limit_ok.
  destruct (Z.ltb_spec w (end_ - start)) as [Hwide | Hfits]; [| reflexivity].
  destruct (Z.ltb_spec 500 (end_ - start)) as [_ | Hnarrow]; [| lia].
  assert (Hhalves : (start + end_) / 2 - start <= w
                    /\ end_ - ((start + end_) / 2 + 1) <= w
                    /\ start <= (start + end_) / 2 + 1 /\ (start + end_) / 2 <= end_)
    by (Z.div_mod_to_equations; lia).
  destruct Hhalves as (H1 & H2 & H3 & H4).
  cbv beta iota zeta. unfold bind at 1, catch_with at 1. rewrite chain_getLogs.
  destruct (Z.ltb_spec w ((start + end_) / 2 - start)) as [Hbad | _]; [lia |].
  cbv beta iota. unfold bind at 1, catch_with at 1. rewrite chain_getLogs.
  destruct (Z.ltb_spec w (end_ - ((start + end_) / 2 + 1))) as [Hbad | _]; [lia |].
  unfold ret. rewrite <- (chainLogs_split contract start ((start + end_) / 2) end_ H3 H4).
  reflexivity.
Qed.

Lemma scan_loop_complete (contract : string) (toBlock : Z) (n : nat) :
  forall (start : Z) (acc : Scan.t),
    toBlock - start + 1 <= Z.of_nat n * chunkSize ->
    forall fuel, (S n <= fuel)%nat ->
      scanByChunksWithTopics_loop chain iface fuel contract start toBlock acc tt
      = (Done (classifyLogs iface (chainLogs active (scanFilter iface contract start toBlock))
                 acc), tt).
Proof.
  unfold chunkSize.
  induction n as [| n IH]; intros start acc Hspan [| fuel] Hfuel; try lia;
    cbn [scanByChunksWithTopics_loop];
    destruct (Z.leb_spec start toBlock) as [Hle | Hgt]; try lia;
    try (rewrite chainLogs_empty by lia; reflexivity).
  cbv zeta. unfold bind. unfold chunkSize.
  rewrite chunkLogs_complete by lia.
  rewrite (IH (start + 2000)) by lia.
  do 2 f_equal. unfold classifyLogs. rewrite <- fold_left_app. f_equal.
  destruct (Z.le_gt_cases (start + 1999) toBlock) as [Hfull | Hlast].
  - replace (Z.min (start + 2000 - 1) toBlock) with (start + 1999) by lia.
    replace (start + 2000) with (start + 1999 + 1) by lia.
    symmetry. apply chainLogs_split; lia.
  - replace (Z.min (start + 2000 - 1) toBlock) with toBlock by lia.
    rewrite (chainLogs_empty contract (start + 2000) toBlock) by lia.
    apply app_nil_r.
Qed.

End Chain.

(** X5.  On a chain whose provider accepts spans of 999 blocks (or has no
    limit), [scanByChunksWithTopics] loses no log and repeats none: it
    returns the decoded events of the logs of [fromBlock, toBlock], in block
    order, as if they had been fetched by one query: the [Deposit] and
    [DepositMade] logs as deposits, the [Withdraw] and [WithdrawalMade] logs
    as withdrawals, the [Transfer] logs as transfers, each with its
    arguments; any other log is dropped. *)
Theorem scanByChunksWithTopics_complete_on_chain :
  forall (active : Z -> bool) (limit : option Z) (head : Z) (iface : Interface)
         (vaultContract : Contract) (fromBlock toBlock : Z) (fuel : nat),
    admitsHalfChunks limit ->
    (S (Z.to_nat ((toBlock - fromBlock) / 2000 + 1)) <= fuel)%nat ->
    scanByChunksWithTopics (chainProvider active limit head) iface fuel vaultContract
      fromBlock toBlock tt
    = (Done (decodedEvents iface
               (chainLogs active
                  (scanFilter iface (contractTarget vaultContract) fromBlock toBlock))), tt).
Proof.
  intros active limit head iface vaultContract fromBlock toBlock fuel Hlimit Hfuel.
  unfold scanByChunksWithTopics.
  rewrite (scan_loop_complete active limit head iface Hlimit _ toBlock
             (Z.to_nat ((toBlock - fromBlock) / 2000 + 1)) fromBlock (Scan.mk [] [] []));
    [| | exact Hfuel].
  - rewrite ChunkedScan.classifyLogs_decoded, ChunkedScan.scanAppend_empty_l. reflexivity.
  - unfold chunkSize.
    destruct (Z.le_gt_cases fromBlock toBlock) as [Hle | Hgt].
    + rewrite Z2Nat.id by (Z.div_mod_to_equations; lia). Z.div_mod_to_equations. lia.
    + lia.
Qed.

(** Two logs, in the second and in the fourth quarter of the first chunk
    and a half: both are returned, once each and in block order, although
    the provider refuses every whole chunk. *)
Lemma scanByChunksWithTopics_complete_witness :
  scanByChunksWithTopics (chainProvider (fun b => (b =? 5100) || (b =? 6500)) (Some 999) 10000)
    transfersOnly 3 someVault 5000 8000 tt
  = (Done (Scan.mk [] []
             [mkEvent (mkRawLog 5100 "" (target someVault) [] "") oneShare;
              mkEvent (mkRawLog 6500 "" (target someVault) [] "") oneShare]), tt).
Proof.
  apply (scanByChunksWithTopics_complete_on_chain
           (fun b => (b =? 5100) || (b =? 6500)) (Some 999) 10000 transfersOnly someVault
           5000 8000 3).
  - cbn. lia.
  - vm_compute. lia.
Defined.

(** Below that limit logs are lost without notice: with spans capped at 998
    blocks both halves of the chunk are refused and count for no logs. *)
Example scan_loses_logs_under_tight_limit :
  scanByChunksWithTopics (chainProvider (fun b => b =? 5100) (Some 998) 10000)
    transfersOnly 3 someVault 5000 6999 tt
  = (Done (Scan.mk [] [] []), tt).
Proof. vm_compute. reflexivity. Qed.

End ScanOnChain.

(** ** The ledger on arbitrary event lists *)

Module Ledger.
Import VaultTracker.

Section Timestamps.
Context {St : Type} (getBlock : Z -> St -> result (option Z) * St) (Date_now : St -> Z).

Lemma getBlockTimestamp_cached (blockNumber ts : Z) (s : St) (cache : gmap Z Z) :
  cache !! blockNumber = Some ts ->
  getBlockTimestamp getBlock Date_now blockNumber (s, cache) = (Done ts, (s, cache)).
Proof. intros Hhit. unfold getBlockTimestamp. rewrite Hhit. reflexivity. Qed.

End Timestamps.

(** X6.  [getBlockTimestamp] memoizes: once a look-up of a block has
    succeeded, the block is in the cache with the timestamp returned, a
    second look-up returns the same timestamp without calling the provider
    (the state does not move), and no timestamp cached before has changed. *)
Theorem getBlockTimestamp_memoizes :
  forall (St : Type) (getBlock : Z -> St -> result (option Z) * St) (Date_now : St -> Z)
         (blockNumber ts : Z) (st st' : St * gmap Z Z),
    getBlockTimestamp getBlock Date_now blockNumber st = (Done ts, st') ->
    snd st' !! blockNumber = Some ts
    /\ getBlockTimestamp getBlock Date_now blockNumber st' = (Done ts, st')
    /\ forall other t, snd st !! other = Some t -> snd st' !! other = Some t.
Proof.
  intros St getBlock Date_now blockNumber ts [s cache] st' Hrun.
  assert (Hcached : snd st' !! blockNumber = Some ts
                    /\ forall other t, cache !! other = Some t -> snd st' !! other = Some t).
  { unfold getBlockTimestamp in Hrun.
    destruct (cache !! blockNumber) as [hit |] eqn:Hlookup.
    - injection Hrun as <- <-. split; [exact Hlookup | auto].
    - destruct (getBlock blockNumber s) as [[blk | e] s1]; [| discriminate].
      injection Hrun as <- <-. cbn [snd]. split; [apply lookup_insert_eq |].
      intros other t Hother. rewrite lookup_insert_ne; [exact Hother |].
      intros ->. congruence. }
  destruct Hcached as [Hhit Hkept]. split; [exact Hhit |]. split; [| exact Hkept].
  destruct st' as [s' cache']. apply getBlockTimestamp_cached. exact Hhit.
Qed.

Lemma getBlockTimestamp_memoizes_witness :
  snd cache100 !! 100 = Some 1200
  /\ getBlockTimestamp twelveSeconds stoppedClock 100 cache100 = (Done 1200, cache100)
  /\ forall other t, snd cacheEmpty !! other = Some t -> snd cache100 !! other = Some t.
Proof.
  apply (getBlockTimestamp_memoizes unit twelveSeconds stoppedClock 100 1200
           cacheEmpty cache100).
  vm_compute. reflexivity.
Defined.

Section Entries.
Context (addressData : gmap string AddressData.t).
Hypothesis entries_ok : forall a data, addressData !! a = Some data -> ledgerEntryOk a data.

Lemma entryFor_ok (owner : string) (blockTime : Z) :
  AddressData.address (entryFor addressData owner blockTime) = owner
  /\ AddressData.firstDeposit (entryFor addressData owner blockTime)
     <= AddressData.lastActivity (entryFor addressData owner blockTime)
  /\ 0 <= AddressData.depositCount (entryFor addressData owner blockTime)
  /\ 0 <= AddressData.withdrawalCount (entryFor addressData owner blockTime).
Proof.
  unfold entryFor. destruct (addressData !! owner) as [data |] eqn:Hlookup.
  - destruct (entries_ok owner data Hlookup) as (H1 & H2 & H3 & H4 & _). auto.
  - cbn. repeat split; try reflexivity; lia.
Qed.

Lemma applyDeposit_ok (owner : string) (assets shares blockTime : Z) :
  forall a data,
    applyDeposit addressData owner assets shares blockTime !! a = Some data ->
    ledgerEntryOk a data.
Proof.
  intros a data. unfold applyDeposit.
  destruct (entryFor_ok owner blockTime) as (H1 & H2 & H3 & H4).
  destruct (decide (owner = a)) as [<- | Hne].
  - rewrite lookup_insert_eq. intros [= <-]. unfold ledgerEntryOk, newDate. cbn.
    split; [exact H1 |].
    destruct (Z.ltb_spec (blockTime * 1000)
                (AddressData.firstDeposit (entryFor addressData owner blockTime)));
      destruct (Z.ltb_spec (AddressData.lastActivity (entryFor addressData owner blockTime))
                  (blockTime * 1000)); lia.
  - rewrite lookup_insert_ne by exact Hne. apply entries_ok.
Qed.

Lemma applyWithdrawal_ok (owner : string) (assets shares blockTime : Z) :
  forall a data,
    applyWithdrawal addressData owner assets shares blockTime !! a = Some data ->
    ledgerEntryOk a data.
Proof.
  intros a data. unfold applyWithdrawal.
  destruct (entryFor_ok owner blockTime) as (H1 & H2 & H3 & H4).
  destruct (decide (owner = a)) as [<- | Hne].
  - rewrite lookup_insert_eq. intros [= <-]. unfold ledgerEntryOk, newDate. cbn.
    split; [exact H1 |].
    destruct (Z.ltb_spec (AddressData.lastActivity (entryFor addressData owner blockTime))
                (blockTime * 1000)); lia.
  - rewrite lookup_insert_ne by exact Hne. apply entries_ok.
Qed.

End Entries.

Section Loops.
Context {St : Type} (getBlock : Z -> St -> result (option Z) * St) (Date_now : St -> Z).

Lemma processDeposits_ok (depositEvents : list Event) :
  forall (addressData result : gmap string AddressData.t) (st st' : St * gmap Z Z),
    (forall a data, addressData !! a = Some data -> ledgerEntryOk a data) ->
    processDeposits getBlock Date_now depositEvents addressData st = (Done result, st') ->
    forall a data, result !! a = Some data -> ledgerEntryOk a data.
Proof.
  induction depositEvents as [| event rest IH]; intros addressData result st st' Hok Hrun.
  - injection Hrun as <- _. exact Hok.
  - cbn [processDeposits] in Hrun. unfold bind at 1 in Hrun.
    destruct (getBlockTimestamp getBlock Date_now (blockNumber (log event)) st)
      as [[blockTime | e |] st1]; try discriminate Hrun.
    destruct (ownerAssetsShares (args event)) as [[[owner assets] shares] |];
      [| discriminate Hrun].
    eapply IH; [| exact Hrun]. apply applyDeposit_ok. exact Hok.
Qed.

Lemma processWithdrawals_ok (withdrawEvents : list Event) :
  forall (addressData result : gmap string AddressData.t) (st st' : St * gmap Z Z),
    (forall a data, addressData !! a = Some data -> ledgerEntryOk a data) ->
    processWithdrawals getBlock Date_now withdrawEvents addressData st = (Done result, st') ->
    forall a data, result !! a = Some data -> ledgerEntryOk a data.
Proof.
  induction withdrawEvents as [| event rest IH]; intros addressData result st st' Hok Hrun.
  - injection Hrun as <- _. exact Hok.
  - cbn [processWithdrawals] in Hrun. unfold bind at 1 in Hrun.
    destruct (getBlockTimestamp getBlock Date_now (blockNumber (log event)) st)
      as [[blockTime | e |] st1]; try discriminate Hrun.
    destruct (ownerAssetsShares (args event)) as [[[owner assets] shares] |];
      [| discriminate Hrun].
    eapply IH; [| exact Hrun]. apply applyWithdrawal_ok. exact Hok.
Qed.

End Loops.

(** X7.  Every entry of a ledger built by [processRealEventData] is filed
    under its own address, has its first deposit date no later than its
    last activity date, and counts at least one event, with neither count
    negative. *)
Theorem processRealEventData_entries_are_consistent :
  forall (St : Type) (getBlock : Z -> St -> result (option Z) * St) (Date_now : St -> Z)
         (events : Events.t) (addressData : gmap string AddressData.t)
         (st st' : St * gmap Z Z),
    processRealEventData getBlock Date_now events st = (Done addressData, st') ->
    forall a data, addressData !! a = Some data -> ledgerEntryOk a data.
Proof.
  intros St getBlock Date_now events addressData st st' Hrun.
  unfold processRealEventData in Hrun.
  destruct ((length (Events.depositEvents events) =? 0)%nat
            && (length (Events.withdrawEvents events) =? 0)%nat); [discriminate Hrun |].
  unfold bind in Hrun.
  destruct (processDeposits getBlock Date_now (Events.depositEvents events) ∅ st)
    as [[deposited | e |] st1] eqn:Hdeposits; try discriminate Hrun.
  eapply processWithdrawals_ok; [| exact Hrun].
  eapply processDeposits_ok; [| exact Hdeposits].
  intros a data Hempty. rewrite lookup_empty in Hempty. discriminate.
Qed.

Lemma processRealEventData_consistent_witness :
  ledgerEntryOk aliceAddress
    (AddressData.mk aliceAddress 100 30 67 (newDate 1200000) (newDate 3000000) 1 1).
Proof.
  apply (processRealEventData_entries_are_consistent unit twelveSeconds stoppedClock
           aliceEvents aliceLedger cacheEmpty cache100_250).
  - vm_compute. reflexivity.
  - vm_compute. reflexivity.
Defined.

End Ledger.

(** ** What the ledger adds up to *)

Module LedgerTotals.
Import VaultTracker.

Lemma tally_cons (owner o : string) (assets shares : Z) (event : Event) (rest : list Event) :
  ownerAssetsShares (args event) = Some (o, assets, shares) ->
  assetsFor owner (event :: rest)
  = (if String.eqb o owner then assets else 0) + assetsFor owner rest
  /\ sharesFor owner (event :: rest)
     = (if String.eqb o owner then shares else 0) + sharesFor owner rest
  /\ countFor owner (event :: rest)
     = (if String.eqb o owner then 1 else 0) + countFor owner rest.
Proof.
  intros Hargs. unfold assetsFor, sharesFor, countFor. cbn [List.filter].
  assert (Howned : ownedBy owner event = String.eqb o owner)
    by (unfold ownedBy; rewrite Hargs; reflexivity).
  assert (Hassets : assetsOf event = assets) by (unfold assetsOf; rewrite Hargs; reflexivity).
  assert (Hshares : sharesOf event = shares) by (unfold sharesOf; rewrite Hargs; reflexivity).
  rewrite Howned. destruct (String.eqb o owner).
  - rewrite !map_cons, Hassets, Hshares, length_cons, Nat2Z.inj_succ.
    unfold sumZ. cbn [fold_right]. split; [| split]; lia.
  - split; [| split]; lia.
Qed.

Lemma countFor_nonneg (owner : string) (events : list Event) : 0 <= countFor owner events.
Proof. unfold countFor. lia. Qed.

Section Step.
Context (addressData : gmap string AddressData.t) (o : string) (assets shares blockTime : Z).

Lemma entryFor_field (f : AddressData.t -> Z) :
  f (freshEntry o blockTime) = 0 ->
  f (entryFor addressData o blockTime) = field f addressData o.
Proof.
  intros Hfresh. unfold entryFor, field. destruct (addressData !! o); [reflexivity | exact Hfresh].
Qed.

Lemma applyDeposit_tally (owner : string) :
  field AddressData.totalDeposits (applyDeposit addressData o assets shares blockTime) owner
  = field AddressData.totalDeposits addressData owner + (if String.eqb o owner then assets else 0)
  /\ field AddressData.totalShares (applyDeposit addressData o assets shares blockTime) owner
     = field AddressData.totalShares addressData owner + (if String.eqb o owner then shares else 0)
  /\ field AddressData.depositCount (applyDeposit addressData o assets shares blockTime) owner
     = field AddressData.depositCount addressData owner + (if String.eqb o owner then 1 else 0)
  /\ field AddressData.totalWithdrawals (applyDeposit addressData o assets shares blockTime) owner
     = field AddressData.totalWithdrawals addressData owner
  /\ field AddressData.withdrawalCount (applyDeposit addressData o assets shares blockTime) owner
     = field AddressData.withdrawalCount addressData owner
  /\ (is_Some (applyDeposit addressData o assets shares blockTime !! owner)
      <-> is_Some (addressData !! owner) \/ o = owner).
Proof.
  unfold applyDeposit. destruct (String.eqb_spec o owner) as [<- | Hne].
  - unfold field at 1 3 5 7 9. rewrite !lookup_insert_eq. cbn.
    rewrite !entryFor_field by reflexivity.
    repeat split; try lia; auto; intros _; eexists; reflexivity.
  - unfold field. rewrite !lookup_insert_ne by exact Hne.
    repeat split; try lia; auto; intros [H | H]; [exact H | contradiction].
Qed.

Lemma applyWithdrawal_tally (owner : string) :
  field AddressData.totalWithdrawals (applyWithdrawal addressData o assets shares blockTime) owner
  = field AddressData.totalWithdrawals addressData owner
    + (if String.eqb o owner then assets else 0)
  /\ field AddressData.totalShares (applyWithdrawal addressData o assets shares blockTime) owner
     = field AddressData.totalShares addressData owner - (if String.eqb o owner then shares else 0)
  /\ field AddressData.withdrawalCount (applyWithdrawal addressData o assets shares blockTime) owner
     = field AddressData.withdrawalCount addressData owner + (if String.eqb o owner then 1 else 0)
  /\ field AddressData.totalDeposits (applyWithdrawal addressData o assets shares blockTime) owner
     = field AddressData.totalDeposits addressData owner
  /\ field AddressData.depositCount (applyWithdrawal addressData o assets shares blockTime) owner
     = field AddressData.depositCount addressData owner
  /\ (is_Some (applyWithdrawal addressData o assets shares blockTime !! owner)
      <-> is_Some (addressData !! owner) \/ o = owner).
Proof.
  unfold applyWithdrawal. destruct (String.eqb_spec o owner) as [<- | Hne].
  - unfold field at 1 3 5 7 9. rewrite !lookup_insert_eq. cbn.
    rewrite !entryFor_field by reflexivity.
    repeat split; try lia; auto; intros _; eexists; reflexivity.
  - unfold field. rewrite !lookup_insert_ne by exact Hne.
    repeat split; try lia; auto; intros [H | H]; [exact H | contradiction].
Qed.

End Step.

Section Loops.
Context {St : Type} (getBlock : Z -> St -> result (option Z) * St) (Date_now : St -> Z).

Lemma processDeposits_tally (depositEvents : list Event) (owner : string) :
  forall (addressData result : gmap string AddressData.t) (st st' : St * gmap Z Z),
    processDeposits getBlock Date_now depositEvents addressData st = (Done result, st') ->
    field AddressData.totalDeposits result owner
    = field AddressData.totalDeposits addressData owner + assetsFor owner depositEvents
    /\ field AddressData.totalShares result owner
       = field AddressData.totalShares addressData owner + sharesFor owner depositEvents
    /\ field AddressData.depositCount result owner
       = field AddressData.depositCount addressData owner + countFor owner depositEvents
    /\ field AddressData.totalWithdrawals result owner
       = field AddressData.totalWithdrawals addressData owner
    /\ field AddressData.withdrawalCount result owner
       = field AddressData.withdrawalCount addressData owner
    /\ (is_Some (result !! owner)
        <-> is_Some (addressData !! owner) \/ 0 < countFor owner depositEvents).
Proof.
  induction depositEvents as [| event rest IH]; intros addressData result st st' Hrun.
  - injection Hrun as <- _. unfold assetsFor, sharesFor, countFor. cbn.
    repeat split; try lia; auto; intros [H | H]; [exact H | lia].
  - cbn [processDeposits] in Hrun. unfold bind at 1 in Hrun.
    destruct (getBlockTimestamp getBlock Date_now (blockNumber (log event)) st)
      as [[blockTime | e |] st1]; try discriminate Hrun.
    destruct (ownerAssetsShares (args event)) as [[[o assets] shares] |] eqn:Hargs;
      [| discriminate Hrun].
    destruct (IH _ _ _ _ Hrun) as (H1 & H2 & H3 & H4 & H5 & H6).
    destruct (applyDeposit_tally addressData o assets shares blockTime owner)
      as (A1 & A2 & A3 & A4 & A5 & A6).
    destruct (tally_cons owner o assets shares event rest Hargs) as (T1 & T2 & T3).
    pose proof (countFor_nonneg owner rest) as Hnonneg.
    rewrite H1, H2, H3, H4, H5, A1, A2, A3, A4, A5, T1, T2, T3.
    repeat split; try lia.
    + rewrite H6, A6. intros [[H | H] | H]; auto.
      * right. destruct (String.eqb_spec o owner); [lia | contradiction].
      * right. destruct (String.eqb o owner); lia.
    + rewrite H6, A6. intros [H | H]; auto.
      destruct (String.eqb_spec o owner); [left; right; assumption | right; lia].
Qed.

Lemma processWithdrawals_tally (withdrawEvents : list Event) (owner : string) :
  forall (addressData result : gmap string AddressData.t) (st st' : St * gmap Z Z),
    processWithdrawals getBlock Date_now withdrawEvents addressData st = (Done result, st') ->
    field AddressData.totalWithdrawals result owner
    = field AddressData.totalWithdrawals addressData owner + assetsFor owner withdrawEvents
    /\ field AddressData.totalShares result owner
       = field AddressData.totalShares addressData owner - sharesFor owner withdrawEvents
    /\ field AddressData.withdrawalCount result owner
       = field AddressData.withdrawalCount addressData owner + countFor owner withdrawEvents
    /\ field AddressData.totalDeposits result owner
       = field AddressData.totalDeposits addressData owner
    /\ field AddressData.depositCount result owner
       = field AddressData.depositCount addressData owner
    /\ (is_Some (result !! owner)
        <-> is_Some (addressData !! owner) \/ 0 < countFor owner withdrawEvents).
Proof.
  induction withdrawEvents as [| event rest IH]; intros addressData result st st' Hrun.
  - injection Hrun as <- _. unfold assetsFor, sharesFor, countFor. cbn.
    repeat split; try lia; auto; intros [H | H]; [exact H | lia].
  - cbn [processWithdrawals] in Hrun. unfold bind at 1 in Hrun.
    destruct (getBlockTimestamp getBlock Date_now (blockNumber (log event)) st)
      as [[blockTime | e |] st1]; try discriminate Hrun.
    destruct (ownerAssetsShares (args event)) as [[[o assets] shares] |] eqn:Hargs;
      [| discriminate Hrun].
    destruct (IH _ _ _ _ Hrun) as (H1 & H2 & H3 & H4 & H5 & H6).
    destruct (applyWithdrawal_tally addressData o assets shares blockTime owner)
      as (A1 & A2 & A3 & A4 & A5 & A6).
    destruct (tally_cons owner o assets shares event rest Hargs) as (T1 & T2 & T3).
    pose proof (countFor_nonneg owner rest) as Hnonneg.
    rewrite H1, H2, H3, H4, H5, A1, A2, A3, A4, A5, T1, T2, T3.
    repeat split; try lia.
    + rewrite H6, A6. intros [[H | H] | H]; auto.
      * right. destruct (String.eqb_spec o owner); [lia | contradiction].
      * right. destruct (String.eqb o owner); lia.
    + rewrite H6, A6. intros [H | H]; auto.
      destruct (String.eqb_spec o owner); [left; right; assumption | right; lia].
Qed.

End Loops.

(** X8.  A ledger built by [processRealEventData] adds up: for every
    address, its total deposits (withdrawals) are the sum of the assets of
    its deposit (withdraw) events, its shares the shares deposited minus
    the shares withdrawn, its counts the numbers of its events; and an
    address has an entry exactly when it owns an event.  (A field of a
    missing entry reads 0.)  The order of the events and the timestamps do
    not matter. *)
Theorem processRealEventData_adds_up :
  forall (St : Type) (getBlock : Z -> St -> result (option Z) * St) (Date_now : St -> Z)
         (events : Events.t) (addressData : gmap string AddressData.t)
         (st st' : St * gmap Z Z) (owner : string),
    processRealEventData getBlock Date_now events st = (Done addressData, st') ->
    field AddressData.totalDeposits addressData owner
    = assetsFor owner (Events.depositEvents events)
    /\ field AddressData.totalWithdrawals addressData owner
       = assetsFor owner (Events.withdrawEvents events)
    /\ field AddressData.totalShares addressData owner
       = sharesFor owner (Events.depositEvents events)
         - sharesFor owner (Events.withdrawEvents events)
    /\ field AddressData.depositCount addressData owner
       = countFor owner (Events.depositEvents events)
    /\ field AddressData.withdrawalCount addressData owner
       = countFor owner (Events.withdrawEvents events)
    /\ (is_Some (addressData !! owner)
        <-> 0 < countFor owner (Events.depositEvents events)
                + countFor owner (Events.withdrawEvents events)).
Proof.
  intros St getBlock Date_now events addressData st st' owner Hrun.
  unfold processRealEventData in Hrun.
  destruct ((length (Events.depositEvents events) =? 0)%nat
            && (length (Events.withdrawEvents events) =? 0)%nat); [discriminate Hrun |].
  unfold bind in Hrun.
  destruct (processDeposits getBlock Date_now (Events.depositEvents events) ∅ st)
    as [[deposited | e |] st1] eqn:Hdeposits; try discriminate Hrun.
  destruct (processDeposits_tally getBlock Date_now _ owner _ _ _ _ Hdeposits)
    as (D1 & D2 & D3 & D4 & D5 & D6).
  destruct (processWithdrawals_tally getBlock Date_now _ owner _ _ _ _ Hrun)
    as (W1 & W2 & W3 & W4 & W5 & W6).
  pose proof (countFor_nonneg owner (Events.depositEvents events)).
  pose proof (countFor_nonneg owner (Events.withdrawEvents events)).
  unfold field at 2 in D1. unfold field at 2 in D2. unfold field at 2 in D3.
  unfold field at 2 in D4. unfold field at 2 in D5.
  rewrite lookup_empty in D1, D2, D3, D4, D5, D6.
  rewrite W1, W2, W3, W4, W5, D1, D2, D3, D4, D5.
  repeat split; try lia.
  - rewrite W6, D6. intros [[H' | H'] | H']; [destruct H' as [? H']; discriminate | lia | lia].
  - rewrite W6, D6. intros Hsome.
    destruct (Z.lt_ge_cases 0 (countFor owner (Events.depositEvents events)));
      [left; right; assumption | right; lia].
Qed.

Lemma processRealEventData_adds_up_witness :
  field AddressData.totalDeposits aliceLedger aliceAddress
  = assetsFor aliceAddress (Events.depositEvents aliceEvents)
  /\ field AddressData.totalWithdrawals aliceLedger aliceAddress
     = assetsFor aliceAddress (Events.withdrawEvents aliceEvents)
  /\ field AddressData.totalShares aliceLedger aliceAddress
     = sharesFor aliceAddress (Events.depositEvents aliceEvents)
       - sharesFor aliceAddress (Events.withdrawEvents aliceEvents)
  /\ field AddressData.depositCount aliceLedger aliceAddress
     = countFor aliceAddress (Events.depositEvents aliceEvents)
  /\ field AddressData.withdrawalCount aliceLedger aliceAddress
     = countFor aliceAddress (Events.withdrawEvents aliceEvents)
  /\ (is_Some (aliceLedger !! aliceAddress)
      <-> 0 < countFor aliceAddress (Events.depositEvents aliceEvents)
              + countFor aliceAddress (Events.withdrawEvents aliceEvents)).
Proof.
  apply (processRealEventData_adds_up unit twelveSeconds stoppedClock
           aliceEvents aliceLedger cacheEmpty cache100_250 aliceAddress).
  vm_compute. reflexivity.
Defined.

End LedgerTotals.

(** ** The block numbers of a subgraph answer *)

Module GraphExtract.
Import GraphDiscovery.

Lemma setAdd_elem (blockNumbers : list Z) (n x : Z) :
  x ∈ setAdd blockNumbers n <-> x ∈ blockNumbers \/ x = n.
Proof.
  unfold setAdd. destruct (decide (n ∈ blockNumbers)) as [Hin | Hout].
  - split; [auto | intros [H | ->]; assumption].
  - rewrite elem_of_app, list_elem_of_singleton. reflexivity.
Qed.

Lemma setAdd_NoDup (blockNumbers : list Z) (n : Z) :
  NoDup blockNumbers -> NoDup (setAdd blockNumbers n).
Proof.
  intros Hnodup. unfold setAdd. destruct (decide (n ∈ blockNumbers)) as [Hin | Hout];
    [exact Hnodup |].
  apply NoDup_app. split; [exact Hnodup |]. split; [| apply NoDup_singleton].
  intros x Hx Hx'. apply list_elem_of_singleton in Hx'. subst x. contradiction.
Qed.

Section Extract.
Variable parseInt : string -> Z.

Lemma addBlockNumbers_elem (eventsOfType : option (list GraphEvent)) :
  forall (blockNumbers : list Z) (x : Z),
    x ∈ addBlockNumbers parseInt eventsOfType blockNumbers
    <-> x ∈ blockNumbers
        \/ exists event, event ∈ default [] eventsOfType /\ blockOf parseInt event = x.
Proof.
  destruct eventsOfType as [events |]; cbn [addBlockNumbers default].
  - induction events as [| event events IH]; intros blockNumbers x; cbn [fold_left].
    + split; [auto | intros [H | (e & He & _)]; [exact H | inversion He]].
    + rewrite IH, setAdd_elem. split.
      * intros [[H | ->] | (e & He & Hx)]; [auto | |].
        -- right. exists event. split; [left | reflexivity].
        -- right. exists e. split; [right; exact He | exact Hx].
      * intros [H | (e & He & Hx)]; [auto |].
        apply elem_of_cons in He. destruct He as [-> | He].
        -- left. right. symmetry. exact Hx.
        -- right. exists e. split; assumption.
  - intros blockNumbers x. split; [auto | intros [H | (e & He & _)]; [exact H | inversion He]].
Qed.

Lemma addBlockNumbers_NoDup (eventsOfType : option (list GraphEvent)) :
  forall blockNumbers : list Z,
    NoDup blockNumbers -> NoDup (addBlockNumbers parseInt eventsOfType blockNumbers).
Proof.
  destruct eventsOfType as [events |]; cbn [addBlockNumbers]; [| auto].
  induction events as [| event events IH]; intros blockNumbers Hnodup; cbn [fold_left];
    [exact Hnodup |].
  apply IH, setAdd_NoDup, Hnodup.
Qed.

Lemma ascending_without_duplicates (l : list Z) :
  StronglySorted Z.le l -> NoDup l -> StronglySorted Z.lt l.
Proof.
  induction 1 as [| a l Hsorted IH Hall]; intros Hnodup; [constructor |].
  apply NoDup_cons in Hnodup. destruct Hnodup as [Hnotin Hnodup].
  constructor; [apply IH; exact Hnodup |].
  rewrite Forall_forall in *. intros x Hx.
  specialize (Hall x Hx).
  assert (a <> x) by (intros ->; contradiction). lia.
Qed.

End Extract.

Lemma extractBlockNumbers_ascending (parseInt : string -> Z) (events : GraphEvents) :
  StronglySorted Z.lt (extractBlockNumbers parseInt events).
Proof.
  unfold extractBlockNumbers. apply ascending_without_duplicates.
  - apply StronglySorted_merge_sort; [intros x y z; apply Z.le_trans |].
    intros x y. apply Z.le_ge_cases.
  - rewrite merge_sort_Permutation.
    repeat apply addBlockNumbers_NoDup. apply NoDup_nil_2.
Qed.

Lemma extractBlockNumbers_members (parseInt : string -> Z) (events : GraphEvents) (n : Z) :
  In n (extractBlockNumbers parseInt events)
  <-> exists event, In event (recordsOf events) /\ blockOf parseInt event = n.
Proof.
  unfold extractBlockNumbers.
  rewrite <- list_elem_of_In, merge_sort_Permutation, !addBlockNumbers_elem.
  unfold recordsOf. split.
  - intros [[[Hnil | (e & He & Hn)] | (e & He & Hn)] | (e & He & Hn)].
    + inversion Hnil.
    + exists e. split; [| exact Hn]. apply list_elem_of_In. rewrite !elem_of_app. auto.
    + exists e. split; [| exact Hn]. apply list_elem_of_In. rewrite !elem_of_app. auto.
    + exists e. split; [| exact Hn]. apply list_elem_of_In. rewrite !elem_of_app. auto.
  - intros (e & He & Hn). apply list_elem_of_In in He. rewrite !elem_of_app in He.
    destruct He as [He | [He | He]]; eauto 6.
Qed.

(** X9.  [extractBlockNumbers] lists the block numbers of a subgraph answer
    in strictly ascending order, hence each once, and lists exactly the
    blocks of the records of the lists that are present: a missing list is
    skipped, and a block shared by several records appears once. *)
Theorem extractBlockNumbers_ascending_and_exact :
  forall (parseInt : string -> Z) (events : GraphEvents),
    StronglySorted Z.lt (extractBlockNumbers parseInt events)
    /\ forall n : Z,
         In n (extractBlockNumbers parseInt events)
         <-> exists event, In event (recordsOf events) /\ blockOf parseInt event = n.
Proof.
  intros parseInt events. split.
  - apply extractBlockNumbers_ascending.
  - apply extractBlockNumbers_members.
Qed.

Example extractBlockNumbers_example :
  extractBlockNumbers (fun numeral => if String.eqb numeral "120" then 120 else 50)
    (mkGraphEvents (Some [mkGraphEvent "d1" "120"; mkGraphEvent "d2" "50"]) None
                   (Some [mkGraphEvent "t1" "50"]))
  = [50; 120].
Proof. vm_compute. reflexivity. Qed.

End GraphExtract.

(** ** From a subgraph answer to block ranges *)

Module GraphPipeline.
Import GraphDiscovery.

Lemma consolidateBlockRanges_clusters (blockNumbers : list Z) (maxGap : Z) :
  exists clusters : list (list Z),
    concat clusters = blockNumbers
    /\ Forall (fun g => g <> []) clusters
    /\ consolidateBlockRanges blockNumbers maxGap = map intervalOf clusters
    /\ Sorted (farApart maxGap) clusters.
Proof.
  destruct blockNumbers as [| first rest].
  - exists []. cbn. split; [reflexivity |]. split; [constructor |].
    split; [reflexivity | constructor].
  - destruct (Consolidation.consolidateBlockRanges_loop_clusters maxGap rest [first] [])
      as (ext & groups & Hcat & Hloop & Hnes & _ & Hout).
    { discriminate. }
    { repeat constructor. }
    exists (([first] ++ ext) :: groups).
    split; [exact Hcat |]. split; [constructor; [discriminate | exact Hnes] |].
    split; [exact Hloop | exact Hout].
Qed.

Lemma apart_intervals (maxGap : Z) (clusters : list (list Z)) :
  Sorted (farApart maxGap) clusters -> Sorted (apart maxGap) (map intervalOf clusters).
Proof.
  intros Hsorted. apply (Sorted_fmap intervalOf (farApart maxGap) (apart maxGap));
    [| exact Hsorted].
  intros g h Hfar. exact Hfar.
Qed.

Lemma cluster_ends (g : list Z) : g <> [] -> In (List.hd 0 g) g /\ In (List.last g 0) g.
Proof.
  intros Hne. split.
  - destruct g; [congruence | left; reflexivity].
  - destruct (exists_last Hne) as (pre & e & ->). rewrite last_last.
    apply in_or_app. right. left. reflexivity.
Qed.

Lemma strictly_ascending_is_ascending (l : list Z) :
  StronglySorted Z.lt l -> StronglySorted Z.le l.
Proof.
  induction 1 as [| a l Hsorted IH Hall]; constructor; [exact IH |].
  eapply Forall_impl; [exact Hall |]. intros x. apply Z.lt_le_incl.
Qed.

(** What [consolidateBlockRanges] returns on an ascending list. *)
Lemma consolidateBlockRanges_of_ascending (blockNumbers : list Z) (maxGap : Z) :
  StronglySorted Z.le blockNumbers ->
  (forall b, In b blockNumbers ->
     exists r, In r (consolidateBlockRanges blockNumbers maxGap) /\ start r <= b <= end_ r)
  /\ (forall r, In r (consolidateBlockRanges blockNumbers maxGap) ->
        start r <= end_ r /\ In (start r) blockNumbers /\ In (end_ r) blockNumbers)
  /\ Sorted (apart maxGap) (consolidateBlockRanges blockNumbers maxGap).
Proof.
  intros Hasc.
  destruct (consolidateBlockRanges_clusters blockNumbers maxGap)
    as (clusters & Hcat & Hnes & -> & Hfar).
  split; [| split].
  - intros b Hb. rewrite <- Hcat in Hb. apply in_concat in Hb.
    destruct Hb as (g & Hg & Hbg).
    exists (intervalOf g). split; [apply in_map; exact Hg |].
    apply Consolidation.sorted_cluster_bounds; [| exact Hbg].
    apply (Consolidation.sorted_concat_clusters clusters); [| exact Hg].
    rewrite Hcat. exact Hasc.
  - intros r Hr. apply in_map_iff in Hr. destruct Hr as (g & <- & Hg).
    assert (Hne : g <> []).
    { rewrite Forall_forall in Hnes. apply Hnes. apply list_elem_of_In. exact Hg. }
    destruct (cluster_ends g Hne) as [Hhd Hlast].
    cbn [intervalOf start end_]. split; [| split].
    + apply Consolidation.sorted_cluster_bounds; [| exact Hhd].
      apply (Consolidation.sorted_concat_clusters clusters); [| exact Hg].
      rewrite Hcat. exact Hasc.
    + rewrite <- Hcat. apply in_concat. exists g. split; assumption.
    + rewrite <- Hcat. apply in_concat. exists g. split; assumption.
  - apply apart_intervals. exact Hfar.
Qed.

(** X10.  When the subgraph answers, [discoverEulerVaultActivity] returns the
    answer with its block numbers and ranges such that the block of every
    record of the answer lies in one of the ranges, every range starts and
    ends at the block of a record (with start <= end), and from each range
    to the next there is a gap of more than 100 blocks; when the subgraph
    query fails it returns [null].  It never rejects. *)
Theorem discoverEulerVaultActivity_ranges_cover_the_events :
  forall (St : Type) (parseInt : string -> Z)
         (discoverVaultEvents : St -> result GraphEvents * St) (s : St),
    match discoverVaultEvents s with
    | (Ok events, s') =>
        exists ranges : list BlockRange,
          discoverEulerVaultActivity parseInt discoverVaultEvents s
          = (Done (Some (mkEulerActivity events (extractBlockNumbers parseInt events) ranges)),
             s')
          /\ (forall event, In event (recordsOf events) ->
                exists r, In r ranges /\ start r <= blockOf parseInt event <= end_ r)
          /\ (forall r, In r ranges ->
                start r <= end_ r
                /\ (exists event, In event (recordsOf events)
                                  /\ blockOf parseInt event = start r)
                /\ (exists event, In event (recordsOf events)
                                  /\ blockOf parseInt event = end_ r))
          /\ Sorted (apart 100) ranges
    | (Err _, s') =>
        discoverEulerVaultActivity parseInt discoverVaultEvents s = (Done None, s')
    end.
Proof.
  intros St parseInt discoverVaultEvents s.
  unfold discoverEulerVaultActivity, try_catch, bind, await.
  destruct (discoverVaultEvents s) as [[events | e] s']; [| reflexivity].
  exists (consolidateBlockRanges_default (extractBlockNumbers parseInt events)).
  split; [reflexivity |].
  destruct (consolidateBlockRanges_of_ascending (extractBlockNumbers parseInt events) 100)
    as (Hcover & Hends & Hapart).
  { apply strictly_ascending_is_ascending, GraphExtract.extractBlockNumbers_ascending. }
  split; [| split; [| exact Hapart]].
  - intros event Hevent. apply Hcover.
    apply GraphExtract.extractBlockNumbers_members. exists event. split; [exact Hevent | reflexivity].
  - intros r Hr. destruct (Hends r Hr) as (Horder & Hstart & Hend).
    split; [exact Horder |].
    split; apply GraphExtract.extractBlockNumbers_members; assumption.
Qed.

End GraphPipeline.

(** ** Fetching the events of the discovered ranges *)

Module RangeEvents.
Import BlockDiscovery.

Lemma allEventsAppend_assoc (a b c : AllEvents.t) :
  allEventsAppend (allEventsAppend a b) c = allEventsAppend a (allEventsAppend b c).
Proof. unfold allEventsAppend. cbn. rewrite !app_assoc. reflexivity. Qed.

Lemma allEventsAppend_noEvents_r (a : AllEvents.t) : allEventsAppend a noEvents = a.
Proof. destruct a. unfold allEventsAppend. cbn. rewrite !app_nil_r. reflexivity. Qed.

Lemma allEventsAppend_noEvents_l (a : AllEvents.t) : allEventsAppend noEvents a = a.
Proof. destruct a. reflexivity. Qed.

Section AnyProvider.
Context {St : Type} (this : VaultBlockDiscovery St).

(** One turn of the loop adds the batch of the range, which is empty
    unless the three queries succeeded one after the other. *)
Lemma fetchRange_batch (range : Range.t) (s : St) :
  exists (batch : AllEvents.t) (s' : St),
    (forall allEvents,
        try_catch (fetchRange this range allEvents) (fun _ => ret allEvents) s
        = (Done (allEventsAppend allEvents batch), s'))
    /\ (batch = noEvents
        \/ exists s1 s2,
             getLogs (provider this) (rangeFilter this range (deposit (eventTopics this))) s
             = (Ok (AllEvents.deposits batch), s1)
             /\ getLogs (provider this) (rangeFilter this range (withdraw (eventTopics this))) s1
                = (Ok (AllEvents.withdraws batch), s2)
             /\ getLogs (provider this) (rangeFilter this range (transfer (eventTopics this))) s2
                = (Ok (AllEvents.transfers batch), s')).
Proof.
  unfold fetchRange, getEventsInRange, try_catch, bind, await, ret, rangeFilter.
  destruct (getLogs (provider this)
              (mkFilter (vaultAddress this) (Range.start range) (Range.end_ range)
                 [[deposit (eventTopics this)]]) s) as [[deposits | e] s1] eqn:Hdeposits.
  - destruct (getLogs (provider this)
                (mkFilter (vaultAddress this) (Range.start range) (Range.end_ range)
                   [[withdraw (eventTopics this)]]) s1) as [[withdraws | e] s2] eqn:Hwithdraws.
    + destruct (getLogs (provider this)
                  (mkFilter (vaultAddress this) (Range.start range) (Range.end_ range)
                     [[transfer (eventTopics this)]]) s2) as [[transfers | e] s3] eqn:Htransfers.
      * exists (AllEvents.mk deposits withdraws transfers), s3.
        split; [intros allEvents; reflexivity |].
        right. exists s1, s2. cbn. auto.
      * exists noEvents, s3. split; [| left; reflexivity].
        intros allEvents. rewrite allEventsAppend_noEvents_r. reflexivity.
    + exists noEvents, s2. split; [| left; reflexivity].
      intros allEvents. rewrite allEventsAppend_noEvents_r. reflexivity.
  - exists noEvents, s1. split; [| left; reflexivity].
    intros allEvents. rewrite allEventsAppend_noEvents_r. reflexivity.
Qed.

Lemma getEventsFromRanges_loop_batch (ranges : list Range.t) :
  forall s : St,
    exists (batch : AllEvents.t) (s' : St),
      forall allEvents,
        getEventsFromRanges_loop this ranges allEvents s
        = (Done (allEventsAppend allEvents batch), s').
Proof.
  induction ranges as [| range rest IH]; intros s.
  - exists noEvents, s. intros allEvents. rewrite allEventsAppend_noEvents_r. reflexivity.
  - destruct (fetchRange_batch range s) as (batch & s1 & Hfetch & _).
    destruct (IH s1) as (batches & s' & Hrest).
    exists (allEventsAppend batch batches), s'. intros allEvents.
    cbn [getEventsFromRanges_loop]. unfold bind. rewrite Hfetch, Hrest.
    rewrite allEventsAppend_assoc. reflexivity.
Qed.

Lemma getEventsFromRanges_loop_app (first second : list Range.t) :
  forall (allEvents : AllEvents.t) (s : St),
    getEventsFromRanges_loop this (first ++ second) allEvents s
    = (let* collected := getEventsFromRanges_loop this first allEvents in
       getEventsFromRanges_loop this second collected) s.
Proof.
  induction first as [| range rest IH]; intros allEvents s; [reflexivity |].
  cbn [app getEventsFromRanges_loop]. unfold bind.
  destruct (try_catch (fetchRange this range allEvents) (fun _ => ret allEvents) s)
    as [[collected | e |] s1]; [| reflexivity | reflexivity].
  rewrite IH. reflexivity.
Qed.

End AnyProvider.

(** X11.  [getEventsFromRanges] never rejects, whatever the provider does,
    and the ranges are fetched independently: the events of [first ++
    second] are those of [first] followed by those of [second], fetched
    one batch after the other.  A single range gives all or nothing: either
    no event at all, or the answers of its three queries (deposits, then
    withdraws, then transfers), all three of which succeeded; the logs
    already fetched for a range are dropped when a later query of that
    range fails. *)
Theorem getEventsFromRanges_never_rejects_and_composes :
  forall (St : Type) (this : VaultBlockDiscovery St) (first second : list Range.t)
         (range : Range.t) (s : St),
    (exists e1 s1 e2 s2,
        getEventsFromRanges this first s = (Done e1, s1)
        /\ getEventsFromRanges this second s1 = (Done e2, s2)
        /\ getEventsFromRanges this (first ++ second) s = (Done (allEventsAppend e1 e2), s2))
    /\ (exists events s',
          getEventsFromRanges this [range] s = (Done events, s')
          /\ (events = noEvents
              \/ exists s1 s2,
                   getLogs (provider this)
                     (rangeFilter this range (deposit (eventTopics this))) s
                   = (Ok (AllEvents.deposits events), s1)
                   /\ getLogs (provider this)
                        (rangeFilter this range (withdraw (eventTopics this))) s1
                      = (Ok (AllEvents.withdraws events), s2)
                   /\ getLogs (provider this)
                        (rangeFilter this range (transfer (eventTopics this))) s2
                      = (Ok (AllEvents.transfers events), s'))).
Proof.
  intros St this first second range s. split.
  - destruct (getEventsFromRanges_loop_batch this first s) as (e1 & s1 & Hfirst).
    destruct (getEventsFromRanges_loop_batch this second s1) as (e2 & s2 & Hsecond).
    exists e1, s1, e2, s2. unfold getEventsFromRanges.
    change (AllEvents.mk [] [] []) with noEvents.
    rewrite getEventsFromRanges_loop_app. unfold bind.
    rewrite Hfirst, Hsecond, Hsecond, !allEventsAppend_noEvents_l. auto.
  - destruct (fetchRange_batch this range s) as (batch & s' & Hfetch & Hbatch).
    exists batch, s'. split; [| exact Hbatch].
    unfold getEventsFromRanges. change (AllEvents.mk [] [] []) with noEvents.
    cbn [getEventsFromRanges_loop]. unfold bind.
    rewrite Hfetch. unfold ret. rewrite allEventsAppend_noEvents_l. reflexivity.
Qed.

End RangeEvents.

(** ** The loops of [block-discovery.js] when every probe resolves *)

Module BlockLoops.
Import BlockDiscovery.

Section AnyProvider.
Context {St : Type} (this : VaultBlockDiscovery St).
Hypothesis width_ok : 0 <= maxBlockRange this.

Hypothesis probe_converges :
  forall (fromBlock toBlock : Z) (s : St),
    exists hasActivity s',
      converges (fun fuel => checkBlockRangeForActivity this fuel fromBlock toBlock)
                s hasActivity s'.

Lemma block_first_loop_converges (n : nat) :
  forall (left right result : Z) (s : St),
    right - left + 1 <= Z.of_nat n ->
    exists found s',
      converges (fun fuel => binarySearchFirstActivity_loop this fuel left right result)
                s found s'.
Proof.
  induction n as [| n IH]; intros left right result s Hspan;
    destruct (Z.leb_spec left right) as [Hle | Hgt]; try lia.
  - exists result, s, 1%nat. intros [| fuel] Hfuel; [lia |].
    cbn [binarySearchFirstActivity_loop].
    destruct (Z.leb_spec left right); [lia | reflexivity].
  - assert (Hmid : left <= (left + right) / 2 <= right) by (Z.div_mod_to_equations; lia).
    destruct (probe_converges ((left + right) / 2)
                (Z.min ((left + right) / 2 + maxBlockRange this) right) s)
      as (hasActivity & s1 & n1 & Hprobe).
    destruct hasActivity.
    + destruct (IH left ((left + right) / 2 - 1) ((left + right) / 2) s1 ltac:(lia))
        as (found & s' & n2 & Hrec).
      exists found, s', (S (Nat.max n1 n2)). intros [| fuel] Hfuel; [lia |].
      cbn [binarySearchFirstActivity_loop].
      destruct (Z.leb_spec left right); [| lia].
      cbv zeta. unfold bind. rewrite Hprobe by lia. apply Hrec. lia.
    + destruct (IH ((left + right) / 2 + maxBlockRange this + 1) right result s1
                  ltac:(lia)) as (found & s' & n2 & Hrec).
      exists found, s', (S (Nat.max n1 n2)). intros [| fuel] Hfuel; [lia |].
      cbn [binarySearchFirstActivity_loop].
      destruct (Z.leb_spec left right); [| lia].
      cbv zeta. unfold bind. rewrite Hprobe by lia. apply Hrec. lia.
  - exists result, s, 1%nat. intros [| fuel] Hfuel; [lia |].
    cbn [binarySearchFirstActivity_loop].
    destruct (Z.leb_spec left right); [lia | reflexivity].
Qed.

Lemma block_last_loop_converges (n : nat) :
  forall (left right result : Z) (s : St),
    right - left + 1 <= Z.of_nat n ->
    exists found s',
      converges (fun fuel => binarySearchLastActivity_loop this fuel left right result)
                s found s'.
Proof.
  induction n as [| n IH]; intros left right result s Hspan;
    destruct (Z.leb_spec left right) as [Hle | Hgt]; try lia.
  - exists result, s, 1%nat. intros [| fuel] Hfuel; [lia |].
    cbn [binarySearchLastActivity_loop].
    destruct (Z.leb_spec left right); [lia | reflexivity].
  - assert (Hmid : left <= (left + right) / 2 <= right) by (Z.div_mod_to_equations; lia).
    destruct (probe_converges (Z.max ((left + right) / 2 - maxBlockRange this) left)
                ((left + right) / 2) s)
      as (hasActivity & s1 & n1 & Hprobe).
    destruct hasActivity.
    + destruct (IH ((left + right) / 2 + 1) right ((left + right) / 2) s1 ltac:(lia))
        as (found & s' & n2 & Hrec).
      exists found, s', (S (Nat.max n1 n2)). intros [| fuel] Hfuel; [lia |].
      cbn [binarySearchLastActivity_loop].
      destruct (Z.leb_spec left right); [| lia].
      cbv zeta. unfold bind. rewrite Hprobe by lia. apply Hrec. lia.
    + destruct (IH left ((left + right) / 2 - maxBlockRange this - 1) result s1 ltac:(lia))
        as (found & s' & n2 & Hrec).
      exists found, s', (S (Nat.max n1 n2)). intros [| fuel] Hfuel; [lia |].
      cbn [binarySearchLastActivity_loop].
      destruct (Z.leb_spec left right); [| lia].
      cbv zeta. unfold bind. rewrite Hprobe by lia. apply Hrec. lia.
  - exists result, s, 1%nat. intros [| fuel] Hfuel; [lia |].
    cbn [binarySearchLastActivity_loop].
    destruct (Z.leb_spec left right); [lia | reflexivity].
Qed.

Lemma block_findActivityBoundaries_converges (fromBlock toBlock : Z) (s : St) :
  exists boundaries s',
    converges (fun fuel => findActivityBoundaries this fuel fromBlock toBlock) s boundaries s'.
Proof.
  destruct (block_first_loop_converges (Z.to_nat (toBlock - fromBlock + 1))
              fromBlock toBlock (-1) s ltac:(lia)) as (firstActive & s1 & Hfirst).
  destruct (Z.eqb_spec firstActive (-1)) as [Hnone | Hsome].
  - exists [], s1. unfold findActivityBoundaries.
    eapply (converges_bind _ (fun fuel firstActive => if firstActive =? -1 then ret [] else _));
      [exact Hfirst |].
    cbv beta. rewrite Hnone. apply converges_ret.
  - destruct (block_last_loop_converges (Z.to_nat (toBlock - firstActive + 1))
                firstActive toBlock firstActive s1 ltac:(lia)) as (lastActive & s2 & Hlast).
    exists [Boundary.mk firstActive lastActive (lastActive - firstActive + 1)], s2.
    unfold findActivityBoundaries.
    eapply (converges_bind _ (fun fuel firstActive =>
              if firstActive =? -1 then ret []
              else let* lastActive := binarySearchLastActivity this fuel firstActive toBlock in
                   ret [Boundary.mk firstActive lastActive (lastActive - firstActive + 1)]));
      [exact Hfirst |].
    cbv beta. destruct (Z.eqb_spec firstActive (-1)); [contradiction |].
    eapply (converges_bind _ (fun fuel lastActive =>
              ret [Boundary.mk firstActive lastActive (lastActive - firstActive + 1)]));
      [exact Hlast | apply converges_ret].
Qed.

Lemma block_subdivide_loop_converges (chunkSize endBlock : Z) (n : nat) :
  0 < chunkSize ->
  forall (i : Z) (ranges : list Range.t) (s : St),
    endBlock - i + 1 <= Z.of_nat n ->
    exists result s',
      converges (fun fuel => subdivideActiveRegion_loop this fuel chunkSize i endBlock ranges)
                s result s'.
Proof.
  intros Hpos. induction n as [| n IH]; intros i ranges s Hspan;
    destruct (Z.leb_spec i endBlock) as [Hle | Hgt]; try lia.
  - exists ranges, s, 1%nat. intros [| fuel] Hfuel; [lia |].
    cbn [subdivideActiveRegion_loop]. destruct (Z.leb_spec i endBlock); [lia | reflexivity].
  - destruct (probe_converges i (Z.min (i + chunkSize - 1) endBlock) s)
      as (hasActivity & s1 & n1 & Hprobe).
    destruct (IH (i + chunkSize)
                (if hasActivity
                 then ranges ++ [Range.mk i (Z.min (i + chunkSize - 1) endBlock)
                                   (Z.min (i + chunkSize - 1) endBlock - i + 1)]
                 else ranges) s1 ltac:(lia)) as (result & s' & n2 & Hrec).
    exists result, s', (S (Nat.max n1 n2)). intros [| fuel] Hfuel; [lia |].
    cbn [subdivideActiveRegion_loop]. destruct (Z.leb_spec i endBlock); [| lia].
    cbv zeta. unfold bind. rewrite Hprobe by lia. apply Hrec. lia.
  - exists ranges, s, 1%nat. intros [| fuel] Hfuel; [lia |].
    cbn [subdivideActiveRegion_loop]. destruct (Z.leb_spec i endBlock); [lia | reflexivity].
Qed.

Lemma block_subdivideBoundaries_converges (width_pos : 0 < maxBlockRange this)
    (boundaries : list Boundary.t) :
  forall (activeRanges : list Range.t) (s : St),
    exists result s',
      converges (fun fuel => subdivideBoundaries this fuel boundaries activeRanges) s result s'.
Proof.
  induction boundaries as [| boundary rest IH]; intros activeRanges s.
  - exists activeRanges, s. apply converges_ret.
  - destruct (block_subdivide_loop_converges (Z.min (maxBlockRange this) 5000)
                (Boundary.end_ boundary)
                (Z.to_nat (Boundary.end_ boundary - Boundary.start boundary + 1))
                ltac:(lia) (Boundary.start boundary) [] s ltac:(lia))
      as (detailed & s1 & Hsub).
    destruct (IH (activeRanges ++ detailed) s1) as (result & s' & Hrec).
    exists result, s'. cbn [subdivideBoundaries].
    eapply (converges_bind _ (fun fuel detailedRanges =>
              subdivideBoundaries this fuel rest (activeRanges ++ detailedRanges)));
      [exact Hsub | exact Hrec].
Qed.

Lemma block_discoverActiveBlocks_converges (width_pos : 0 < maxBlockRange this)
    (fromBlock toBlock : Z) (s : St) :
  exists ranges s',
    converges (fun fuel => discoverActiveBlocks this fuel fromBlock (Some toBlock)) s ranges s'.
Proof.
  destruct (block_findActivityBoundaries_converges fromBlock toBlock s)
    as (boundaries & s1 & Hfind).
  destruct (block_subdivideBoundaries_converges width_pos boundaries [] s1)
    as (subdivided & s2 & Hsub).
  exists (if (length boundaries =? 0)%nat then [] else subdivided),
         (if (length boundaries =? 0)%nat then s1 else s2).
  unfold discoverActiveBlocks.
  eapply (converges_ext (fun fuel => try_catch
            (let* boundaries := findActivityBoundaries this fuel fromBlock toBlock in
             if (length boundaries =? 0)%nat then ret []
             else subdivideBoundaries this fuel boundaries [])
            (fun error : string => throw error))); [intros fuel; reflexivity |].
  apply converges_try_catch.
  eapply (converges_bind _ (fun fuel boundaries =>
            if (length boundaries =? 0)%nat then ret []
            else subdivideBoundaries this fuel boundaries [])); [exact Hfind |].
  cbv beta. destruct (length boundaries =? 0)%nat; [apply converges_ret | exact Hsub].
Qed.

End AnyProvider.
End BlockLoops.

(** ** Discovery on a chain *)

Module ChainDiscovery.

Lemma In_blocksFrom (n : nat) :
  forall a b : Z, In b (blocksFrom n a) <-> a <= b < a + Z.of_nat n.
Proof.
  induction n as [| n IH]; intros a b; cbn [blocksFrom In].
  - lia.
  - rewrite IH. lia.
Qed.

Lemma In_blocksFromTo (a c b : Z) : In b (blocksFromTo a c) <-> a <= b <= c.
Proof. unfold blocksFromTo. rewrite In_blocksFrom. lia. Qed.

Lemma existsb_active (active : Z -> bool) (a c : Z) :
  existsb active (blocksFromTo a c) = true <-> exists b, a <= b <= c /\ active b = true.
Proof.
  rewrite existsb_exists. split; intros (b & Hb & Hactive); exists b.
  - apply In_blocksFromTo in Hb. auto.
  - split; [apply In_blocksFromTo; exact Hb | exact Hactive].
Qed.

(** The controller's probe never reports activity where there is none,
    whatever the limit of the provider. *)
Lemma app_probe_sound (active : Z -> bool) (limit : option Z) (head : Z)
    (vaultAddress : string) (fuel : nat) :
  forall (fromBlock toBlock : Z) (s' : unit),
    AppDiscovery.checkBlockRangeForActivity (chainDiscovery active limit head vaultAddress)
      fuel fromBlock toBlock tt = (Done true, s') ->
    exists b, fromBlock <= b <= toBlock /\ active b = true.
Proof.
  induction fuel as [| fuel IH]; intros fromBlock toBlock s' Hrun; [discriminate |].
  rewrite OnChain.app_copy_checkBlockRangeForActivity_unfold in Hrun.
  unfold try_catch, bind at 1, await in Hrun. rewrite OnChain.chain_answer in Hrun.
  assert (Hanswer :
            (Done (0 <? Z.of_nat (length (chainLogs active
                     (activityFilter (chainDiscovery active limit head vaultAddress)
                        fromBlock toBlock)))), tt)
            = (Done true, s') ->
            exists b, fromBlock <= b <= toBlock /\ active b = true).
  { intros Heq. injection Heq as Heq _. rewrite OnChain.chainLogs_some in Heq.
    apply existsb_active in Heq. exact Heq. }
  destruct limit as [w |]; [| exact (Hanswer Hrun)].
  destruct (Z.ltb_spec w (toBlock - fromBlock)) as [Hwide | Hfits]; [| exact (Hanswer Hrun)].
  change (includes "query exceeds max block range" "query exceeds") with true in Hrun.
  cbn [orb] in Hrun. cbv iota zeta in Hrun.
  destruct (Z.eqb_spec ((fromBlock + toBlock) / 2) fromBlock) as [Hmid | Hmid];
    [discriminate Hrun |].
  unfold bind in Hrun.
  destruct (AppDiscovery.checkBlockRangeForActivity _ fuel fromBlock
              ((fromBlock + toBlock) / 2) tt) as [[firstHalf | e |] []] eqn:Hfirst;
    try discriminate Hrun.
  destruct (AppDiscovery.checkBlockRangeForActivity _ fuel
              ((fromBlock + toBlock) / 2 + 1) toBlock tt) as [[secondHalf | e |] []] eqn:Hsecond;
    try discriminate Hrun.
  unfold ret in Hrun. injection Hrun as Hor. apply orb_true_iff in Hor. destruct Hor as [-> | ->].
  - destruct (IH _ _ _ Hfirst) as (b & Hb & Hactive). exists b. split; [| exact Hactive].
    revert Hb. Z.div_mod_to_equations. lia.
  - destruct (IH _ _ _ Hsecond) as (b & Hb & Hactive). exists b. split; [| exact Hactive].
    revert Hb. Z.div_mod_to_equations. lia.
Qed.

(** Nor does the probe of [block-discovery.js]. *)
Lemma probe_sound (active : Z -> bool) (limit : option Z) (head : Z)
    (vaultAddress : string) (fuel : nat) :
  forall (fromBlock toBlock : Z) (s' : unit),
    BlockDiscovery.checkBlockRangeForActivity (chainDiscovery active limit head vaultAddress)
      fuel fromBlock toBlock tt = (Done true, s') ->
    exists b, fromBlock <= b <= toBlock /\ active b = true.
Proof.
  induction fuel as [| fuel IH]; intros fromBlock toBlock s' Hrun; [discriminate |].
  rewrite OnChain.checkBlockRangeForActivity_unfold in Hrun.
  unfold try_catch, bind at 1, await in Hrun. rewrite OnChain.chain_answer in Hrun.
  assert (Hanswer :
            (Done (0 <? Z.of_nat (length (chainLogs active
                     (activityFilter (chainDiscovery active limit head vaultAddress)
                        fromBlock toBlock)))), tt)
            = (Done true, s') ->
            exists b, fromBlock <= b <= toBlock /\ active b = true).
  { intros Heq. injection Heq as Heq _. rewrite OnChain.chainLogs_some in Heq.
    apply existsb_active in Heq. exact Heq. }
  destruct limit as [w |]; [| exact (Hanswer Hrun)].
  destruct (Z.ltb_spec w (toBlock - fromBlock)) as [Hwide | Hfits]; [| exact (Hanswer Hrun)].
  change (includes "query exceeds max block range" "query exceeds") with true in Hrun.
  cbv iota zeta in Hrun. unfold bind in Hrun.
  destruct (BlockDiscovery.checkBlockRangeForActivity _ fuel fromBlock
              ((fromBlock + toBlock) / 2) tt) as [[firstHalf | e |] []] eqn:Hfirst;
    try discriminate Hrun.
  destruct (BlockDiscovery.checkBlockRangeForActivity _ fuel
              ((fromBlock + toBlock) / 2 + 1) toBlock tt) as [[secondHalf | e |] []] eqn:Hsecond;
    try discriminate Hrun.
  unfold ret in Hrun. injection Hrun as Hor. apply orb_true_iff in Hor. destruct Hor as [-> | ->].
  - destruct (IH _ _ _ Hfirst) as (b & Hb & Hactive). exists b. split; [| exact Hactive].
    revert Hb. Z.div_mod_to_equations. lia.
  - destruct (IH _ _ _ Hsecond) as (b & Hb & Hactive). exists b. split; [| exact Hactive].
    revert Hb. Z.div_mod_to_equations. lia.
Qed.

(** On a chain whose provider admits single blocks the probe of
    [block-discovery.js] resolves, with the exact answer. *)
Lemma probe_converges_on_chain (active : Z -> bool) (limit : option Z) (head : Z)
    (vaultAddress : string) (fromBlock toBlock : Z) (s : unit) :
  admitsSingleBlocks limit ->
  converges (fun fuel =>
               BlockDiscovery.checkBlockRangeForActivity
                 (chainDiscovery active limit head vaultAddress) fuel fromBlock toBlock)
            s (existsb active (blocksFromTo fromBlock toBlock)) tt.
Proof.
  intros Hlimit. destruct s. exists (S (Z.to_nat (toBlock - fromBlock))). intros fuel Hfuel.
  apply (refines_run
           (fun m => BlockDiscovery.checkBlockRangeForActivity
                       (chainDiscovery active limit head vaultAddress) m fromBlock toBlock)
           (S (Z.to_nat (toBlock - fromBlock))));
    [ intros m; apply BlockDiscoveryFacts.checkBlockRangeForActivity_step
    | apply OnChain.checkBlockRangeForActivity_exact; [exact Hlimit | lia]
    | discriminate
    | exact Hfuel ].
Qed.

(** A reliable provider answers the first query of every probe. *)
Lemma probe_converges_when_reliable {St} (this : VaultBlockDiscovery St)
    (fromBlock toBlock : Z) (s : St) :
  reliable (provider this) ->
  exists hasActivity s',
    converges (fun fuel => BlockDiscovery.checkBlockRangeForActivity this fuel fromBlock toBlock)
              s hasActivity s'.
Proof.
  intros Hreliable.
  destruct (Hreliable (activityFilter this fromBlock toBlock) s) as (logs & s' & Hlogs).
  exists (0 <? Z.of_nat (length logs)), s', 1%nat. intros [| fuel] Hfuel; [lia |].
  rewrite OnChain.checkBlockRangeForActivity_unfold.
  unfold try_catch, bind, await. rewrite Hlogs. reflexivity.
Qed.

(** *** Only ranges that hold activity are reported *)

Section Sound.
Context (active : Z -> bool) (limit : option Z) (head : Z) (vaultAddress : string).

Local Abbreviation this := (chainDiscovery active limit head vaultAddress).

Lemma subdivideActiveRegion_loop_sound (fuel : nat) (chunkSize endBlock : Z) :
  forall (i : Z) (ranges result : list Range.t) (s' : unit),
    BlockDiscovery.subdivideActiveRegion_loop this fuel chunkSize i endBlock ranges tt
    = (Done result, s') ->
    Forall (holdsActivity active) ranges -> Forall (holdsActivity active) result.
Proof.
  induction fuel as [| fuel IH]; intros i ranges result s' Hrun Hranges; [discriminate |].
  rewrite OnChain.subdivideActiveRegion_loop_unfold in Hrun.
  destruct (i <=? endBlock); [| injection Hrun as <- _; exact Hranges].
  cbv zeta in Hrun. unfold bind in Hrun.
  destruct (BlockDiscovery.checkBlockRangeForActivity this fuel i
              (Z.min (i + chunkSize - 1) endBlock) tt)
    as [[hasActivity | e |] []] eqn:Hprobe; try discriminate Hrun.
  apply IH in Hrun; [exact Hrun |].
  destruct hasActivity; [| exact Hranges].
  apply Forall_app. split; [exact Hranges |]. constructor; [| constructor].
  apply probe_sound in Hprobe. exact Hprobe.
Qed.

Lemma app_subdivideActiveRegion_loop_sound (fuel : nat) (chunkSize endBlock : Z) :
  forall (i : Z) (ranges result : list Range.t) (s' : unit),
    AppDiscovery.subdivideActiveRegion_loop this fuel chunkSize i endBlock ranges tt
    = (Done result, s') ->
    Forall (holdsActivity active) ranges -> Forall (holdsActivity active) result.
Proof.
  induction fuel as [| fuel IH]; intros i ranges result s' Hrun Hranges; [discriminate |].
  rewrite OnChain.app_copy_subdivideActiveRegion_loop_unfold in Hrun.
  destruct (i <=? endBlock); [| injection Hrun as <- _; exact Hranges].
  cbv zeta in Hrun. unfold bind in Hrun.
  destruct (AppDiscovery.checkBlockRangeForActivity this fuel i
              (Z.min (i + chunkSize - 1) endBlock) tt)
    as [[hasActivity | e |] []] eqn:Hprobe; try discriminate Hrun.
  apply IH in Hrun; [exact Hrun |].
  destruct hasActivity; [| exact Hranges].
  apply Forall_app. split; [exact Hranges |]. constructor; [| constructor].
  apply app_probe_sound in Hprobe. exact Hprobe.
Qed.

Lemma subdivideBoundaries_sound (fuel : nat) (boundaries : list Boundary.t) :
  forall (activeRanges result : list Range.t) (s s' : unit),
    BlockDiscovery.subdivideBoundaries this fuel boundaries activeRanges s = (Done result, s') ->
    Forall (holdsActivity active) activeRanges -> Forall (holdsActivity active) result.
Proof.
  induction boundaries as [| boundary rest IH]; intros activeRanges result s s' Hrun Hranges.
  - injection Hrun as <- _. exact Hranges.
  - cbn [BlockDiscovery.subdivideBoundaries] in Hrun. unfold bind in Hrun. destruct s.
    destruct (BlockDiscovery.subdivideActiveRegion this fuel (Boundary.start boundary)
                (Boundary.end_ boundary) tt) as [[detailed | e |] s1] eqn:Hsub;
      try discriminate Hrun.
    apply IH in Hrun; [exact Hrun |].
    apply Forall_app. split; [exact Hranges |].
    apply (subdivideActiveRegion_loop_sound _ _ _ _ _ _ _ Hsub). constructor.
Qed.

Lemma app_subdivideBoundaries_sound (fuel : nat) (boundaries : list Boundary.t) :
  forall (activeRanges result : list Range.t) (s s' : unit),
    AppDiscovery.subdivideBoundaries this fuel boundaries activeRanges s = (Done result, s') ->
    Forall (holdsActivity active) activeRanges -> Forall (holdsActivity active) result.
Proof.
  induction boundaries as [| boundary rest IH]; intros activeRanges result s s' Hrun Hranges.
  - injection Hrun as <- _. exact Hranges.
  - cbn [AppDiscovery.subdivideBoundaries] in Hrun. unfold bind in Hrun. destruct s.
    destruct (AppDiscovery.subdivideActiveRegion this fuel (Boundary.start boundary)
                (Boundary.end_ boundary) tt) as [[detailed | e |] s1] eqn:Hsub;
      try discriminate Hrun.
    apply IH in Hrun; [exact Hrun |].
    apply Forall_app. split; [exact Hranges |].
    apply (app_subdivideActiveRegion_loop_sound _ _ _ _ _ _ _ Hsub). constructor.
Qed.

Lemma discoverActiveBlocks_sound (fuel : nat) (fromBlock : Z) (toBlock : option Z)
    (ranges : list Range.t) (s s' : unit) :
  BlockDiscovery.discoverActiveBlocks this fuel fromBlock toBlock s = (Done ranges, s') ->
  Forall (holdsActivity active) ranges.
Proof.
  unfold BlockDiscovery.discoverActiveBlocks, bind at 1. intros Hrun.
  destruct (match toBlock with
            | Some b => ret b
            | None => await (getBlockNumber (provider this))
            end s) as [[latest | e |] s0]; try discriminate Hrun.
  unfold try_catch, bind in Hrun.
  destruct (BlockDiscovery.findActivityBoundaries this fuel fromBlock latest s0)
    as [[boundaries | e |] s1]; try discriminate Hrun.
  destruct (length boundaries =? 0)%nat; [injection Hrun as <- _; constructor |].
  destruct (BlockDiscovery.subdivideBoundaries this fuel boundaries [] s1)
    as [[subdivided | e |] s2] eqn:Hsub; try discriminate Hrun.
  injection Hrun as <- _. apply (subdivideBoundaries_sound _ _ _ _ _ _ Hsub). constructor.
Qed.

Lemma app_discoverActiveBlocks_sound (fuel : nat) (fromBlock : Z) (toBlock : option Z)
    (ranges : list Range.t) (s s' : unit) :
  AppDiscovery.discoverActiveBlocks this fuel fromBlock toBlock s = (Done ranges, s') ->
  Forall (holdsActivity active) ranges.
Proof.
  unfold AppDiscovery.discoverActiveBlocks, bind at 1. intros Hrun.
  destruct (match toBlock with
            | Some b => ret b
            | None => await (getBlockNumber (provider this))
            end s) as [[latest | e |] s0]; try discriminate Hrun.
  unfold try_catch, bind in Hrun.
  destruct (AppDiscovery.findActivityBoundaries this fuel fromBlock latest s0)
    as [[boundaries | e |] s1]; [| injection Hrun as <- _; constructor | discriminate Hrun].
  destruct (length boundaries =? 0)%nat; [injection Hrun as <- _; constructor |].
  destruct (AppDiscovery.subdivideBoundaries this fuel boundaries [] s1)
    as [[subdivided | e |] s2] eqn:Hsub;
    [| injection Hrun as <- _; constructor | discriminate Hrun].
  injection Hrun as <- _. apply (app_subdivideBoundaries_sound _ _ _ _ _ _ Hsub). constructor.
Qed.

End Sound.

End ChainDiscovery.

(** ** What the discovery reports, on any provider *)

Module DiscoveryShape.

Lemma app_first_loop_within {St} (this : VaultBlockDiscovery St) (fuel : nat) :
  0 <= maxBlockRange this ->
  forall (left right result found : Z) (s s' : St),
    AppDiscovery.binarySearchFirstActivity_loop this fuel left right result s
    = (Done found, s') ->
    found = result \/ left <= found <= right.
Proof.
  intros Hwidth. induction fuel as [| fuel IH]; intros left right result found s s' Hrun;
    [discriminate |].
  cbn [AppDiscovery.binarySearchFirstActivity_loop] in Hrun.
  destruct (Z.leb_spec left right) as [Hle | Hgt];
    [| injection Hrun as <- _; left; reflexivity].
  unfold bind at 1 in Hrun.
  destruct (AppDiscovery.checkBlockRangeForActivity this fuel _ _ s) as [[[|] | e |] s1];
    try discriminate Hrun; apply IH in Hrun;
    assert (left <= (left + right) / 2 <= right) by (Z.div_mod_to_equations; lia); lia.
Qed.

Lemma app_last_loop_within {St} (this : VaultBlockDiscovery St) (fuel : nat) :
  0 <= maxBlockRange this ->
  forall (left right result found : Z) (s s' : St),
    AppDiscovery.binarySearchLastActivity_loop this fuel left right result s
    = (Done found, s') ->
    found = result \/ left <= found <= right.
Proof.
  intros Hwidth. induction fuel as [| fuel IH]; intros left right result found s s' Hrun;
    [discriminate |].
  cbn [AppDiscovery.binarySearchLastActivity_loop] in Hrun.
  destruct (Z.leb_spec left right) as [Hle | Hgt];
    [| injection Hrun as <- _; left; reflexivity].
  unfold bind at 1 in Hrun.
  destruct (AppDiscovery.checkBlockRangeForActivity this fuel _ _ s) as [[[|] | e |] s1];
    try discriminate Hrun; apply IH in Hrun;
    assert (left <= (left + right) / 2 <= right) by (Z.div_mod_to_equations; lia); lia.
Qed.

Lemma app_findActivityBoundaries_within_span {St} (this : VaultBlockDiscovery St)
    (fuel : nat) (fromBlock toBlock : Z) (boundaries : list Boundary.t) (s s' : St) :
  0 <= maxBlockRange this ->
  0 <= fromBlock <= toBlock ->
  AppDiscovery.findActivityBoundaries this fuel fromBlock toBlock s = (Done boundaries, s') ->
  boundaries = []
  \/ exists first last,
       boundaries = [Boundary.mk first last (last - first + 1)]
       /\ fromBlock <= first /\ first <= last /\ last <= toBlock.
Proof.
  intros Hwidth Hspan Hrun. unfold AppDiscovery.findActivityBoundaries, bind at 1 in Hrun.
  destruct (AppDiscovery.binarySearchFirstActivity this fuel fromBlock toBlock s)
    as [[first | e |] s1] eqn:Hfirst; try discriminate Hrun.
  destruct (Z.eqb_spec first (-1)) as [-> | Hfound];
    [injection Hrun as <- _; left; reflexivity |].
  unfold bind in Hrun.
  destruct (AppDiscovery.binarySearchLastActivity this fuel first toBlock s1)
    as [[last | e |] s2] eqn:Hlast; try discriminate Hrun.
  injection Hrun as <- _. right. exists first, last.
  apply app_first_loop_within in Hfirst; [| exact Hwidth].
  apply app_last_loop_within in Hlast; [| exact Hwidth].
  split; [reflexivity |]. lia.
Qed.

Lemma chunkWithin_widen (size lo hi lo' hi' : Z) (ranges : list Range.t) :
  lo' <= lo -> hi <= hi' ->
  Forall (chunkWithin size lo hi) ranges -> Forall (chunkWithin size lo' hi') ranges.
Proof.
  intros Hlo Hhi Hall. eapply Forall_impl; [exact Hall |].
  intros r (H1 & H2 & H3 & H4 & H5). unfold chunkWithin.
  split; [lia |]. split; [exact H2 |]. split; [lia |]. split; assumption.
Qed.

Section AnyProvider.
Context {St : Type} (this : VaultBlockDiscovery St).
Hypothesis width_pos : 0 < maxBlockRange this.

Lemma discoverActiveBlocks_shape (fuel : nat) (fromBlock toBlock : Z)
    (ranges : list Range.t) (s s' : St) :
  0 <= fromBlock <= toBlock ->
  BlockDiscovery.discoverActiveBlocks this fuel fromBlock (Some toBlock) s = (Done ranges, s') ->
  Forall (chunkWithin 5000 fromBlock toBlock) ranges /\ StronglySorted before ranges.
Proof.
  intros Hspan Hrun.
  unfold BlockDiscovery.discoverActiveBlocks, bind at 1, ret at 1, try_catch, bind at 1 in Hrun.
  destruct (BlockDiscovery.findActivityBoundaries this fuel fromBlock toBlock s)
    as [[boundaries | e |] s1] eqn:Hfind; try discriminate Hrun.
  apply BoundarySearch.findActivityBoundaries_within_span in Hfind; [| lia | exact Hspan].
  destruct Hfind as [-> | (first & last & -> & Hfirst & Horder & Hlast)].
  - injection Hrun as <- _. split; constructor.
  - cbn [length Nat.eqb BlockDiscovery.subdivideBoundaries Boundary.start Boundary.end_ app]
      in Hrun.
    unfold bind in Hrun.
    destruct (BlockDiscovery.subdivideActiveRegion this fuel first last s1)
      as [[detailed | e |] s2] eqn:Hsub; try discriminate Hrun.
    injection Hrun as <- _.
    apply Subdivision.subdivideActiveRegion_shape in Hsub; [| exact width_pos].
    destruct Hsub as [Hall Hsorted]. split; [| exact Hsorted].
    apply (chunkWithin_widen 5000 first last); assumption.
Qed.

Lemma app_discoverActiveBlocks_shape (fuel : nat) (fromBlock toBlock : Z)
    (ranges : list Range.t) (s s' : St) :
  0 <= fromBlock <= toBlock ->
  AppDiscovery.discoverActiveBlocks this fuel fromBlock (Some toBlock) s = (Done ranges, s') ->
  Forall (chunkWithin 5000 fromBlock toBlock) ranges /\ StronglySorted before ranges.
Proof.
  intros Hspan Hrun.
  unfold AppDiscovery.discoverActiveBlocks, bind at 1, ret at 1, try_catch, bind at 1 in Hrun.
  destruct (AppDiscovery.findActivityBoundaries this fuel fromBlock toBlock s)
    as [[boundaries | e |] s1] eqn:Hfind;
    [| injection Hrun as <- _; split; constructor | discriminate Hrun].
  apply app_findActivityBoundaries_within_span in Hfind; [| lia | exact Hspan].
  destruct Hfind as [-> | (first & last & -> & Hfirst & Horder & Hlast)].
  - injection Hrun as <- _. split; constructor.
  - cbn [length Nat.eqb AppDiscovery.subdivideBoundaries Boundary.start Boundary.end_ app]
      in Hrun.
    unfold bind in Hrun.
    destruct (AppDiscovery.subdivideActiveRegion this fuel first last s1)
      as [[detailed | e |] s2] eqn:Hsub;
      [| injection Hrun as <- _; split; constructor | discriminate Hrun].
    injection Hrun as <- _.
    apply Subdivision.app_copy_subdivideActiveRegion_shape in Hsub; [| exact width_pos].
    destruct Hsub as [Hall Hsorted]. split; [| exact Hsorted].
    apply (chunkWithin_widen 5000 first last); assumption.
Qed.

End AnyProvider.

(** X12.  The controller's copy of [discoverActiveBlocks], called with a
    span [0 <= fromBlock <= toBlock], resolves on every provider, whatever
    it answers and whenever it fails: the two searches and the subdivision
    terminate, and no error leaves the method.  The ranges it reports lie
    within the span, hold at most 5000 blocks each, record their length,
    and are listed in ascending order without overlap. *)
Theorem app_copy_discoverActiveBlocks_resolves_within_span :
  forall (St : Type) (p : Provider St) (vaultAddress : string) (fromBlock toBlock : Z) (s : St),
    0 <= fromBlock <= toBlock ->
    exists (ranges : list Range.t) (s' : St),
      converges (fun fuel =>
                   AppDiscovery.discoverActiveBlocks (new_VaultBlockDiscovery p vaultAddress)
                     fuel fromBlock (Some toBlock))
                s ranges s'
      /\ Forall (chunkWithin 5000 fromBlock toBlock) ranges
      /\ StronglySorted before ranges.
Proof.
  intros St p vaultAddress fromBlock toBlock s Hspan.
  destruct (AppLoops.app_discoverActiveBlocks_converges (new_VaultBlockDiscovery p vaultAddress)
              ltac:(cbn; lia) ltac:(cbn; lia) fromBlock toBlock s)
    as (ranges & s' & n & Hrun).
  exists ranges, s'. split; [exists n; exact Hrun |].
  apply (app_discoverActiveBlocks_shape (new_VaultBlockDiscovery p vaultAddress)
           ltac:(cbn; lia) n fromBlock toBlock ranges s s' Hspan).
  apply Hrun. lia.
Qed.

Lemma app_copy_discoverActiveBlocks_witness :
  exists (ranges : list Range.t) (s' : unit),
    converges (fun fuel =>
                 AppDiscovery.discoverActiveBlocks
                   (new_VaultBlockDiscovery (rejectingProvider "rate limited") "0xVAULT")
                   fuel 0 (Some 1000000))
              tt ranges s'
    /\ Forall (chunkWithin 5000 0 1000000) ranges
    /\ StronglySorted before ranges.
Proof.
  apply (app_copy_discoverActiveBlocks_resolves_within_span unit
           (rejectingProvider "rate limited") "0xVAULT" 0 1000000 tt).
  lia.
Defined.

(** X13.  [discoverActiveBlocks] of [block-discovery.js], called with a
    span [0 <= fromBlock <= toBlock] on a provider that never refuses a
    log query, resolves, and the ranges it reports lie within the span,
    hold at most 5000 blocks each, record their length, and are listed in
    ascending order without overlap. *)
Theorem discoverActiveBlocks_resolves_on_reliable_providers :
  forall (St : Type) (p : Provider St) (vaultAddress : string) (fromBlock toBlock : Z) (s : St),
    reliable p ->
    0 <= fromBlock <= toBlock ->
    exists (ranges : list Range.t) (s' : St),
      converges (fun fuel =>
                   BlockDiscovery.discoverActiveBlocks (new_VaultBlockDiscovery p vaultAddress)
                     fuel fromBlock (Some toBlock))
                s ranges s'
      /\ Forall (chunkWithin 5000 fromBlock toBlock) ranges
      /\ StronglySorted before ranges.
Proof.
  intros St p vaultAddress fromBlock toBlock s Hreliable Hspan.
  destruct (BlockLoops.block_discoverActiveBlocks_converges
              (new_VaultBlockDiscovery p vaultAddress) ltac:(cbn; lia)
              (fun f t s0 => ChainDiscovery.probe_converges_when_reliable
                               (new_VaultBlockDiscovery p vaultAddress) f t s0 Hreliable)
              ltac:(cbn; lia) fromBlock toBlock s)
    as (ranges & s' & n & Hrun).
  exists ranges, s'. split; [exists n; exact Hrun |].
  apply (discoverActiveBlocks_shape (new_VaultBlockDiscovery p vaultAddress)
           ltac:(cbn; lia) n fromBlock toBlock ranges s s' Hspan).
  apply Hrun. lia.
Qed.

Lemma discoverActiveBlocks_reliable_witness :
  exists (ranges : list Range.t) (s' : unit),
    converges (fun fuel =>
                 BlockDiscovery.discoverActiveBlocks
                   (new_VaultBlockDiscovery (chainProvider (fun b => b =? 7000) None 20000)
                      "0xVAULT")
                   fuel 0 (Some 12000))
              tt ranges s'
    /\ Forall (chunkWithin 5000 0 12000) ranges
    /\ StronglySorted before ranges.
Proof.
  apply (discoverActiveBlocks_resolves_on_reliable_providers unit
           (chainProvider (fun b => b =? 7000) None 20000) "0xVAULT" 0 12000 tt).
  - intros f s. eexists. eexists. reflexivity.
  - lia.
Defined.

End DiscoveryShape.

(** ** What the discovery reports, on a chain *)

Module ChainReports.

(** X14.  On a chain, whatever the limit of its provider, the controller's
    copy of [discoverActiveBlocks] resolves (also with the default
    [toBlock = 'latest']) and every range it reports holds a block with a
    watched event: it has no false positives. *)
Theorem app_copy_discovery_reports_only_activity :
  forall (active : Z -> bool) (limit : option Z) (head : Z) (vaultAddress : string)
         (fromBlock : Z) (toBlock : option Z),
    exists ranges : list Range.t,
      converges (fun fuel =>
                   AppDiscovery.discoverActiveBlocks
                     (chainDiscovery active limit head vaultAddress) fuel fromBlock toBlock)
                tt ranges tt
      /\ Forall (holdsActivity active) ranges.
Proof.
  intros active limit head vaultAddress fromBlock toBlock.
  destruct (AppLoops.app_discoverActiveBlocks_converges
              (chainDiscovery active limit head vaultAddress) ltac:(cbn; lia) ltac:(cbn; lia)
              fromBlock (default head toBlock) tt) as (ranges & [] & n & Hrun).
  assert (Hlatest : forall fuel,
             AppDiscovery.discoverActiveBlocks (chainDiscovery active limit head vaultAddress)
               fuel fromBlock toBlock tt
             = AppDiscovery.discoverActiveBlocks (chainDiscovery active limit head vaultAddress)
                 fuel fromBlock (Some (default head toBlock)) tt)
    by (intros fuel; destruct toBlock; reflexivity).
  exists ranges. split.
  - exists n. intros fuel Hfuel. rewrite Hlatest. apply Hrun. exact Hfuel.
  - apply (ChainDiscovery.app_discoverActiveBlocks_sound active limit head vaultAddress
             n fromBlock (Some (default head toBlock)) ranges tt tt).
    apply Hrun. lia.
Qed.

(** X15.  On a chain whose provider admits at least single-block queries,
    [discoverActiveBlocks] of [block-discovery.js] resolves (also with the
    default [toBlock = 'latest']) and every range it reports holds a block
    with a watched event. *)
Theorem discovery_reports_only_activity :
  forall (active : Z -> bool) (limit : option Z) (head : Z) (vaultAddress : string)
         (fromBlock : Z) (toBlock : option Z),
    admitsSingleBlocks limit ->
    exists ranges : list Range.t,
      converges (fun fuel =>
                   BlockDiscovery.discoverActiveBlocks
                     (chainDiscovery active limit head vaultAddress) fuel fromBlock toBlock)
                tt ranges tt
      /\ Forall (holdsActivity active) ranges.
Proof.
  intros active limit head vaultAddress fromBlock toBlock Hlimit.
  destruct (BlockLoops.block_discoverActiveBlocks_converges
              (chainDiscovery active limit head vaultAddress) ltac:(cbn; lia)
              (fun f t s =>
                 ex_intro _ _ (ex_intro _ tt
                   (ChainDiscovery.probe_converges_on_chain active limit head vaultAddress
                      f t s Hlimit)))
              ltac:(cbn; lia) fromBlock (default head toBlock) tt)
    as (ranges & [] & n & Hrun).
  assert (Hlatest : forall fuel,
             BlockDiscovery.discoverActiveBlocks (chainDiscovery active limit head vaultAddress)
               fuel fromBlock toBlock tt
             = BlockDiscovery.discoverActiveBlocks
                 (chainDiscovery active limit head vaultAddress)
                 fuel fromBlock (Some (default head toBlock)) tt)
    by (intros fuel; destruct toBlock; reflexivity).
  exists ranges. split.
  - exists n. intros fuel Hfuel. rewrite Hlatest. apply Hrun. exact Hfuel.
  - apply (ChainDiscovery.discoverActiveBlocks_sound active limit head vaultAddress
             n fromBlock (Some (default head toBlock)) ranges tt tt).
    apply Hrun. lia.
Qed.

(** On the chain of the two bursts, whose provider refuses spans above
    1,000 blocks, the discovery reports the two chunks that hold them. *)
Lemma discovery_reports_only_activity_witness :
  exists ranges : list Range.t,
    converges (fun fuel =>
                 BlockDiscovery.discoverActiveBlocks
                   (chainDiscovery twoBursts (Some 1000) 20000 "0xVAULT") fuel 0 None)
              tt ranges tt
    /\ Forall (holdsActivity twoBursts) ranges
    /\ ranges = [Range.mk 10000 14999 5000; Range.mk 15000 15000 1].
Proof.
  destruct (discovery_reports_only_activity twoBursts (Some 1000) 20000 "0xVAULT" 0 None
              ltac:(cbn; lia)) as (ranges & Hrun & Hall).
  exists ranges. split; [exact Hrun |]. split; [exact Hall |].
  refine (proj1 (converges_unique _ _ _ _ _ _ Hrun _)). exists 30%nat. intros fuel Hfuel.
  apply (refines_run
           (fun m => BlockDiscovery.discoverActiveBlocks
                       (chainDiscovery twoBursts (Some 1000) 20000 "0xVAULT") m 0 None)
           30);
    [ intros m; apply BlockDiscoveryFacts.discoverActiveBlocks_step
    | vm_compute; reflexivity
    | discriminate
    | exact Hfuel ].
Defined.

(** *** The subdivision loses no activity *)

Section Chain.
Context (active : Z -> bool) (limit : option Z) (head : Z) (vaultAddress : string).
Hypothesis limit_ok : admitsSingleBlocks limit.

Local Abbreviation this := (chainDiscovery active limit head vaultAddress).

Lemma subdivideActiveRegion_loop_exact (chunkSize endBlock : Z) (n : nat) :
  0 < chunkSize ->
  forall (i : Z) (ranges : list Range.t),
    endBlock - i + 1 <= Z.of_nat n ->
    exists added : list Range.t,
      converges (fun fuel =>
                   BlockDiscovery.subdivideActiveRegion_loop this fuel chunkSize i endBlock
                     ranges)
                tt (ranges ++ added) tt
      /\ (forall b, i <= b <= endBlock -> active b = true ->
            exists r, In r added /\ Range.start r <= b <= Range.end_ r)
      /\ Forall (holdsActivity active) added.
Proof.
  intros Hpos. induction n as [| n IH]; intros i ranges Hspan;
    destruct (Z.leb_spec i endBlock) as [Hle | Hgt]; try lia.
  - exists []. rewrite app_nil_r. split; [| split; [intros b Hb; lia | constructor]].
    exists 1%nat. intros [| fuel] Hfuel; [lia |].
    rewrite OnChain.subdivideActiveRegion_loop_unfold.
    destruct (Z.leb_spec i endBlock); [lia | reflexivity].
  - destruct (ChainDiscovery.probe_converges_on_chain active limit head vaultAddress
                i (Z.min (i + chunkSize - 1) endBlock) tt limit_ok) as (n1 & Hprobe).
    destruct (existsb active (blocksFromTo i (Z.min (i + chunkSize - 1) endBlock)))
      eqn:Hactivity.
    + destruct (IH (i + chunkSize)
                  (ranges ++ [Range.mk i (Z.min (i + chunkSize - 1) endBlock)
                                (Z.min (i + chunkSize - 1) endBlock - i + 1)]) ltac:(lia))
        as (added & (n2 & Hrec) & Hcover & Hsound).
      exists (Range.mk i (Z.min (i + chunkSize - 1) endBlock)
                (Z.min (i + chunkSize - 1) endBlock - i + 1) :: added).
      split; [| split].
      * exists (S (Nat.max n1 n2)). intros [| fuel] Hfuel; [lia |].
        rewrite OnChain.subdivideActiveRegion_loop_unfold.
        destruct (Z.leb_spec i endBlock); [| lia].
        cbv zeta. unfold bind. rewrite Hprobe by lia. rewrite Hrec by lia.
        rewrite <- app_assoc. reflexivity.
      * intros b Hb Hactive.
        destruct (Z.le_gt_cases b (Z.min (i + chunkSize - 1) endBlock)) as [Hin | Hout].
        -- eexists. split; [left; reflexivity |]. cbn. lia.
        -- destruct (Hcover b ltac:(lia) Hactive) as (r & Hr & Hbounds).
           exists r. split; [right; exact Hr | exact Hbounds].
      * constructor; [| exact Hsound].
        apply ChainDiscovery.existsb_active in Hactivity. exact Hactivity.
    + destruct (IH (i + chunkSize) ranges ltac:(lia)) as (added & (n2 & Hrec) & Hcover & Hsound).
      exists added. split; [| split; [| exact Hsound]].
      * exists (S (Nat.max n1 n2)). intros [| fuel] Hfuel; [lia |].
        rewrite OnChain.subdivideActiveRegion_loop_unfold.
        destruct (Z.leb_spec i endBlock); [| lia].
        cbv zeta. unfold bind. rewrite Hprobe by lia. rewrite Hrec by lia. reflexivity.
      * intros b Hb Hactive.
        destruct (Z.le_gt_cases b (Z.min (i + chunkSize - 1) endBlock)) as [Hin | Hout].
        -- assert (Hsome : existsb active
                             (blocksFromTo i (Z.min (i + chunkSize - 1) endBlock)) = true)
             by (apply ChainDiscovery.existsb_active; exists b; split; [lia | exact Hactive]).
           rewrite Hactivity in Hsome. discriminate Hsome.
        -- apply Hcover; [lia | exact Hactive].
  - exists []. rewrite app_nil_r. split; [| split; [intros b Hb; lia | constructor]].
    exists 1%nat. intros [| fuel] Hfuel; [lia |].
    rewrite OnChain.subdivideActiveRegion_loop_unfold.
    destruct (Z.leb_spec i endBlock); [lia | reflexivity].
Qed.

End Chain.

(** X16.  On a chain whose provider admits at least single-block queries,
    [subdivideActiveRegion] of [block-discovery.js] resolves and keeps
    exactly the chunks with activity: every block of [startBlock, endBlock]
    with a watched event lies in a reported range, and every reported
    range holds such a block. *)
Theorem subdivideActiveRegion_loses_no_activity :
  forall (active : Z -> bool) (limit : option Z) (head : Z) (vaultAddress : string)
         (startBlock endBlock : Z),
    admitsSingleBlocks limit ->
    exists ranges : list Range.t,
      converges (fun fuel =>
                   BlockDiscovery.subdivideActiveRegion
                     (chainDiscovery active limit head vaultAddress) fuel startBlock endBlock)
                tt ranges tt
      /\ (forall b, startBlock <= b <= endBlock -> active b = true ->
            exists r, In r ranges /\ Range.start r <= b <= Range.end_ r)
      /\ Forall (holdsActivity active) ranges.
Proof.
  intros active limit head vaultAddress startBlock endBlock Hlimit.
  destruct (subdivideActiveRegion_loop_exact active limit head vaultAddress Hlimit
              5000 endBlock (Z.to_nat (endBlock - startBlock + 1)) ltac:(lia)
              startBlock [] ltac:(lia)) as (ranges & Hrun & Hcover & Hsound).
  exists ranges. split; [exact Hrun |]. split; assumption.
Qed.

Lemma subdivideActiveRegion_loses_no_activity_witness :
  exists ranges : list Range.t,
    converges (fun fuel =>
                 BlockDiscovery.subdivideActiveRegion
                   (chainDiscovery (fun b => b =? 7000) (Some 1000) 20000 "0xVAULT")
                   fuel 0 12000)
              tt ranges tt
    /\ (forall b, 0 <= b <= 12000 -> (b =? 7000) = true ->
          exists r, In r ranges /\ Range.start r <= b <= Range.end_ r)
    /\ Forall (holdsActivity (fun b => b =? 7000)) ranges.
Proof.
  apply (subdivideActiveRegion_loses_no_activity (fun b => b =? 7000) (Some 1000) 20000
           "0xVAULT" 0 12000).
  cbn. lia.
Defined.

End ChainReports.

(** ** The controller's subdivision on a chain *)

Module AppChainReports.

(** The controller's probe is exact when the provider admits queries over
    two blocks: the guard against a collapsed midpoint is then never
    reached. *)
Lemma app_probe_exact (active : Z -> bool) (limit : option Z) (head : Z)
    (vaultAddress : string) (k : nat) :
  admitsPairs limit ->
  forall fromBlock toBlock,
    toBlock - fromBlock <= Z.of_nat k ->
    AppDiscovery.checkBlockRangeForActivity (chainDiscovery active limit head vaultAddress)
      (S k) fromBlock toBlock tt
    = (Done (existsb active (blocksFromTo fromBlock toBlock)), tt).
Proof.
  intros Hlimit.
  induction k as [| k IH]; intros fromBlock toBlock Hspan;
    rewrite OnChain.app_copy_checkBlockRangeForActivity_unfold;
    unfold try_catch, bind at 1, await; rewrite OnChain.chain_answer;
    (destruct limit as [w |]; [| unfold ret; rewrite OnChain.chainLogs_some; reflexivity]);
    (destruct (Z.ltb_spec w (toBlock - fromBlock)) as [Hwide | Hfits];
       [| unfold ret; rewrite OnChain.chainLogs_some; reflexivity]);
    cbn in Hlimit.
  - lia.
  - change (includes "query exceeds max block range" "query exceeds") with true.
    cbn [orb]. cbv iota zeta.
    destruct (Z.eqb_spec ((fromBlock + toBlock) / 2) fromBlock) as [Hmid | Hmid];
      [revert Hmid; Z.div_mod_to_equations; lia |].
    assert (Hleft : (fromBlock + toBlock) / 2 - fromBlock <= Z.of_nat k)
      by (Z.div_mod_to_equations; lia).
    assert (Hright : toBlock - ((fromBlock + toBlock) / 2 + 1) <= Z.of_nat k)
      by (Z.div_mod_to_equations; lia).
    unfold bind. rewrite (IH _ _ Hleft), (IH _ _ Hright). unfold ret.
    rewrite (OnChain.blocksFromTo_split fromBlock ((fromBlock + toBlock) / 2) toBlock)
      by (Z.div_mod_to_equations; lia).
    rewrite existsb_app. reflexivity.
Qed.

Lemma app_probe_converges_on_chain (active : Z -> bool) (limit : option Z) (head : Z)
    (vaultAddress : string) (fromBlock toBlock : Z) :
  admitsPairs limit ->
  converges (fun fuel =>
               AppDiscovery.checkBlockRangeForActivity
                 (chainDiscovery active limit head vaultAddress) fuel fromBlock toBlock)
            tt (existsb active (blocksFromTo fromBlock toBlock)) tt.
Proof.
  intros Hlimit. exists (S (Z.to_nat (toBlock - fromBlock))). intros fuel Hfuel.
  apply (refines_run
           (fun m => AppDiscovery.checkBlockRangeForActivity
                       (chainDiscovery active limit head vaultAddress) m fromBlock toBlock)
           (S (Z.to_nat (toBlock - fromBlock))));
    [ intros m; apply OnChain.app_copy_checkBlockRangeForActivity_step
    | apply app_probe_exact; [exact Hlimit | lia]
    | discriminate
    | exact Hfuel ].
Qed.

Section Chain.
Context (active : Z -> bool) (limit : option Z) (head : Z) (vaultAddress : string).
Hypothesis limit_ok : admitsPairs limit.

Local Abbreviation this := (chainDiscovery active limit head vaultAddress).

Lemma app_subdivideActiveRegion_loop_exact (chunkSize endBlock : Z) (n : nat) :
  0 < chunkSize ->
  forall (i : Z) (ranges : list Range.t),
    endBlock - i + 1 <= Z.of_nat n ->
    exists added : list Range.t,
      converges (fun fuel =>
                   AppDiscovery.subdivideActiveRegion_loop this fuel chunkSize i endBlock
                     ranges)
                tt (ranges ++ added) tt
      /\ (forall b, i <= b <= endBlock -> active b = true ->
            exists r, In r added /\ Range.start r <= b <= Range.end_ r)
      /\ Forall (holdsActivity active) added.
Proof.
  intros Hpos. induction n as [| n IH]; intros i ranges Hspan;
    destruct (Z.leb_spec i endBlock) as [Hle | Hgt]; try lia.
  - exists []. rewrite app_nil_r. split; [| split; [intros b Hb; lia | constructor]].
    exists 1%nat. intros [| fuel] Hfuel; [lia |].
    rewrite OnChain.app_copy_subdivideActiveRegion_loop_unfold.
    destruct (Z.leb_spec i endBlock); [lia | reflexivity].
  - destruct (app_probe_converges_on_chain active limit head vaultAddress
                i (Z.min (i + chunkSize - 1) endBlock) limit_ok) as (n1 & Hprobe).
    destruct (existsb active (blocksFromTo i (Z.min (i + chunkSize - 1) endBlock)))
      eqn:Hactivity.
    + destruct (IH (i + chunkSize)
                  (ranges ++ [Range.mk i (Z.min (i + chunkSize - 1) endBlock)
                                (Z.min (i + chunkSize - 1) endBlock - i + 1)]) ltac:(lia))
        as (added & (n2 & Hrec) & Hcover & Hsound).
      exists (Range.mk i (Z.min (i + chunkSize - 1) endBlock)
                (Z.min (i + chunkSize - 1) endBlock - i + 1) :: added).
      split; [| split].
      * exists (S (Nat.max n1 n2)). intros [| fuel] Hfuel; [lia |].
        rewrite OnChain.app_copy_subdivideActiveRegion_loop_unfold.
        destruct (Z.leb_spec i endBlock); [| lia].
        cbv zeta. unfold bind. rewrite Hprobe by lia. rewrite Hrec by lia.
        rewrite <- app_assoc. reflexivity.
      * intros b Hb Hactive.
        destruct (Z.le_gt_cases b (Z.min (i + chunkSize - 1) endBlock)) as [Hin | Hout].
        -- eexists. split; [left; reflexivity |]. cbn. lia.
        -- destruct (Hcover b ltac:(lia) Hactive) as (r & Hr & Hbounds).
           exists r. split; [right; exact Hr | exact Hbounds].
      * constructor; [| exact Hsound].
        apply ChainDiscovery.existsb_active in Hactivity. exact Hactivity.
    + destruct (IH (i + chunkSize) ranges ltac:(lia)) as (added & (n2 & Hrec) & Hcover & Hsound).
      exists added. split; [| split; [| exact Hsound]].
      * exists (S (Nat.max n1 n2)). intros [| fuel] Hfuel; [lia |].
        rewrite OnChain.app_copy_subdivideActiveRegion_loop_unfold.
        destruct (Z.leb_spec i endBlock); [| lia].
        cbv zeta. unfold bind. rewrite Hprobe by lia. rewrite Hrec by lia. reflexivity.
      * intros b Hb Hactive.
        destruct (Z.le_gt_cases b (Z.min (i + chunkSize - 1) endBlock)) as [Hin | Hout].
        -- assert (Hsome : existsb active
                             (blocksFromTo i (Z.min (i + chunkSize - 1) endBlock)) = true)
             by (apply ChainDiscovery.existsb_active; exists b; split; [lia | exact Hactive]).
           rewrite Hactivity in Hsome. discriminate Hsome.
        -- apply Hcover; [lia | exact Hactive].
  - exists []. rewrite app_nil_r. split; [| split; [intros b Hb; lia | constructor]].
    exists 1%nat. intros [| fuel] Hfuel; [lia |].
    rewrite OnChain.app_copy_subdivideActiveRegion_loop_unfold.
    destruct (Z.leb_spec i endBlock); [lia | reflexivity].
Qed.

End Chain.

(** X17.  On a chain whose provider admits queries over two blocks, the
    controller's copy of [subdivideActiveRegion] resolves and keeps exactly
    the chunks with activity: every block of [startBlock, endBlock] with a
    watched event lies in a reported range, and every reported range holds
    such a block.  (With a provider that admits single blocks only, the
    guard of the controller's probe makes it miss activity; see
    [app_copy_probe_misses_activity].) *)
Theorem app_copy_subdivideActiveRegion_loses_no_activity :
  forall (active : Z -> bool) (limit : option Z) (head : Z) (vaultAddress : string)
         (startBlock endBlock : Z),
    admitsPairs limit ->
    exists ranges : list Range.t,
      converges (fun fuel =>
                   AppDiscovery.subdivideActiveRegion
                     (chainDiscovery active limit head vaultAddress) fuel startBlock endBlock)
                tt ranges tt
      /\ (forall b, startBlock <= b <= endBlock -> active b = true ->
            exists r, In r ranges /\ Range.start r <= b <= Range.end_ r)
      /\ Forall (holdsActivity active) ranges.
Proof.
  intros active limit head vaultAddress startBlock endBlock Hlimit.
  destruct (app_subdivideActiveRegion_loop_exact active limit head vaultAddress Hlimit
              5000 endBlock (Z.to_nat (endBlock - startBlock + 1)) ltac:(lia)
              startBlock [] ltac:(lia)) as (ranges & Hrun & Hcover & Hsound).
  exists ranges. split; [exact Hrun |]. split; assumption.
Qed.

Lemma app_copy_subdivideActiveRegion_loses_no_activity_witness :
  exists ranges : list Range.t,
    converges (fun fuel =>
                 AppDiscovery.subdivideActiveRegion
                   (chainDiscovery (fun b => b =? 7000) (Some 1000) 20000 "0xVAULT")
                   fuel 0 12000)
              tt ranges tt
    /\ (forall b, 0 <= b <= 12000 -> (b =? 7000) = true ->
          exists r, In r ranges /\ Range.start r <= b <= Range.end_ r)
    /\ Forall (holdsActivity (fun b => b =? 7000)) ranges.
Proof.
  apply (app_copy_subdivideActiveRegion_loses_no_activity (fun b => b =? 7000) (Some 1000)
           20000 "0xVAULT" 0 12000).
  cbn. lia.
Defined.

(** With single-block queries only, the two copies differ on the interval
    [7000, 7001] around an active block: [block-discovery.js] splits down
    to the block, the controller's guard answers "no activity". *)
Example app_copy_probe_misses_activity :
  AppDiscovery.checkBlockRangeForActivity
    (chainDiscovery (fun b => b =? 7000) (Some 0) 20000 "0xVAULT") 3 7000 7001 tt
  = (Done false, tt)
  /\ BlockDiscovery.checkBlockRangeForActivity
       (chainDiscovery (fun b => b =? 7000) (Some 0) 20000 "0xVAULT") 3 7000 7001 tt
     = (Done true, tt).
Proof. split; vm_compute; reflexivity. Qed.

End AppChainReports.

(** ** The ledger of a vault known by its transfers only *)

Module TransferLedger.
Import VaultTracker.

Lemma sumZ_app (l k : list Z) : sumZ (l ++ k) = sumZ l + sumZ k.
Proof. unfold sumZ. induction l as [| x l IH]; cbn [app fold_right]; lia. Qed.

Lemma assetsFor_app (owner : string) (l k : list Event) :
  assetsFor owner (l ++ k) = assetsFor owner l + assetsFor owner k.
Proof. unfold assetsFor. rewrite List.filter_app, map_app, sumZ_app. reflexivity. Qed.

Lemma sharesFor_app (owner : string) (l k : list Event) :
  sharesFor owner (l ++ k) = sharesFor owner l + sharesFor owner k.
Proof. unfold sharesFor. rewrite List.filter_app, map_app, sumZ_app. reflexivity. Qed.

Lemma tally_filter_cons (keep : Event -> bool) (event : Event) (rest : list Event) :
  sumZ (map transferValue (List.filter keep (event :: rest)))
  = (if keep event then transferValue event else 0)
    + sumZ (map transferValue (List.filter keep rest)).
Proof. cbn [List.filter]. destruct (keep event); [reflexivity | lia]. Qed.

(** What one transfer adds to the deposits and to the withdrawals of
    [owner]. *)
Lemma converted_transfer_tally (owner : string) (event : Event) :
  let converted := processTransferEvent (Events.mk [] []) event in
  assetsFor owner (Events.depositEvents converted)
  = (if mintTo owner event then transferValue event else 0)
  /\ sharesFor owner (Events.depositEvents converted)
     = (if mintTo owner event then transferValue event else 0)
  /\ assetsFor owner (Events.withdrawEvents converted)
     = (if burnFrom owner event then transferValue event else 0)
  /\ sharesFor owner (Events.withdrawEvents converted)
     = (if burnFrom owner event then transferValue event else 0).
Proof.
  unfold processTransferEvent, mintTo, burnFrom, transferValue, assetsFor, sharesFor.
  destruct (args event) as [| | | from to value |]; cbn; auto.
  destruct (String.eqb from zeroAddress), (String.eqb to zeroAddress); cbn; auto.
  - unfold ownedBy. cbn. destruct (String.eqb to owner); cbn; auto.
    repeat split; lia.
  - unfold ownedBy. cbn. destruct (String.eqb from owner); cbn; auto.
    repeat split; lia.
Qed.

Lemma converted_transfers_tally (owner : string) (transferEvents : list Event) :
  assetsFor owner
    (flat_map (fun e => Events.depositEvents (processTransferEvent (Events.mk [] []) e))
       transferEvents)
  = mintedTo owner transferEvents
  /\ sharesFor owner
       (flat_map (fun e => Events.depositEvents (processTransferEvent (Events.mk [] []) e))
          transferEvents)
     = mintedTo owner transferEvents
  /\ assetsFor owner
       (flat_map (fun e => Events.withdrawEvents (processTransferEvent (Events.mk [] []) e))
          transferEvents)
     = burnedFrom owner transferEvents
  /\ sharesFor owner
       (flat_map (fun e => Events.withdrawEvents (processTransferEvent (Events.mk [] []) e))
          transferEvents)
     = burnedFrom owner transferEvents.
Proof.
  unfold mintedTo, burnedFrom.
  induction transferEvents as [| event rest (IH1 & IH2 & IH3 & IH4)];
    [repeat split; reflexivity |].
  destruct (converted_transfer_tally owner event) as (H1 & H2 & H3 & H4).
  cbn [flat_map]. rewrite !assetsFor_app, !sharesFor_app, !tally_filter_cons.
  rewrite IH1, IH2, IH3, IH4, H1, H2, H3, H4. repeat split; reflexivity.
Qed.

(** X18.  When the ledger is built from [Transfer] events alone
    ([processTransferEvents] followed by [processRealEventData]), then for
    every address the total deposits are the shares minted to it, the total
    withdrawals the shares it burned, and the share balance their
    difference: transfers between users move no balance in the ledger, so
    shares received from another holder are not counted and shares sent
    away are still counted. *)
Theorem ledger_of_transfers_counts_mints_and_burns :
  forall (St : Type) (getBlock : Z -> St -> result (option Z) * St) (Date_now : St -> Z)
         (transferEvents : list Event) (vaultAddress : string)
         (addressData : gmap string AddressData.t) (st st' : St * gmap Z Z) (owner : string),
    processRealEventData getBlock Date_now (processTransferEvents transferEvents vaultAddress) st
    = (Done addressData, st') ->
    field AddressData.totalDeposits addressData owner = mintedTo owner transferEvents
    /\ field AddressData.totalWithdrawals addressData owner = burnedFrom owner transferEvents
    /\ field AddressData.totalShares addressData owner
       = mintedTo owner transferEvents - burnedFrom owner transferEvents.
Proof.
  intros St getBlock Date_now transferEvents vaultAddress addressData st st' owner Hrun.
  unfold processRealEventData in Hrun.
  destruct ((length (Events.depositEvents (processTransferEvents transferEvents vaultAddress))
             =? 0)%nat
            && (length (Events.withdrawEvents
                          (processTransferEvents transferEvents vaultAddress)) =? 0)%nat);
    [discriminate Hrun |].
  unfold bind in Hrun.
  destruct (processDeposits getBlock Date_now
              (Events.depositEvents (processTransferEvents transferEvents vaultAddress)) ∅ st)
    as [[deposited | e |] st1] eqn:Hdeposits; try discriminate Hrun.
  destruct (LedgerTotals.processDeposits_tally getBlock Date_now _ owner _ _ _ _ Hdeposits)
    as (D1 & D2 & _ & D4 & _).
  destruct (LedgerTotals.processWithdrawals_tally getBlock Date_now _ owner _ _ _ _ Hrun)
    as (W1 & W2 & _ & W4 & _).
  unfold field at 2 in D1. unfold field at 2 in D2. unfold field at 2 in D4.
  rewrite lookup_empty in D1, D2, D4.
  unfold processTransferEvents in D1, D2, W1, W2.
  rewrite TransferInference.fold_processTransferEvent_flat_map in D1, D2, W1, W2.
  cbn [eventsAppend Events.depositEvents Events.withdrawEvents app] in D1, D2, W1, W2.
  destruct (converted_transfers_tally owner transferEvents)
    as (Hminted & Hminted' & Hburned & Hburned').
  rewrite Hminted in D1. rewrite Hminted' in D2. rewrite Hburned in W1. rewrite Hburned' in W2.
  rewrite W1, W2, W4, D1, D2, D4. split; [| split]; lia.
Qed.

Lemma ledger_of_transfers_witness :
  field AddressData.totalDeposits scenarioCLedger bobAddress
  = mintedTo bobAddress scenarioCTransfers
  /\ field AddressData.totalWithdrawals scenarioCLedger bobAddress
     = burnedFrom bobAddress scenarioCTransfers
  /\ field AddressData.totalShares scenarioCLedger bobAddress
     = mintedTo bobAddress scenarioCTransfers - burnedFrom bobAddress scenarioCTransfers.
Proof.
  apply (ledger_of_transfers_counts_mints_and_burns unit twelveSeconds stoppedClock
           scenarioCTransfers "0xVAULT" scenarioCLedger cacheEmpty cache10_12 bobAddress).
  vm_compute. reflexivity.
Defined.

End TransferLedger.

(** ** The timestamp cache during a ledger run *)

Module TimestampCache.
Import VaultTracker.

Section Asked.
Context {St : Type} (getBlock : Z -> St -> result (option Z) * St) (Date_now : St -> Z).
Variable allowed : list Z.

Lemma askedOnce_weaken (st : (St * list Z) * gmap Z Z) :
  askedOnce allowed st -> askedAtMostOnce allowed st.
Proof. intros (H1 & H2 & _). split; assumption. Qed.

Lemma getBlockTimestamp_asks (blockNumber : Z) (st st' : (St * list Z) * gmap Z Z)
    (o : outcome Z) :
  In blockNumber allowed -> askedOnce allowed st ->
  getBlockTimestamp (tracedBlocks getBlock) (tracedClock Date_now) blockNumber st = (o, st') ->
  askedAtMostOnce allowed st' /\ (forall ts, o = Done ts -> askedOnce allowed st').
Proof.
  intros Hallowed (Hnodup & Hin & Hcached) Hrun.
  destruct st as [[s asked] cache]. cbn [fst snd] in *.
  unfold getBlockTimestamp in Hrun.
  destruct (cache !! blockNumber) as [ts |] eqn:Hlookup.
  - injection Hrun as <- <-. split; [split; assumption |].
    intros _ _. split; [| split]; assumption.
  - assert (Hfresh : blockNumber ∉ asked).
    { intros Hasked. destruct (Hcached _ Hasked) as [ts Hts]. congruence. }
    assert (Hnodup' : NoDup (asked ++ [blockNumber])).
    { apply NoDup_app. split; [exact Hnodup |]. split; [| apply NoDup_singleton].
      intros x Hx Hx'. apply list_elem_of_singleton in Hx'. subst x. contradiction. }
    assert (Hin' : forall b, b ∈ asked ++ [blockNumber] -> In b allowed).
    { intros b Hb. apply elem_of_app in Hb. destruct Hb as [Hb | Hb]; [auto |].
      apply list_elem_of_singleton in Hb. subst b. exact Hallowed. }
    unfold tracedBlocks in Hrun.
    destruct (getBlock blockNumber s) as [[blk | e] s1].
    + injection Hrun as <- <-. unfold askedOnce, askedAtMostOnce. cbn [fst snd].
      split; [split; assumption |]. intros _ _. split; [exact Hnodup' |].
      split; [exact Hin' |]. intros b Hb.
      destruct (decide (b = blockNumber)) as [-> | Hne].
      * rewrite lookup_insert_eq. eexists. reflexivity.
      * rewrite lookup_insert_ne by congruence. apply Hcached.
        apply elem_of_app in Hb. destruct Hb as [Hb | Hb]; [exact Hb |].
        apply list_elem_of_singleton in Hb. contradiction.
    + injection Hrun as <- <-. unfold askedAtMostOnce. cbn [fst snd].
      split; [split; assumption | intros ts Habsurd; discriminate Habsurd].
Qed.

Lemma processDeposits_asks (depositEvents : list Event) :
  forall (addressData : gmap string AddressData.t) (st st' : (St * list Z) * gmap Z Z)
         (o : outcome (gmap string AddressData.t)),
    (forall event, In event depositEvents -> In (blockNumber (log event)) allowed) ->
    askedOnce allowed st ->
    processDeposits (tracedBlocks getBlock) (tracedClock Date_now) depositEvents addressData st
    = (o, st') ->
    askedAtMostOnce allowed st'
    /\ (forall result, o = Done result -> askedOnce allowed st').
Proof.
  induction depositEvents as [| event rest IH]; intros addressData st st' o Hblocks Hst Hrun.
  - injection Hrun as <- <-. split; [apply askedOnce_weaken; exact Hst | intros _ _; exact Hst].
  - cbn [processDeposits] in Hrun. unfold bind at 1 in Hrun.
    destruct (getBlockTimestamp (tracedBlocks getBlock) (tracedClock Date_now)
                (blockNumber (log event)) st) as [[blockTime | e |] st1] eqn:Hstamp;
      destruct (getBlockTimestamp_asks _ _ _ _ (Hblocks event (or_introl eq_refl)) Hst Hstamp)
        as [Hweak Hstrong].
    + specialize (Hstrong blockTime eq_refl).
      destruct (ownerAssetsShares (args event)) as [[[owner assets] shares] |].
      * apply (IH _ _ _ _ (fun e He => Hblocks e (or_intror He)) Hstrong Hrun).
      * injection Hrun as <- <-. split; [exact Hweak | intros result Habsurd; discriminate].
    + injection Hrun as <- <-. split; [exact Hweak | intros result Habsurd; discriminate].
    + injection Hrun as <- <-. split; [exact Hweak | intros result Habsurd; discriminate].
Qed.

Lemma processWithdrawals_asks (withdrawEvents : list Event) :
  forall (addressData : gmap string AddressData.t) (st st' : (St * list Z) * gmap Z Z)
         (o : outcome (gmap string AddressData.t)),
    (forall event, In event withdrawEvents -> In (blockNumber (log event)) allowed) ->
    askedOnce allowed st ->
    processWithdrawals (tracedBlocks getBlock) (tracedClock Date_now) withdrawEvents
      addressData st
    = (o, st') ->
    askedAtMostOnce allowed st'
    /\ (forall result, o = Done result -> askedOnce allowed st').
Proof.
  induction withdrawEvents as [| event rest IH]; intros addressData st st' o Hblocks Hst Hrun.
  - injection Hrun as <- <-. split; [apply askedOnce_weaken; exact Hst | intros _ _; exact Hst].
  - cbn [processWithdrawals] in Hrun. unfold bind at 1 in Hrun.
    destruct (getBlockTimestamp (tracedBlocks getBlock) (tracedClock Date_now)
                (blockNumber (log event)) st) as [[blockTime | e |] st1] eqn:Hstamp;
      destruct (getBlockTimestamp_asks _ _ _ _ (Hblocks event (or_introl eq_refl)) Hst Hstamp)
        as [Hweak Hstrong].
    + specialize (Hstrong blockTime eq_refl).
      destruct (ownerAssetsShares (args event)) as [[[owner assets] shares] |].
      * apply (IH _ _ _ _ (fun e He => Hblocks e (or_intror He)) Hstrong Hrun).
      * injection Hrun as <- <-. split; [exact Hweak | intros result Habsurd; discriminate].
    + injection Hrun as <- <-. split; [exact Hweak | intros result Habsurd; discriminate].
    + injection Hrun as <- <-. split; [exact Hweak | intros result Habsurd; discriminate].
Qed.

End Asked.

(** X19.  During a run of [processRealEventData] that starts with an empty
    timestamp cache, [provider.getBlock] is called at most once per block,
    and only for blocks of the events: the cache answers every repeated
    block.  This holds whatever the provider answers, and also for a run
    that ends in an error. *)
Theorem processRealEventData_fetches_each_block_once :
  forall (St : Type) (getBlock : Z -> St -> result (option Z) * St) (Date_now : St -> Z)
         (events : Events.t) (s : St),
    NoDup (askedBlocks (processRealEventData (tracedBlocks getBlock) (tracedClock Date_now)
                          events ((s, []), ∅)))
    /\ forall b,
         In b (askedBlocks (processRealEventData (tracedBlocks getBlock)
                              (tracedClock Date_now) events ((s, []), ∅))) ->
         In b (eventBlocks events).
Proof.
  intros St getBlock Date_now events s.
  assert (Hstart : askedOnce (eventBlocks events) ((s, [] : list Z), (∅ : gmap Z Z))).
  { split; [apply NoDup_nil_2 |]. split; intros b Hb; inversion Hb. }
  assert (Hdeposits : forall event, In event (Events.depositEvents events) ->
                                    In (blockNumber (log event)) (eventBlocks events)).
  { intros event Hevent. unfold eventBlocks.
    apply (in_map (fun e => blockNumber (log e))). apply in_or_app. left. exact Hevent. }
  assert (Hwithdrawals : forall event, In event (Events.withdrawEvents events) ->
                                       In (blockNumber (log event)) (eventBlocks events)).
  { intros event Hevent. unfold eventBlocks.
    apply (in_map (fun e => blockNumber (log e))). apply in_or_app. right. exact Hevent. }
  assert (Hgoal : askedAtMostOnce (eventBlocks events)
                    (snd (processRealEventData (tracedBlocks getBlock) (tracedClock Date_now)
                            events ((s, []), ∅)))).
  { unfold processRealEventData.
    destruct ((length (Events.depositEvents events) =? 0)%nat
              && (length (Events.withdrawEvents events) =? 0)%nat);
      [apply askedOnce_weaken; exact Hstart |].
    unfold bind.
    destruct (processDeposits (tracedBlocks getBlock) (tracedClock Date_now)
                (Events.depositEvents events) ∅ ((s, []), ∅)) as [o st1] eqn:Hrun1.
    destruct (processDeposits_asks getBlock Date_now (eventBlocks events) _ _ _ _ _
                Hdeposits Hstart Hrun1) as [Hweak Hstrong].
    destruct o as [deposited | e |]; [| exact Hweak | exact Hweak].
    destruct (processWithdrawals (tracedBlocks getBlock) (tracedClock Date_now)
                (Events.withdrawEvents events) deposited st1) as [o2 st2] eqn:Hrun2.
    destruct (processWithdrawals_asks getBlock Date_now (eventBlocks events) _ _ _ _ _
                Hwithdrawals (Hstrong deposited eq_refl) Hrun2) as [Hweak2 _].
    exact Hweak2. }
  destruct Hgoal as [Hnodup Hin]. split; [exact Hnodup |].
  intros b Hb. apply Hin. apply list_elem_of_In. exact Hb.
Qed.

Example repeated_block_is_fetched_once :
  askedBlocks
    (processRealEventData (tracedBlocks twelveSeconds) (tracedClock stoppedClock)
       (Events.mk [mkEvent (logAt 100) (DepositArgs aliceAddress aliceAddress 100 95);
                   mkEvent (logAt 100) (DepositArgs bobAddress bobAddress 50 50)]
                  [mkEvent (logAt 250) (WithdrawArgs aliceAddress aliceAddress aliceAddress 30 28);
                   mkEvent (logAt 100) (WithdrawArgs bobAddress bobAddress bobAddress 50 50)])
       ((tt, []), ∅))
  = [100; 250].
Proof. vm_compute. reflexivity. Qed.

End TimestampCache.

(** ** How many probes the boundary search makes *)

Module SearchCost.

Section Reliable.
Context {St : Type} (p : Provider St) (vaultAddress : string).
Hypothesis p_reliable : reliable p.

Local Abbreviation this := (new_VaultBlockDiscovery (traced p) vaultAddress).

Lemma constructor_width_ok : 0 <= maxBlockRange this.
Proof. cbn. lia. Qed.

Lemma probe_one_query (fromBlock toBlock : Z) (s : St) (tr : list Filter) :
  exists hasActivity s',
    forall fuel, (1 <= fuel)%nat ->
      BlockDiscovery.checkBlockRangeForActivity this fuel fromBlock toBlock (s, tr)
      = (Done hasActivity, (s', tr ++ [activityFilter this fromBlock toBlock])).
Proof.
  destruct (p_reliable (activityFilter this fromBlock toBlock) s) as (logs & s' & Hlogs).
  exists (0 <? Z.of_nat (length logs)), s'. intros [| fuel] Hfuel; [lia |].
  rewrite OnChain.checkBlockRangeForActivity_unfold.
  unfold try_catch, bind, await. cbn [provider new_VaultBlockDiscovery traced getLogs].
  rewrite Hlogs. reflexivity.
Qed.

Lemma first_loop_probes (k : nat) :
  forall (left right result : Z) (s : St) (tr : list Filter),
    right - left + 1 < 2 ^ Z.of_nat k ->
    exists found s' queries,
      (forall fuel, (S k <= fuel)%nat ->
         BlockDiscovery.binarySearchFirstActivity_loop this fuel left right result (s, tr)
         = (Done found, (s', tr ++ queries)))
      /\ (length queries <= k)%nat
      /\ (found = result \/ left <= found <= right).
Proof.
  induction k as [| k IH]; intros left right result s tr Hspan.
  - exists result, s, []. rewrite app_nil_r. split; [| split; [cbn; lia | left; reflexivity]].
    intros [| fuel] Hfuel; [lia |]. cbn [BlockDiscovery.binarySearchFirstActivity_loop].
    change (2 ^ Z.of_nat 0) with 1 in Hspan.
    destruct (Z.leb_spec left right); [lia | reflexivity].
  - rewrite Nat2Z.inj_succ, Z.pow_succ_r in Hspan by lia.
    pose proof (Z.pow_pos_nonneg 2 (Z.of_nat k) ltac:(lia) ltac:(lia)) as Hpow.
    destruct (Z.leb_spec left right) as [Hle | Hgt].
    + assert (Hmid : left <= (left + right) / 2 <= right) by (Z.div_mod_to_equations; lia).
      destruct (probe_one_query ((left + right) / 2) (Z.min ((left + right) / 2 + maxBlockRange this) right) s tr)
        as (hasActivity & s1 & Hprobe).
      destruct hasActivity.
      * destruct (IH left ((left + right) / 2 - 1) ((left + right) / 2) s1
                    (tr ++ [activityFilter this ((left + right) / 2) (Z.min ((left + right) / 2 + maxBlockRange this) right)]))
          as (found & s' & queries & Hrec & Hlength & Hfound).
        { revert Hspan. generalize (2 ^ Z.of_nat k). intros P HP.
          Z.div_mod_to_equations. lia. }
        exists found, s', (activityFilter this ((left + right) / 2) (Z.min ((left + right) / 2 + maxBlockRange this) right) :: queries).
        split; [| split; [cbn [length]; lia | lia]].
        intros [| fuel] Hfuel; [lia |]. cbn [BlockDiscovery.binarySearchFirstActivity_loop].
        destruct (Z.leb_spec left right); [| lia].
        cbv zeta. unfold bind. rewrite Hprobe by lia. rewrite Hrec by lia.
        rewrite <- app_assoc. reflexivity.
      * destruct (IH ((left + right) / 2 + maxBlockRange this + 1) right result s1
                    (tr ++ [activityFilter this ((left + right) / 2) (Z.min ((left + right) / 2 + maxBlockRange this) right)]))
          as (found & s' & queries & Hrec & Hlength & Hfound).
        { revert Hspan. generalize (2 ^ Z.of_nat k). intros P HP.
          pose proof constructor_width_ok. Z.div_mod_to_equations. lia. }
        exists found, s', (activityFilter this ((left + right) / 2) (Z.min ((left + right) / 2 + maxBlockRange this) right) :: queries).
        split; [| split; [cbn [length]; lia | pose proof constructor_width_ok; lia]].
        intros [| fuel] Hfuel; [lia |]. cbn [BlockDiscovery.binarySearchFirstActivity_loop].
        destruct (Z.leb_spec left right); [| lia].
        cbv zeta. unfold bind. rewrite Hprobe by lia. rewrite Hrec by lia.
        rewrite <- app_assoc. reflexivity.
    + exists result, s, []. rewrite app_nil_r.
      split; [| split; [cbn; lia | left; reflexivity]].
      intros [| fuel] Hfuel; [lia |]. cbn [BlockDiscovery.binarySearchFirstActivity_loop].
      destruct (Z.leb_spec left right); [lia | reflexivity].
Qed.

Lemma last_loop_probes (k : nat) :
  forall (left right result : Z) (s : St) (tr : list Filter),
    right - left + 1 < 2 ^ Z.of_nat k ->
    exists found s' queries,
      (forall fuel, (S k <= fuel)%nat ->
         BlockDiscovery.binarySearchLastActivity_loop this fuel left right result (s, tr)
         = (Done found, (s', tr ++ queries)))
      /\ (length queries <= k)%nat
      /\ (found = result \/ left <= found <= right).
Proof.
  induction k as [| k IH]; intros left right result s tr Hspan.
  - exists result, s, []. rewrite app_nil_r. split; [| split; [cbn; lia | left; reflexivity]].
    intros [| fuel] Hfuel; [lia |]. cbn [BlockDiscovery.binarySearchLastActivity_loop].
    change (2 ^ Z.of_nat 0) with 1 in Hspan.
    destruct (Z.leb_spec left right); [lia | reflexivity].
  - rewrite Nat2Z.inj_succ, Z.pow_succ_r in Hspan by lia.
    pose proof (Z.pow_pos_nonneg 2 (Z.of_nat k) ltac:(lia) ltac:(lia)) as Hpow.
    destruct (Z.leb_spec left right) as [Hle | Hgt].
    + assert (Hmid : left <= (left + right) / 2 <= right) by (Z.div_mod_to_equations; lia).
      destruct (probe_one_query (Z.max ((left + right) / 2 - maxBlockRange this) left) ((left + right) / 2) s tr)
        as (hasActivity & s1 & Hprobe).
      destruct hasActivity.
      * destruct (IH ((left + right) / 2 + 1) right ((left + right) / 2) s1
                    (tr ++ [activityFilter this (Z.max ((left + right) / 2 - maxBlockRange this) left) ((left + right) / 2)]))
          as (found & s' & queries & Hrec & Hlength & Hfound).
        { revert Hspan. generalize (2 ^ Z.of_nat k). intros P HP.
          Z.div_mod_to_equations. lia. }
        exists found, s', (activityFilter this (Z.max ((left + right) / 2 - maxBlockRange this) left) ((left + right) / 2) :: queries).
        split; [| split; [cbn [length]; lia | lia]].
        intros [| fuel] Hfuel; [lia |]. cbn [BlockDiscovery.binarySearchLastActivity_loop].
        destruct (Z.leb_spec left right); [| lia].
        cbv zeta. unfold bind. rewrite Hprobe by lia. rewrite Hrec by lia.
        rewrite <- app_assoc. reflexivity.
      * destruct (IH left ((left + right) / 2 - maxBlockRange this - 1) result s1
                    (tr ++ [activityFilter this (Z.max ((left + right) / 2 - maxBlockRange this) left) ((left + right) / 2)]))
          as (found & s' & queries & Hrec & Hlength & Hfound).
        { revert Hspan. generalize (2 ^ Z.of_nat k). intros P HP.
          pose proof constructor_width_ok. Z.div_mod_to_equations. lia. }
        exists found, s', (activityFilter this (Z.max ((left + right) / 2 - maxBlockRange this) left) ((left + right) / 2) :: queries).
        split; [| split; [cbn [length]; lia | pose proof constructor_width_ok; lia]].
        intros [| fuel] Hfuel; [lia |]. cbn [BlockDiscovery.binarySearchLastActivity_loop].
        destruct (Z.leb_spec left right); [| lia].
        cbv zeta. unfold bind. rewrite Hprobe by lia. rewrite Hrec by lia.
        rewrite <- app_assoc. reflexivity.
    + exists result, s, []. rewrite app_nil_r.
      split; [| split; [cbn; lia | left; reflexivity]].
      intros [| fuel] Hfuel; [lia |]. cbn [BlockDiscovery.binarySearchLastActivity_loop].
      destruct (Z.leb_spec left right); [lia | reflexivity].
Qed.

Lemma findActivityBoundaries_probes (fromBlock toBlock : Z) (k : nat) (s : St) :
  toBlock - fromBlock + 1 < 2 ^ Z.of_nat k ->
  exists boundaries s' queries,
    converges (fun fuel => BlockDiscovery.findActivityBoundaries this fuel fromBlock toBlock)
              (s, []) boundaries (s', queries)
    /\ (length queries <= 2 * k)%nat.
Proof.
  intros Hspan.
  destruct (first_loop_probes k fromBlock toBlock (-1) s [] Hspan)
    as (firstActive & s1 & queries1 & Hfirst & Hlength1 & Hwithin).
  cbn [app] in Hfirst.
  destruct (Z.eqb_spec firstActive (-1)) as [Hnone | Hsome].
  - exists [], s1, queries1. split; [| lia].
    exists (S k). intros fuel Hfuel.
    unfold BlockDiscovery.findActivityBoundaries, BlockDiscovery.binarySearchFirstActivity, bind.
    rewrite Hfirst by exact Hfuel. rewrite Hnone. reflexivity.
  - destruct (last_loop_probes k firstActive toBlock firstActive s1 queries1 ltac:(lia))
      as (lastActive & s2 & queries2 & Hlast & Hlength2 & _).
    exists [Boundary.mk firstActive lastActive (lastActive - firstActive + 1)], s2,
           (queries1 ++ queries2).
    split; [| rewrite length_app; lia].
    exists (S k). intros fuel Hfuel.
    unfold BlockDiscovery.findActivityBoundaries, BlockDiscovery.binarySearchFirstActivity,
      BlockDiscovery.binarySearchLastActivity, bind.
    rewrite Hfirst by exact Hfuel.
    destruct (Z.eqb_spec firstActive (-1)); [contradiction |].
    rewrite Hlast by exact Hfuel. reflexivity.
Qed.

Lemma app_probe_one_query (fromBlock toBlock : Z) (s : St) (tr : list Filter) :
  exists hasActivity s',
    forall fuel, (1 <= fuel)%nat ->
      AppDiscovery.checkBlockRangeForActivity this fuel fromBlock toBlock (s, tr)
      = (Done hasActivity, (s', tr ++ [activityFilter this fromBlock toBlock])).
Proof.
  destruct (p_reliable (activityFilter this fromBlock toBlock) s) as (logs & s' & Hlogs).
  exists (0 <? Z.of_nat (length logs)), s'. intros [| fuel] Hfuel; [lia |].
  rewrite OnChain.app_copy_checkBlockRangeForActivity_unfold.
  unfold try_catch, bind, await. cbn [provider new_VaultBlockDiscovery traced getLogs].
  rewrite Hlogs. reflexivity.
Qed.

Lemma app_first_loop_probes (k : nat) :
  forall (left right result : Z) (s : St) (tr : list Filter),
    right - left + 1 < 2 ^ Z.of_nat k ->
    exists found s' queries,
      (forall fuel, (S k <= fuel)%nat ->
         AppDiscovery.binarySearchFirstActivity_loop this fuel left right result (s, tr)
         = (Done found, (s', tr ++ queries)))
      /\ (length queries <= k)%nat
      /\ (found = result \/ left <= found <= right).
Proof.
  induction k as [| k IH]; intros left right result s tr Hspan.
  - exists result, s, []. rewrite app_nil_r. split; [| split; [cbn; lia | left; reflexivity]].
    intros [| fuel] Hfuel; [lia |]. cbn [AppDiscovery.binarySearchFirstActivity_loop].
    change (2 ^ Z.of_nat 0) with 1 in Hspan.
    destruct (Z.leb_spec left right); [lia | reflexivity].
  - rewrite Nat2Z.inj_succ, Z.pow_succ_r in Hspan by lia.
    pose proof (Z.pow_pos_nonneg 2 (Z.of_nat k) ltac:(lia) ltac:(lia)) as Hpow.
    destruct (Z.leb_spec left right) as [Hle | Hgt].
    + assert (Hmid : left <= (left + right) / 2 <= right) by (Z.div_mod_to_equations; lia).
      destruct (app_probe_one_query ((left + right) / 2) (Z.min ((left + right) / 2 + maxBlockRange this) right) s tr)
        as (hasActivity & s1 & Hprobe).
      destruct hasActivity.
      * destruct (IH left ((left + right) / 2 - 1) ((left + right) / 2) s1
                    (tr ++ [activityFilter this ((left + right) / 2) (Z.min ((left + right) / 2 + maxBlockRange this) right)]))
          as (found & s' & queries & Hrec & Hlength & Hfound).
        { revert Hspan. generalize (2 ^ Z.of_nat k). intros P HP.
          Z.div_mod_to_equations. lia. }
        exists found, s', (activityFilter this ((left + right) / 2) (Z.min ((left + right) / 2 + maxBlockRange this) right) :: queries).
        split; [| split; [cbn [length]; lia | lia]].
        intros [| fuel] Hfuel; [lia |]. cbn [AppDiscovery.binarySearchFirstActivity_loop].
        destruct (Z.leb_spec left right); [| lia].
        cbv zeta. unfold bind. rewrite Hprobe by lia. rewrite Hrec by lia.
        rewrite <- app_assoc. reflexivity.
      * destruct (IH (Z.min ((left + right) / 2 + maxBlockRange this) right + 1) right result s1
                    (tr ++ [activityFilter this ((left + right) / 2) (Z.min ((left + right) / 2 + maxBlockRange this) right)]))
          as (found & s' & queries & Hrec & Hlength & Hfound).
        { revert Hspan. generalize (2 ^ Z.of_nat k). intros P HP.
          pose proof constructor_width_ok. Z.div_mod_to_equations. lia. }
        exists found, s', (activityFilter this ((left + right) / 2) (Z.min ((left + right) / 2 + maxBlockRange this) right) :: queries).
        split; [| split; [cbn [length]; lia | pose proof constructor_width_ok; lia]].
        intros [| fuel] Hfuel; [lia |]. cbn [AppDiscovery.binarySearchFirstActivity_loop].
        destruct (Z.leb_spec left right); [| lia].
        cbv zeta. unfold bind. rewrite Hprobe by lia. rewrite Hrec by lia.
        rewrite <- app_assoc. reflexivity.
    + exists result, s, []. rewrite app_nil_r.
      split; [| split; [cbn; lia | left; reflexivity]].
      intros [| fuel] Hfuel; [lia |]. cbn [AppDiscovery.binarySearchFirstActivity_loop].
      destruct (Z.leb_spec left right); [lia | reflexivity].
Qed.

Lemma app_last_loop_probes (k : nat) :
  forall (left right result : Z) (s : St) (tr : list Filter),
    right - left + 1 < 2 ^ Z.of_nat k ->
    exists found s' queries,
      (forall fuel, (S k <= fuel)%nat ->
         AppDiscovery.binarySearchLastActivity_loop this fuel left right result (s, tr)
         = (Done found, (s', tr ++ queries)))
      /\ (length queries <= k)%nat
      /\ (found = result \/ left <= found <= right).
Proof.
  induction k as [| k IH]; intros left right result s tr Hspan.
  - exists result, s, []. rewrite app_nil_r. split; [| split; [cbn; lia | left; reflexivity]].
    intros [| fuel] Hfuel; [lia |]. cbn [AppDiscovery.binarySearchLastActivity_loop].
    change (2 ^ Z.of_nat 0) with 1 in Hspan.
    destruct (Z.leb_spec left right); [lia | reflexivity].
  - rewrite Nat2Z.inj_succ, Z.pow_succ_r in Hspan by lia.
    pose proof (Z.pow_pos_nonneg 2 (Z.of_nat k) ltac:(lia) ltac:(lia)) as Hpow.
    destruct (Z.leb_spec left right) as [Hle | Hgt].
    + assert (Hmid : left <= (left + right) / 2 <= right) by (Z.div_mod_to_equations; lia).
      destruct (app_probe_one_query (Z.max ((left + right) / 2 - maxBlockRange this) left) ((left + right) / 2) s tr)
        as (hasActivity & s1 & Hprobe).
      destruct hasActivity.
      * destruct (IH ((left + right) / 2 + 1) right ((left + right) / 2) s1
                    (tr ++ [activityFilter this (Z.max ((left + right) / 2 - maxBlockRange this) left) ((left + right) / 2)]))
          as (found & s' & queries & Hrec & Hlength & Hfound).
        { revert Hspan. generalize (2 ^ Z.of_nat k). intros P HP.
          Z.div_mod_to_equations. lia. }
        exists found, s', (activityFilter this (Z.max ((left + right) / 2 - maxBlockRange this) left) ((left + right) / 2) :: queries).
        split; [| split; [cbn [length]; lia | lia]].
        intros [| fuel] Hfuel; [lia |]. cbn [AppDiscovery.binarySearchLastActivity_loop].
        destruct (Z.leb_spec left right); [| lia].
        cbv zeta. unfold bind. rewrite Hprobe by lia. rewrite Hrec by lia.
        rewrite <- app_assoc. reflexivity.
      * destruct (IH left ((left + right) / 2 - maxBlockRange this - 1) result s1
                    (tr ++ [activityFilter this (Z.max ((left + right) / 2 - maxBlockRange this) left) ((left + right) / 2)]))
          as (found & s' & queries & Hrec & Hlength & Hfound).
        { revert Hspan. generalize (2 ^ Z.of_nat k). intros P HP.
          pose proof constructor_width_ok. Z.div_mod_to_equations. lia. }
        exists found, s', (activityFilter this (Z.max ((left + right) / 2 - maxBlockRange this) left) ((left + right) / 2) :: queries).
        split; [| split; [cbn [length]; lia | pose proof constructor_width_ok; lia]].
        intros [| fuel] Hfuel; [lia |]. cbn [AppDiscovery.binarySearchLastActivity_loop].
        destruct (Z.leb_spec left right); [| lia].
        cbv zeta. unfold bind. rewrite Hprobe by lia. rewrite Hrec by lia.
        rewrite <- app_assoc. reflexivity.
    + exists result, s, []. rewrite app_nil_r.
      split; [| split; [cbn; lia | left; reflexivity]].
      intros [| fuel] Hfuel; [lia |]. cbn [AppDiscovery.binarySearchLastActivity_loop].
      destruct (Z.leb_spec left right); [lia | reflexivity].
Qed.

Lemma app_findActivityBoundaries_probes (fromBlock toBlock : Z) (k : nat) (s : St) :
  toBlock - fromBlock + 1 < 2 ^ Z.of_nat k ->
  exists boundaries s' queries,
    converges (fun fuel => AppDiscovery.findActivityBoundaries this fuel fromBlock toBlock)
              (s, []) boundaries (s', queries)
    /\ (length queries <= 2 * k)%nat.
Proof.
  intros Hspan.
  destruct (app_first_loop_probes k fromBlock toBlock (-1) s [] Hspan)
    as (firstActive & s1 & queries1 & Hfirst & Hlength1 & Hwithin).
  cbn [app] in Hfirst.
  destruct (Z.eqb_spec firstActive (-1)) as [Hnone | Hsome].
  - exists [], s1, queries1. split; [| lia].
    exists (S k). intros fuel Hfuel.
    unfold AppDiscovery.findActivityBoundaries, AppDiscovery.binarySearchFirstActivity, bind.
    rewrite Hfirst by exact Hfuel. rewrite Hnone. reflexivity.
  - destruct (app_last_loop_probes k firstActive toBlock firstActive s1 queries1 ltac:(lia))
      as (lastActive & s2 & queries2 & Hlast & Hlength2 & _).
    exists [Boundary.mk firstActive lastActive (lastActive - firstActive + 1)], s2,
           (queries1 ++ queries2).
    split; [| rewrite length_app; lia].
    exists (S k). intros fuel Hfuel.
    unfold AppDiscovery.findActivityBoundaries, AppDiscovery.binarySearchFirstActivity,
      AppDiscovery.binarySearchLastActivity, bind.
    rewrite Hfirst by exact Hfuel.
    destruct (Z.eqb_spec firstActive (-1)); [contradiction |].
    rewrite Hlast by exact Hfuel. reflexivity.
Qed.

End Reliable.

(** X20.  On a provider that never refuses a log query, the boundary search
    is logarithmic: over a span of fewer than [2 ^ k] blocks,
    [findActivityBoundaries] resolves after at most [2 * k] log queries, at
    most [k] for the first active block and [k] for the last.  This holds of
    [block-discovery.js] and of the controller's copy. *)
Theorem findActivityBoundaries_makes_logarithmically_many_queries :
  forall (St : Type) (p : Provider St) (vaultAddress : string) (fromBlock toBlock : Z)
         (k : nat) (s : St),
    reliable p ->
    toBlock - fromBlock + 1 < 2 ^ Z.of_nat k ->
    (exists boundaries s' queries,
        converges (fun fuel =>
                     BlockDiscovery.findActivityBoundaries
                       (new_VaultBlockDiscovery (traced p) vaultAddress) fuel fromBlock toBlock)
                  (s, []) boundaries (s', queries)
        /\ (length queries <= 2 * k)%nat)
    /\ (exists boundaries s' queries,
          converges (fun fuel =>
                       AppDiscovery.findActivityBoundaries
                         (new_VaultBlockDiscovery (traced p) vaultAddress) fuel fromBlock
                         toBlock)
                    (s, []) boundaries (s', queries)
          /\ (length queries <= 2 * k)%nat).
Proof.
  intros St p vaultAddress fromBlock toBlock k s Hreliable Hspan. split.
  - apply findActivityBoundaries_probes; assumption.
  - apply app_findActivityBoundaries_probes; assumption.
Qed.

Lemma findActivityBoundaries_queries_witness :
  (exists boundaries s' queries,
      converges (fun fuel =>
                   BlockDiscovery.findActivityBoundaries
                     (new_VaultBlockDiscovery
                        (traced (chainProvider (fun b => b =? 800000) None 1000000)) "0xVAULT")
                     fuel 0 1000000)
                (tt, []) boundaries (s', queries)
      /\ (length queries <= 2 * 20)%nat)
  /\ (exists boundaries s' queries,
        converges (fun fuel =>
                     AppDiscovery.findActivityBoundaries
                       (new_VaultBlockDiscovery
                          (traced (chainProvider (fun b => b =? 800000) None 1000000))
                          "0xVAULT")
                       fuel 0 1000000)
                  (tt, []) boundaries (s', queries)
        /\ (length queries <= 2 * 20)%nat).
Proof.
  apply (findActivityBoundaries_makes_logarithmically_many_queries unit
           (chainProvider (fun b => b =? 800000) None 1000000) "0xVAULT" 0 1000000 20 tt).
  - intros f s. eexists. eexists. reflexivity.
  - vm_compute. reflexivity.
Defined.

End SearchCost.

(** ** [discoverVaultActivity] on a chain *)

Module VaultActivity.

Lemma chainLogs_sound (active : Z -> bool) (f : Filter) (log : RawLog) :
  In log (chainLogs active f) ->
  active (blockNumber log) = true /\ fromBlock f <= blockNumber log <= toBlock f.
Proof.
  unfold chainLogs. intros Hlog. apply in_map_iff in Hlog.
  destruct Hlog as (b & <- & Hb). apply filter_In in Hb. destruct Hb as [Hb Hactive].
  apply ChainDiscovery.In_blocksFromTo in Hb. cbn [blockNumber]. split; assumption.
Qed.

Lemma chain_answer_exact (active : Z -> bool) (limit : option Z) (head : Z) (f : Filter)
    (s s' : unit) (logs : list RawLog) :
  getLogs (chainProvider active limit head) f s = (Ok logs, s') -> logs = chainLogs active f.
Proof.
  cbn [getLogs chainProvider]. destruct limit as [w |].
  - destruct (w <? toBlock f - fromBlock f); [discriminate |].
    intros Heq. injection Heq as <- _. reflexivity.
  - intros Heq. injection Heq as <- _. reflexivity.
Qed.

Lemma allLogs_append (a b : AllEvents.t) (log : RawLog) :
  In log (allLogs (allEventsAppend a b)) <-> In log (allLogs a) \/ In log (allLogs b).
Proof.
  unfold allLogs, allEventsAppend. cbn [AllEvents.deposits AllEvents.withdraws AllEvents.transfers].
  rewrite !in_app_iff. tauto.
Qed.

Section Chain.
Context (active : Z -> bool) (limit : option Z) (head : Z) (vaultAddress : string).

Local Abbreviation this := (chainDiscovery active limit head vaultAddress).

Lemma getEventsFromRanges_loop_on_chain (ranges : list Range.t) :
  forall s : unit,
    exists batch : AllEvents.t,
      (forall allEvents,
          BlockDiscovery.getEventsFromRanges_loop this ranges allEvents s
          = (Done (allEventsAppend allEvents batch), tt))
      /\ forall log, In log (allLogs batch) ->
           active (blockNumber log) = true
           /\ exists r, In r ranges /\ Range.start r <= blockNumber log <= Range.end_ r.
Proof.
  induction ranges as [| range rest IH]; intros s.
  - exists noEvents. split; [| intros log []]. destruct s.
    intros allEvents. rewrite RangeEvents.allEventsAppend_noEvents_r. reflexivity.
  - destruct (RangeEvents.fetchRange_batch this range s) as (batch & s1 & Hfetch & Hbatch).
    destruct (IH s1) as (batches & Hrest & Hsound).
    exists (allEventsAppend batch batches). split.
    + intros allEvents. cbn [BlockDiscovery.getEventsFromRanges_loop]. unfold bind.
      rewrite Hfetch, Hrest, RangeEvents.allEventsAppend_assoc. reflexivity.
    + intros log Hlog. apply allLogs_append in Hlog. destruct Hlog as [Hlog | Hlog].
      * destruct Hbatch as [-> | (s2 & s3 & Hdeposits & Hwithdraws & Htransfers)];
          [destruct Hlog |].
        apply chain_answer_exact in Hdeposits, Hwithdraws, Htransfers.
        unfold allLogs in Hlog. rewrite Hdeposits, Hwithdraws, Htransfers in Hlog.
        rewrite !in_app_iff in Hlog.
        destruct Hlog as [Hlog | [Hlog | Hlog]]; apply chainLogs_sound in Hlog;
          destruct Hlog as [Hactive Hwithin]; (split; [exact Hactive |]);
          exists range; (split; [left; reflexivity | exact Hwithin]).
      * destruct (Hsound log Hlog) as (Hactive & r & Hr & Hwithin).
        split; [exact Hactive |]. exists r. split; [right; exact Hr | exact Hwithin].
Qed.

End Chain.

(** X21.  On a chain whose provider admits at least single-block queries,
    [discoverVaultActivity] resolves, with [null] or with a non-empty list
    of ranges and their events; each of these ranges holds a block with a
    watched event, and every event returned was logged in an active block
    of one of the ranges. *)
Theorem discoverVaultActivity_reports_only_activity :
  forall (active : Z -> bool) (limit : option Z) (head : Z) (vaultAddress : string),
    admitsSingleBlocks limit ->
    exists result : option Activity,
      converges (fun fuel =>
                   BlockDiscovery.discoverVaultActivity (chainProvider active limit head)
                     vaultAddress fuel)
                tt result tt
      /\ match result with
         | None => True
         | Some activity =>
             activityRanges activity <> []
             /\ Forall (holdsActivity active) (activityRanges activity)
             /\ forall log, In log (allLogs (activityEvents activity)) ->
                  active (blockNumber log) = true
                  /\ exists r, In r (activityRanges activity)
                               /\ Range.start r <= blockNumber log <= Range.end_ r
         end.
Proof.
  intros active limit head vaultAddress Hlimit.
  destruct (BlockLoops.block_discoverActiveBlocks_converges
              (chainDiscovery active limit head vaultAddress) ltac:(cbn; lia)
              (fun f t s =>
                 ex_intro _ _ (ex_intro _ tt
                   (ChainDiscovery.probe_converges_on_chain active limit head vaultAddress
                      f t s Hlimit)))
              ltac:(cbn; lia) 0 head tt)
    as (ranges & [] & n & Hrun).
  assert (Hsound : Forall (holdsActivity active) ranges).
  { apply (ChainDiscovery.discoverActiveBlocks_sound active limit head vaultAddress
             n 0 (Some head) ranges tt tt). apply Hrun. lia. }
  assert (Hlatest : forall fuel,
             (n <= fuel)%nat ->
             BlockDiscovery.discoverActiveBlocks (chainDiscovery active limit head vaultAddress)
               fuel 0 None tt
             = (Done ranges, tt))
    by (intros fuel Hfuel; rewrite <- (Hrun fuel Hfuel); reflexivity).
  destruct ranges as [| range ranges].
  - exists None. split; [| exact I]. exists n. intros fuel Hfuel.
    unfold BlockDiscovery.discoverVaultActivity, bind.
    fold (chainDiscovery active limit head vaultAddress). rewrite (Hlatest fuel Hfuel).
    reflexivity.
  - destruct (getEventsFromRanges_loop_on_chain active limit head vaultAddress
                (range :: ranges) tt) as (events & Hevents & Hlogs).
    exists (Some (mkActivity (range :: ranges) events)). split.
    + exists n. intros fuel Hfuel.
      unfold BlockDiscovery.discoverVaultActivity, bind.
      fold (chainDiscovery active limit head vaultAddress). rewrite (Hlatest fuel Hfuel).
      cbn [length Nat.ltb Nat.leb]. unfold BlockDiscovery.getEventsFromRanges.
      rewrite Hevents. change (AllEvents.mk [] [] []) with noEvents.
      rewrite RangeEvents.allEventsAppend_noEvents_l. reflexivity.
    + cbn [activityRanges activityEvents]. split; [discriminate |]. split; assumption.
Qed.

Lemma discoverVaultActivity_step {St} (provider : Provider St) (vaultAddress : string)
    (fuel : nat) :
  refines (BlockDiscovery.discoverVaultActivity provider vaultAddress fuel)
          (BlockDiscovery.discoverVaultActivity provider vaultAddress (S fuel)).
Proof.
  unfold BlockDiscovery.discoverVaultActivity.
  apply refines_bind; [apply BlockDiscoveryFacts.discoverActiveBlocks_step |].
  intros activeRanges. apply refines_refl.
Qed.

(** On the chain of the two bursts the two chunks that hold them are
    returned, with the log of each burst under each of the three topics
    (the chain fixture answers every topic alike). *)
Lemma discoverVaultActivity_witness :
  exists result : option Activity,
    converges (fun fuel =>
                 BlockDiscovery.discoverVaultActivity
                   (chainProvider twoBursts (Some 5000) 20000) "0xVAULT" fuel)
              tt result tt
    /\ match result with
       | None => True
       | Some activity =>
           activityRanges activity <> []
           /\ Forall (holdsActivity twoBursts) (activityRanges activity)
           /\ forall log, In log (allLogs (activityEvents activity)) ->
                twoBursts (blockNumber log) = true
                /\ exists r, In r (activityRanges activity)
                             /\ Range.start r <= blockNumber log <= Range.end_ r
       end
    /\ result
       = Some (mkActivity
                 [Range.mk 10000 14999 5000; Range.mk 15000 15000 1]
                 (AllEvents.mk [chainLogAt 12345; chainLogAt 15000]
                               [chainLogAt 12345; chainLogAt 15000]
                               [chainLogAt 12345; chainLogAt 15000])).
Proof.
  destruct (discoverVaultActivity_reports_only_activity twoBursts (Some 5000) 20000 "0xVAULT"
              ltac:(cbn; lia)) as (result & Hrun & Hsound).
  exists result. split; [exact Hrun |]. split; [exact Hsound |].
  refine (proj1 (converges_unique _ _ _ _ _ _ Hrun _)). exists 30%nat. intros fuel Hfuel.
  apply (refines_run
           (fun m => BlockDiscovery.discoverVaultActivity
                       (chainProvider twoBursts (Some 5000) 20000) "0xVAULT" m)
           30);
    [ intros m; apply discoverVaultActivity_step
    | vm_compute; reflexivity
    | discriminate
    | exact Hfuel ].
Defined.

End VaultActivity.

(** ** The table pager *)

Module Paging.
Import Pager.

Lemma blocksFrom_seq (n : nat) :
  forall a : Z, blocksFrom n a = map (fun i => a + Z.of_nat i) (seq 0 n).
Proof.
  induction n as [| n IH]; intros a; [reflexivity |].
  cbn [blocksFrom seq map]. f_equal; [lia |].
  rewrite IH, <- seq_shift, map_map. apply map_ext. intros i. lia.
Qed.

Lemma take_clamp {A} (l : list A) (n : nat) : take n l = take (Nat.min n (length l)) l.
Proof. rewrite <- take_take, firstn_all. reflexivity. Qed.

(** On a page from 1 on, [slice] takes [pageSize] rows after the rows of
    the pages before. *)
Lemma pageData_chunk {A} (rows : list A) (page size : Z) :
  1 <= page -> 1 <= size ->
  pageData (mk rows page size)
  = take (Z.to_nat size) (drop (Z.to_nat ((page - 1) * size)) rows).
Proof.
  intros Hpage Hsize. unfold pageData, slice. cbn [filteredData currentPage pageSize].
  cbv zeta.
  assert (Hstart : 0 <= (page - 1) * size) by nia.
  destruct (Z.ltb_spec ((page - 1) * size) 0) as [Hneg | _]; [lia |].
  destruct (Z.ltb_spec (Z.min ((page - 1) * size + size) (Z.of_nat (length rows))) 0)
    as [Hneg | _]; [lia |].
  destruct (Z.le_gt_cases ((page - 1) * size) (Z.of_nat (length rows))) as [Hin | Hout].
  - replace (Z.to_nat (Z.min ((page - 1) * size) (Z.of_nat (length rows))))
      with (Z.to_nat ((page - 1) * size)) by lia.
    etransitivity; [apply take_clamp |]. symmetry.
    etransitivity; [apply take_clamp |]. symmetry.
    f_equal. rewrite length_drop. lia.
  - rewrite !drop_ge by lia. rewrite !take_nil. reflexivity.
Qed.

Lemma chunks_concat {A} (size : nat) (n : nat) :
  forall rows : list A,
    (0 < size)%nat -> (length rows <= n * size)%nat ->
    concat (map (fun i => take size (drop (i * size) rows)) (seq 0 n)) = rows.
Proof.
  induction n as [| n IH]; intros rows Hsize Hlength.
  - destruct rows; [reflexivity | cbn in Hlength; lia].
  - cbn [seq map concat].
    transitivity (take size rows ++ drop size rows); [| apply take_drop].
    f_equal.
    transitivity (concat (map (fun i => take size (drop (i * size) (drop size rows)))
                              (seq 0 n)));
      [| apply IH; [exact Hsize | rewrite length_drop; lia]].
    rewrite <- seq_shift, map_map. f_equal. apply map_ext. intros i.
    rewrite drop_drop. do 2 f_equal; lia.
Qed.

(** X22.  The pages of the table partition it: with a positive page size,
    the rows [renderTable] shows on pages 1 to [totalPages], put one after
    the other, are exactly the rows of the table in order, so that every
    row is shown on one page; a page never shows more than [pageSize] rows
    and each of these pages shows at least one. *)
Theorem pages_partition_the_table :
  forall (A : Type) (rows : list A) (pageSize : Z),
    1 <= pageSize ->
    concat (map (fun page => pageData (mk rows page pageSize))
                (blocksFromTo 1 (totalPages (mk rows 1 pageSize))))
    = rows
    /\ forall page,
         1 <= page <= totalPages (mk rows 1 pageSize) ->
         (1 <= length (pageData (mk rows page pageSize)))%nat
         /\ Z.of_nat (length (pageData (mk rows page pageSize))) <= pageSize.
Proof.
  intros A rows pageSize Hsize.
  unfold totalPages. cbn [filteredData Pager.pageSize].
  set (total := (Z.of_nat (length rows) + pageSize - 1) / pageSize).
  assert (Htotal : 0 <= total /\ Z.of_nat (length rows) <= total * pageSize
                   /\ (total - 1) * pageSize < Z.of_nat (length rows)).
  { subst total.
    pose proof (Z.div_mod (Z.of_nat (length rows) + pageSize - 1) pageSize ltac:(lia)).
    pose proof (Z.mod_pos_bound (Z.of_nat (length rows) + pageSize - 1) pageSize ltac:(lia)).
    nia. }
  destruct Htotal as (Hnonneg & Hupper & Hlower).
  assert (Hnat : (length rows <= Z.to_nat total * Z.to_nat pageSize)%nat).
  { apply Nat2Z.inj_le. rewrite Nat2Z.inj_mul, !Z2Nat.id by lia. exact Hupper. }
  split.
  - unfold blocksFromTo. rewrite blocksFrom_seq, map_map.
    replace (Z.to_nat (total - 1 + 1)) with (Z.to_nat total) by lia.
    transitivity (concat (map (fun i => take (Z.to_nat pageSize)
                                          (drop (i * Z.to_nat pageSize) rows))
                              (seq 0 (Z.to_nat total))));
      [| apply chunks_concat; [lia | exact Hnat]].
    f_equal. apply map_ext. intros i.
    rewrite pageData_chunk by lia. do 2 f_equal. nia.
  - intros page Hpage. rewrite pageData_chunk by lia.
    rewrite length_take, length_drop. nia.
Qed.

Lemma pages_partition_witness :
  concat (map (fun page => pageData (mk sevenNumbers page 3))
              (blocksFromTo 1 (totalPages (mk sevenNumbers 1 3))))
  = sevenNumbers
  /\ forall page,
       1 <= page <= totalPages (mk sevenNumbers 1 3) ->
       (1 <= length (pageData (mk sevenNumbers page 3)))%nat
       /\ Z.of_nat (length (pageData (mk sevenNumbers page 3))) <= 3.
Proof.
  apply (pages_partition_the_table Z sevenNumbers 3). lia.
Defined.

(** X23.  Navigation keeps the pager on a page: from a page between 1 and
    [totalPages], [changePage] with any step lands on such a page (it stays
    where it is when the step would leave the table); the page buttons are
    consecutive pages of the table, among them the current one, five of
    them or all pages when there are fewer, so [goToPage] from a button
    lands on a page as well; and the [prev] ([next]) button is disabled
    exactly on the first (last) page. *)
Theorem navigation_stays_on_a_page :
  forall (A : Type) (pager : t A) (delta : Z),
    1 <= pageSize pager ->
    onAPage pager ->
    onAPage (changePage pager delta)
    /\ (exists first last,
          pageNumbers pager = blocksFromTo first last
          /\ 1 <= first <= currentPage pager
          /\ currentPage pager <= last <= totalPages pager
          /\ last - first + 1 = Z.min 5 (totalPages pager))
    /\ (forall page, In page (pageNumbers pager) -> onAPage (goToPage pager page))
    /\ (prevDisabled pager = true <-> currentPage pager = 1)
    /\ (nextDisabled pager = true <-> currentPage pager = totalPages pager).
Proof.
  intros A pager delta Hsize Hpage. unfold onAPage in *.
  assert (Hwindow : exists first last,
             pageNumbers pager = blocksFromTo first last
             /\ 1 <= first <= currentPage pager
             /\ currentPage pager <= last <= totalPages pager
             /\ last - first + 1 = Z.min 5 (totalPages pager)).
  { unfold pageNumbers. cbv zeta. change (5 / 2) with 2.
    destruct (Z.ltb_spec
                (Z.min (totalPages pager) (Z.max 1 (currentPage pager - 2) + 5 - 1)
                 - Z.max 1 (currentPage pager - 2) + 1) 5) as [Hshort | Hfull];
      eexists; eexists; (split; [reflexivity |]); lia. }
  split; [| split; [exact Hwindow | split; [| split]]].
  - unfold changePage. cbv zeta.
    destruct (Z.leb_spec 1 (currentPage pager + delta));
      destruct (Z.leb_spec (currentPage pager + delta) (totalPages pager));
      cbn [andb]; unfold goToPage, totalPages in *;
      cbn [currentPage filteredData pageSize]; lia.
  - intros page Hin. destruct Hwindow as (first & last & Heq & Hfirst & Hlast & _).
    rewrite Heq in Hin. apply ChainDiscovery.In_blocksFromTo in Hin.
    unfold goToPage, totalPages in *. cbn [currentPage filteredData pageSize]. lia.
  - unfold prevDisabled. apply Z.eqb_eq.
  - unfold nextDisabled. apply Z.eqb_eq.
Qed.

Lemma navigation_witness :
  onAPage (changePage sevenRows 1)
  /\ (exists first last,
        pageNumbers sevenRows = blocksFromTo first last
        /\ 1 <= first <= currentPage sevenRows
        /\ currentPage sevenRows <= last <= totalPages sevenRows
        /\ last - first + 1 = Z.min 5 (totalPages sevenRows))
  /\ (forall page, In page (pageNumbers sevenRows) -> onAPage (goToPage sevenRows page))
  /\ (prevDisabled sevenRows = true <-> currentPage sevenRows = 1)
  /\ (nextDisabled sevenRows = true <-> currentPage sevenRows = totalPages sevenRows).
Proof.
  apply (navigation_stays_on_a_page Z sevenRows 1).
  - cbn. lia.
  - unfold onAPage. vm_compute. split; discriminate.
Defined.

End Paging.
